(** * robotstxt-ts-port: parser, pattern matcher and match resolution

    A shallow embedding of the TypeScript sources (pattern-matcher.ts,
    parser.ts, parsed-key.ts, url-utils.ts, matcher.ts, parsed-robots.ts)
    and the properties of the specification proved or refuted on it.

    Strings are JavaScript strings: sequences of UTF-16 code units.  A code
    unit is a number [N] (below 65536 in any real string); a string is a
    [list N].  Array indices and lengths are [nat]; indices that the source
    compares with the sentinel -1 are [Z]. *)

From Stdlib Require Import Ascii.
From stdpp Require Import base numbers option list strings gmap sorting.

Local Open Scope nat_scope.
Local Open Scope list_scope.

(** * Part I: the program

    ** The JavaScript built-ins the sources use *)

Module JS.

(** Code unit of an ASCII character, and the string of an ASCII literal. *)
Definition ch (a : ascii) : N := N_of_ascii a.
Global Arguments ch : simpl never.

Fixpoint str (s : string) : list N :=
  match s with
  | EmptyString => []
  | String a s' => ch a :: str s'
  end.

(** [s.startsWith(p)]. *)
Fixpoint startsWith (s p : list N) {struct p} : bool :=
  match p with
  | [] => true
  | b :: p' =>
      match s with
      | [] => false
      | a :: s' => (a =? b)%N && startsWith s' p'
      end
  end.

(** [s.slice(i)] and [s.slice(i, j)] for non-negative arguments. *)
Definition slice_from (s : list N) (i : nat) : list N := drop i s.
Definition slice (s : list N) (i j : nat) : list N := take (j - i) (drop i s).

(** [s.indexOf(c)] for a one-character needle: [None] stands for -1. *)
Fixpoint indexOf (c : N) (s : list N) : option nat :=
  match s with
  | [] => None
  | a :: s' => if (a =? c)%N then Some 0 else S <$> indexOf c s'
  end.

(** [s.lastIndexOf(c)] for a one-character needle. *)
Fixpoint lastIndexOf (c : N) (s : list N) : option nat :=
  match s with
  | [] => None
  | a :: s' =>
      match lastIndexOf c s' with
      | Some i => Some (S i)
      | None => if (a =? c)%N then Some 0 else None
      end
  end.

(** [s.indexOf(needle, from)] for a string needle. *)
Fixpoint indexOfStr (needle s : list N) : option nat :=
  if startsWith s needle then Some 0
  else match s with
       | [] => None
       | _ :: s' => S <$> indexOfStr needle s'
       end.

Definition indexOfFrom (needle s : list N) (from : nat) : option nat :=
  (λ i, from + i) <$> indexOfStr needle (drop from s).

(** An index as the number the source sees: -1 when nothing was found. *)
Definition idx (o : option nat) : Z :=
  match o with
  | Some i => Z.of_nat i
  | None => (-1)%Z
  end.

(** The code units that [trim()] strips and the regular expression [\s]
    matches: WhiteSpace and LineTerminator of ECMAScript. *)
Definition isWhiteSpace (c : N) : bool :=
  bool_decide (c ∈ [9; 10; 11; 12; 13; 32; 160; 5760; 8232; 8233; 8239;
                    8287; 12288; 65279]%N)
  || ((8192 <=? c)%N && (c <=? 8202)%N).

Fixpoint trimStart (s : list N) : list N :=
  match s with
  | [] => []
  | c :: s' => if isWhiteSpace c then trimStart s' else s
  end.

Definition trimEnd (s : list N) : list N :=
  reverse (trimStart (reverse s)).

(** [s.trim()]. *)
Definition trim (s : list N) : list N := trimEnd (trimStart s).

(** [s.split(/[ \t]+/)]: the pieces between maximal runs of spaces and
    tabs; [cur] is the piece being read and [inSep] tells that the previous
    character belonged to a separator run. *)
Definition isSpaceOrTab (c : N) : bool := (c =? ch " ")%N || (c =? 9)%N.

Fixpoint splitLoop (inSep : bool) (cur : list N) (s : list N)
  : list (list N) :=
  match s with
  | [] => [cur]
  | c :: s' =>
      if isSpaceOrTab c then
        if inSep then splitLoop true [] s'
        else cur :: splitLoop true [] s'
      else splitLoop false (cur ++ [c]) s'
  end.

Definition splitSpaceTab (s : list N) : list (list N) := splitLoop false [] s.

(** [c.toUpperCase()] and [c.toLowerCase()] on a code unit below 128. *)
Definition isAsciiLower (c : N) : bool := (ch "a" <=? c)%N && (c <=? ch "z")%N.
Definition isAsciiUpper (c : N) : bool := (ch "A" <=? c)%N && (c <=? ch "Z")%N.
Definition asciiToUpper (c : N) : N := if isAsciiLower c then (c - 32)%N else c.
Definition asciiToLower (c : N) : N := if isAsciiUpper c then (c + 32)%N else c.

(** [String.prototype.toLowerCase] follows the Unicode case tables of the
    engine, which are no part of the repository: it is a parameter of the
    development.  Every engine agrees with [asciiCaseMapping] on strings
    whose code units are all below 128. *)
Class CaseMapping := toLowerCase : list N → list N.

Definition asciiCaseMapping : CaseMapping := λ s, asciiToLower <$> s.

(** [new TextEncoder().encode(c)] for a string of one code unit: the UTF-8
    octets of the code point, U+FFFD for a lone surrogate. *)
Definition utf8Encode (c : N) : list N :=
  if (c <? 128)%N then [c]
  else if (c <? 2048)%N then [192 + c / 64; 128 + c mod 64]%N
  else if (55296 <=? c)%N && (c <=? 57343)%N then [239; 191; 189]%N
  else [224 + c / 4096; 128 + (c / 64) mod 64; 128 + c mod 64]%N.

End JS.

Import JS.

(** ** pattern-matcher.ts *)

Module PatternMatcher.

(** The [pos] array, [new Array(pathLen + 1)], is a list of slots; a slot
    is [None] until it is written.  [readPos pos i] is [pos[i]], and is
    [None] when the slot was never written. *)
Definition readPos (pos : list (option nat)) (i : nat) : option nat :=
  mjoin (pos !! i).

Section WithPath.
Variable path : list N.

Let pathLen := length path.

(** The wildcard loop
    [for (let i = 1; i < numPos; i++) pos[i] = pos[i - 1] + 1],
    with [n] iterations left. *)
Fixpoint fillStar (n i : nat) (pos : list (option nat))
  : option (list (option nat)) :=
  match n with
  | 0 => Some pos
  | S n' =>
      v ← readPos pos (i - 1);
      fillStar n' (S i) (<[i := Some (v + 1)]> pos)
  end.

(** The literal loop
    [for (let i = 0; i < numPos; i++)
       if (pos[i] < pathLen && path[pos[i]] === pat)
         pos[newNumPos++] = pos[i] + 1],
    with [n] iterations left; returns the array and [newNumPos]. *)
Fixpoint literalLoop (pat : N) (n i newNumPos : nat)
    (pos : list (option nat)) : option (list (option nat) * nat) :=
  match n with
  | 0 => Some (pos, newNumPos)
  | S n' =>
      v ← readPos pos i;
      if bool_decide (v < pathLen) && bool_decide (path !! v = Some pat)
      then literalLoop pat n' (S i) (S newNumPos)
             (<[newNumPos := Some (v + 1)]> pos)
      else literalLoop pat n' (S i) newNumPos pos
  end.

(** The main loop over the pattern; the argument is the part of the
    pattern from index [p] on, so [p === pattern.length - 1] reads
    "nothing follows [pat]". *)
Fixpoint matchesLoop (pattern : list N) (pos : list (option nat))
    (numPos : nat) : option bool :=
  match pattern with
  | [] => Some true
  | pat :: rest =>
      if (pat =? ch "$")%N && bool_decide (rest = []) then
        v ← readPos pos (numPos - 1);
        Some (bool_decide (v = pathLen))
      else if (pat =? ch "*")%N then
        p0 ← readPos pos 0;
        let numPos' := pathLen - p0 + 1 in
        pos' ← fillStar (numPos' - 1) 1 pos;
        matchesLoop rest pos' numPos'
      else
        r ← literalLoop pat numPos 0 0 pos;
        if bool_decide (r.2 = 0) then Some false
        else matchesLoop rest r.1 r.2
  end.

(** [matches(path, pattern)], [None] if an unwritten slot were read. *)
Definition matchesArr (pattern : list N) : option bool :=
  matchesLoop pattern (<[0 := Some 0]> (replicate (S pathLen) None)) 1.

End WithPath.

(** [matches(path, pattern)]. *)
Definition matches (path pattern : list N) : bool :=
  default false (matchesArr path pattern).

(** *** The frontier semantics of the specification

    The frontier is the finite set of path offsets reachable after a
    pattern prefix, kept as a list. *)

Definition frontierMin (F : list nat) : nat :=
  match F with
  | [] => 0
  | o :: F' => foldr Nat.min o F'
  end.

Definition frontierStar (path : list N) (F : list nat) : list nat :=
  seq (frontierMin F) (S (length path) - frontierMin F).

Definition frontierAdvance (path : list N) (p : N) (F : list nat)
  : list nat :=
  S <$> filter (λ o, path !! o = Some p) F.

Fixpoint frontierRun (path pattern : list N) (F : list nat) : bool :=
  match pattern with
  | [] => bool_decide (F ≠ [])
  | p :: rest =>
      if (p =? ch "$")%N && bool_decide (rest = []) then
        bool_decide (length path ∈ F)
      else if (p =? ch "*")%N then
        frontierRun path rest (frontierStar path F)
      else
        let F' := frontierAdvance path p F in
        if bool_decide (F' = []) then false
        else frontierRun path rest F'
  end.

Definition frontierMatches (path pattern : list N) : bool :=
  frontierRun path pattern [0].

End PatternMatcher.

Import PatternMatcher.

(** ** constants.ts *)

Definition K_MAX_LINE_LEN : N := 2083 * 8.
Definition K_ALLOW_FREQUENT_TYPOS : bool := true.
Definition K_HEX_DIGITS : list N := str "0123456789ABCDEF".
Definition UTF8_BOM : list N := [239; 187; 191]%N.
Definition K_NO_MATCH_PRIORITY : Z := (-1)%Z.

(** ** url-utils.ts *)

Module UrlUtils.

Definition isPathChar (c : N) : bool :=
  (c =? ch "/")%N || (c =? ch "?")%N || (c =? ch ";")%N.

(** The two search loops: the index of the first [/], [?] or [;]. *)
Fixpoint findPathChar (s : list N) : option nat :=
  match s with
  | [] => None
  | c :: s' => if isPathChar c then Some 0 else S <$> findPathChar s'
  end.

Definition getPathParamsQuery (url : list N) : list N :=
  let searchStart :=
    if bool_decide (2 ≤ length url)
       && bool_decide (url !! 0 = Some (ch "/"))
       && bool_decide (url !! 1 = Some (ch "/"))
    then 2 else 0 in
  let searchPart := slice_from url searchStart in
  let earlyPath := idx ((λ i, searchStart + i) <$> findPathChar searchPart) in
  let protocolEnd := idx (indexOfFrom (str "://") url searchStart) in
  let protocolEnd :=
    if negb (earlyPath =? -1)%Z && (earlyPath <? protocolEnd)%Z
    then (-1)%Z else protocolEnd in
  let protocolEnd :=
    if (protocolEnd =? -1)%Z then Z.of_nat searchStart
    else (protocolEnd + 3)%Z in
  let pathStart :=
    idx ((λ i, Z.to_nat protocolEnd + i)
           <$> findPathChar (drop (Z.to_nat protocolEnd) url)) in
  if negb (pathStart =? -1)%Z then
    let hashPos := idx (indexOfFrom [ch "#"] url searchStart) in
    if negb (hashPos =? -1)%Z && (hashPos <? pathStart)%Z then str "/"
    else
      let pathEnd :=
        if (hashPos =? -1)%Z then Z.of_nat (length url) else hashPos in
      if negb (bool_decide (url !! Z.to_nat pathStart = Some (ch "/")))
      then str "/" ++ slice url (Z.to_nat pathStart) (Z.to_nat pathEnd)
      else slice url (Z.to_nat pathStart) (Z.to_nat pathEnd)
  else str "/".

Definition isHexDigit (c : N) : bool :=
  ((ch "0" <=? c)%N && (c <=? ch "9")%N)
  || ((ch "A" <=? c)%N && (c <=? ch "F")%N)
  || ((ch "a" <=? c)%N && (c <=? ch "f")%N).

Definition isLower (c : N) : bool := (ch "a" <=? c)%N && (c <=? ch "z")%N.

(** The test of branch (a): [%] followed by two hex digits. *)
Definition isEscapeSequence (c h1 h2 : N) : bool :=
  (c =? ch "%")%N && isHexDigit h1 && isHexDigit h2.

(** First pass of [maybeEscapePattern]: [numToEscape] and
    [needCapitalize]. *)
Fixpoint scanPattern (src : list N) (numToEscape : nat)
    (needCapitalize : bool) : nat * bool :=
  match src with
  | [] => (numToEscape, needCapitalize)
  | c :: rest =>
      match rest with
      | h1 :: h2 :: rest' =>
          if isEscapeSequence c h1 h2 then
            scanPattern rest' numToEscape
              (if isLower h1 || isLower h2 then true else needCapitalize)
          else if (127 <? c)%N then
            scanPattern rest (S numToEscape) needCapitalize
          else scanPattern rest numToEscape needCapitalize
      | _ =>
          if (127 <? c)%N then scanPattern rest (S numToEscape) needCapitalize
          else scanPattern rest numToEscape needCapitalize
      end
  end.

(** [K_HEX_DIGITS[n]]. *)
Definition hexDigit (n : N) : list N :=
  option_list (K_HEX_DIGITS !! N.to_nat n).

(** The octets of one code unit, each written [%XY]. *)
Definition escapeOctets (c : N) : list N :=
  b ← utf8Encode c;
  ch "%" :: hexDigit (N.land (N.shiftr b 4) 15) ++ hexDigit (N.land b 15).

(** Second pass of [maybeEscapePattern]: the escaped string. *)
Fixpoint escapeLoop (src : list N) : list N :=
  match src with
  | [] => []
  | c :: rest =>
      match rest with
      | h1 :: h2 :: rest' =>
          if isEscapeSequence c h1 h2 then
            c :: asciiToUpper h1 :: asciiToUpper h2 :: escapeLoop rest'
          else if (127 <? c)%N then escapeOctets c ++ escapeLoop rest
          else c :: escapeLoop rest
      | _ =>
          if (127 <? c)%N then escapeOctets c ++ escapeLoop rest
          else c :: escapeLoop rest
      end
  end.

Record EscapeResult := { escaped : list N; wasEscaped : bool }.

Definition maybeEscapePattern (src : list N) : EscapeResult :=
  let '(numToEscape, needCapitalize) := scanPattern src 0 false in
  if bool_decide (numToEscape = 0) && negb needCapitalize then
    {| escaped := src; wasEscaped := false |}
  else {| escaped := escapeLoop src; wasEscaped := true |}.

End UrlUtils.

(** ** types.ts *)

Record LineMetadata := {
  isEmpty : bool;
  hasComment : bool;
  isComment : bool;
  hasDirective : bool;
  isAcceptableTypo : bool;
  isLineTooLong : bool;
  isMissingColonSeparator : bool
}.

Definition createLineMetadata : LineMetadata :=
  {| isEmpty := false; hasComment := false; isComment := false;
     hasDirective := false; isAcceptableTypo := false;
     isLineTooLong := false; isMissingColonSeparator := false |}.

(** Assignments to the fields of a metadata object. *)
Definition set_isEmpty (b : bool) (m : LineMetadata) : LineMetadata :=
  {| isEmpty := b; hasComment := hasComment m; isComment := isComment m;
     hasDirective := hasDirective m; isAcceptableTypo := isAcceptableTypo m;
     isLineTooLong := isLineTooLong m;
     isMissingColonSeparator := isMissingColonSeparator m |}.
Definition set_hasComment (b : bool) (m : LineMetadata) : LineMetadata :=
  {| isEmpty := isEmpty m; hasComment := b; isComment := isComment m;
     hasDirective := hasDirective m; isAcceptableTypo := isAcceptableTypo m;
     isLineTooLong := isLineTooLong m;
     isMissingColonSeparator := isMissingColonSeparator m |}.
Definition set_isComment (b : bool) (m : LineMetadata) : LineMetadata :=
  {| isEmpty := isEmpty m; hasComment := hasComment m; isComment := b;
     hasDirective := hasDirective m; isAcceptableTypo := isAcceptableTypo m;
     isLineTooLong := isLineTooLong m;
     isMissingColonSeparator := isMissingColonSeparator m |}.
Definition set_hasDirective (b : bool) (m : LineMetadata) : LineMetadata :=
  {| isEmpty := isEmpty m; hasComment := hasComment m;
     isComment := isComment m; hasDirective := b;
     isAcceptableTypo := isAcceptableTypo m;
     isLineTooLong := isLineTooLong m;
     isMissingColonSeparator := isMissingColonSeparator m |}.
Definition set_isAcceptableTypo (b : bool) (m : LineMetadata)
  : LineMetadata :=
  {| isEmpty := isEmpty m; hasComment := hasComment m;
     isComment := isComment m; hasDirective := hasDirective m;
     isAcceptableTypo := b; isLineTooLong := isLineTooLong m;
     isMissingColonSeparator := isMissingColonSeparator m |}.
Definition set_isLineTooLong (b : bool) (m : LineMetadata) : LineMetadata :=
  {| isEmpty := isEmpty m; hasComment := hasComment m;
     isComment := isComment m; hasDirective := hasDirective m;
     isAcceptableTypo := isAcceptableTypo m; isLineTooLong := b;
     isMissingColonSeparator := isMissingColonSeparator m |}.
Definition set_isMissingColonSeparator (b : bool) (m : LineMetadata)
  : LineMetadata :=
  {| isEmpty := isEmpty m; hasComment := hasComment m;
     isComment := isComment m; hasDirective := hasDirective m;
     isAcceptableTypo := isAcceptableTypo m;
     isLineTooLong := isLineTooLong m; isMissingColonSeparator := b |}.

Inductive KeyType := USER_AGENT | SITEMAP | ALLOW | DISALLOW | UNKNOWN.

(** The abstract class [RobotsParseHandler]: the callbacks of a parse, each
    a transition of the handler object [H]. *)
Class RobotsParseHandler (H : Type) := {
  handleRobotsStart : H → H;
  handleRobotsEnd : H → H;
  handleUserAgent : nat → list N → H → H;
  handleAllow : nat → list N → H → H;
  handleDisallow : nat → list N → H → H;
  handleSitemap : nat → list N → H → H;
  handleUnknownAction : nat → list N → list N → H → H;
  reportLineMetadata : nat → LineMetadata → H → H
}.

(** ** parsed-key.ts *)

Module ParsedRobotsKey.
Section WithCaseMapping.
Context `{CM : CaseMapping}.

Record ParsedKeyResult := {
  type : KeyType;
  keyIsAcceptableTypo : bool;
  unknownText : option (list N)
}.

Definition startsWithIgnoreCase (key : list N) (prefix : string) : bool :=
  startsWith (toLowerCase key) (toLowerCase (str prefix)).

Definition keyIsUserAgent (key : list N) : bool :=
  if startsWithIgnoreCase key "user-agent" then true
  else if K_ALLOW_FREQUENT_TYPOS
          && (startsWithIgnoreCase key "useragent"
              || startsWithIgnoreCase key "user agent")
  then true else false.

Definition isUserAgentTypo (key : list N) : bool :=
  if negb K_ALLOW_FREQUENT_TYPOS then false
  else startsWithIgnoreCase key "useragent"
       || startsWithIgnoreCase key "user agent".

Definition keyIsAllow (key : list N) : bool :=
  startsWithIgnoreCase key "allow".

Definition disallowTypo (key : list N) : bool :=
  startsWithIgnoreCase key "dissallow"
  || startsWithIgnoreCase key "dissalow"
  || startsWithIgnoreCase key "disalow"
  || startsWithIgnoreCase key "diasllow"
  || startsWithIgnoreCase key "disallaw".

Definition keyIsDisallow (key : list N) : bool :=
  if startsWithIgnoreCase key "disallow" then true
  else if K_ALLOW_FREQUENT_TYPOS && disallowTypo key then true else false.

Definition isDisallowTypo (key : list N) : bool :=
  if negb K_ALLOW_FREQUENT_TYPOS then false else disallowTypo key.

Definition keyIsSitemap (key : list N) : bool :=
  if startsWithIgnoreCase key "sitemap" then true
  else if K_ALLOW_FREQUENT_TYPOS && startsWithIgnoreCase key "site-map"
  then true else false.

Definition isSitemapTypo (key : list N) : bool :=
  if negb K_ALLOW_FREQUENT_TYPOS then false
  else startsWithIgnoreCase key "site-map".

(** [parse(key)]; the fields [type] and [keyText] of the object are
    overwritten by every call and read only to build the result. *)
Definition parse (key : list N) : ParsedKeyResult :=
  if keyIsUserAgent key then
    {| type := USER_AGENT; keyIsAcceptableTypo := isUserAgentTypo key;
       unknownText := None |}
  else if keyIsAllow key then
    {| type := ALLOW; keyIsAcceptableTypo := false; unknownText := None |}
  else if keyIsDisallow key then
    {| type := DISALLOW; keyIsAcceptableTypo := isDisallowTypo key;
       unknownText := None |}
  else if keyIsSitemap key then
    {| type := SITEMAP; keyIsAcceptableTypo := isSitemapTypo key;
       unknownText := None |}
  else
    {| type := UNKNOWN; keyIsAcceptableTypo := false;
       unknownText := Some key |}.

End WithCaseMapping.
End ParsedRobotsKey.

(** ** parser.ts *)

Module RobotsTxtParser.
Section WithHandler.
Context `{CM : CaseMapping} {H : Type} `{RPH : RobotsParseHandler H}.

Record KeyValueResult := {
  key : list N;
  value : list N;
  metadata : LineMetadata
}.

Definition needEscapeValueForKey (keyType : KeyType) : bool :=
  match keyType with
  | USER_AGENT | SITEMAP => false
  | _ => true
  end.

Definition getKeyAndValueFrom (line : list N) : KeyValueResult :=
  let metadata := createLineMetadata in
  let commentPos := indexOf (ch "#") line in
  let '(metadata, processedLine) :=
    match commentPos with
    | Some commentPos => (set_hasComment true metadata, slice line 0 commentPos)
    | None => (metadata, line)
    end in
  let processedLine := trim processedLine in
  if bool_decide (length processedLine = 0) then
    let metadata :=
      if hasComment metadata then set_isComment true metadata
      else set_isEmpty true metadata in
    {| key := []; value := []; metadata := metadata |}
  else
    match indexOf (ch ":") processedLine with
    | None =>
        let parts := splitSpaceTab processedLine in
        match parts with
        | [part0; part1] =>
            let metadata := set_isMissingColonSeparator true metadata in
            let metadata := set_hasDirective true metadata in
            {| key := part0; value := part1; metadata := metadata |}
        | _ => {| key := []; value := []; metadata := metadata |}
        end
    | Some sepPos =>
        let key := trim (slice processedLine 0 sepPos) in
        let value := trim (slice_from processedLine (sepPos + 1)) in
        if bool_decide (0 < length key) then
          {| key := key; value := value;
             metadata := set_hasDirective true metadata |}
        else {| key := []; value := []; metadata := metadata |}
    end.

Definition emitKeyValueToHandler (lineNum : nat) (keyType : KeyType)
    (value : list N) (unknownText : option (list N)) (h : H) : H :=
  match keyType with
  | USER_AGENT => handleUserAgent lineNum value h
  | ALLOW => handleAllow lineNum value h
  | DISALLOW => handleDisallow lineNum value h
  | SITEMAP => handleSitemap lineNum value h
  | UNKNOWN => handleUnknownAction lineNum (default [] unknownText) value h
  end.

Definition parseAndEmitLine (lineNum : nat) (line : list N)
    (lineTooLong : bool) (h : H) : H :=
  let kv := getKeyAndValueFrom line in
  let metadata := set_isLineTooLong lineTooLong (metadata kv) in
  if negb (hasDirective metadata) then reportLineMetadata lineNum metadata h
  else
    let keyResult := ParsedRobotsKey.parse (key kv) in
    let metadata :=
      set_isAcceptableTypo (ParsedRobotsKey.keyIsAcceptableTypo keyResult)
        metadata in
    let h :=
      if needEscapeValueForKey (ParsedRobotsKey.type keyResult) then
        let escaped := UrlUtils.escaped (UrlUtils.maybeEscapePattern (value kv)) in
        emitKeyValueToHandler lineNum (ParsedRobotsKey.type keyResult)
          escaped (ParsedRobotsKey.unknownText keyResult) h
      else
        emitKeyValueToHandler lineNum (ParsedRobotsKey.type keyResult)
          (value kv) (ParsedRobotsKey.unknownText keyResult) h in
    reportLineMetadata lineNum metadata h.

(** The local variables of [parse()]. *)
Record ParseState := {
  lineBuffer : list N;
  lineNum : nat;
  bomPos : nat;
  lastWasCarriageReturn : bool;
  lineTooLong : bool
}.

Definition initialParseState : ParseState :=
  {| lineBuffer := []; lineNum := 0; bomPos := 0;
     lastWasCarriageReturn := false; lineTooLong := false |}.

(** One iteration of the loop over the characters of the body. *)
Definition parseChar (c : N) (st : ParseState) (h : H) : ParseState * H :=
  if bool_decide (bomPos st < length UTF8_BOM)
     && bool_decide (UTF8_BOM !! bomPos st = Some c) then
    ({| lineBuffer := lineBuffer st; lineNum := lineNum st;
        bomPos := bomPos st + 1;
        lastWasCarriageReturn := lastWasCarriageReturn st;
        lineTooLong := lineTooLong st |}, h)
  else
    let bomPos := length UTF8_BOM in
    if (c =? 10)%N || (c =? 13)%N then
      let isCRLFContinuation :=
        bool_decide (length (lineBuffer st) = 0)
        && lastWasCarriageReturn st && (c =? 10)%N in
      if negb isCRLFContinuation then
        let lineNum := lineNum st + 1 in
        let h := parseAndEmitLine lineNum (lineBuffer st) (lineTooLong st) h in
        ({| lineBuffer := []; lineNum := lineNum; bomPos := bomPos;
            lastWasCarriageReturn := (c =? 13)%N; lineTooLong := false |}, h)
      else
        ({| lineBuffer := []; lineNum := lineNum st; bomPos := bomPos;
            lastWasCarriageReturn := (c =? 13)%N;
            lineTooLong := lineTooLong st |}, h)
    else if (N.of_nat (length (lineBuffer st)) <? K_MAX_LINE_LEN - 1)%N then
      ({| lineBuffer := lineBuffer st ++ [c]; lineNum := lineNum st;
          bomPos := bomPos; lastWasCarriageReturn := false;
          lineTooLong := lineTooLong st |}, h)
    else
      ({| lineBuffer := lineBuffer st; lineNum := lineNum st;
          bomPos := bomPos; lastWasCarriageReturn := false;
          lineTooLong := true |}, h).

(** The loop [for (let i = 0; i < robotsBody.length; i++)]. *)
Fixpoint parseLoop (body : list N) (st : ParseState) (h : H)
  : ParseState * H :=
  match body with
  | [] => (st, h)
  | c :: body' =>
      let '(st, h) := parseChar c st h in
      parseLoop body' st h
  end.

(** [parse()]. *)
Definition parse (robotsBody : list N) (h : H) : H :=
  let h := handleRobotsStart h in
  let '(st, h) := parseLoop robotsBody initialParseState h in
  let lineNum := lineNum st + 1 in
  let h := parseAndEmitLine lineNum (lineBuffer st) (lineTooLong st) h in
  handleRobotsEnd h.

End WithHandler.
End RobotsTxtParser.

(** [parseRobotsTxt(robotsBody, handler)]. *)
Definition parseRobotsTxt `{CM : CaseMapping} {H : Type}
    `{RPH : RobotsParseHandler H}
    (robotsBody : list N) (handler : H) : H :=
  RobotsTxtParser.parse robotsBody handler.

(** A handler that records the callbacks it receives in order, like the
    handlers of the test suite. *)
Inductive ParseEvent :=
| RobotsStart
| RobotsEnd
| UserAgent (lineNum : nat) (value : list N)
| Allow (lineNum : nat) (value : list N)
| Disallow (lineNum : nat) (value : list N)
| Sitemap (lineNum : nat) (value : list N)
| UnknownAction (lineNum : nat) (action value : list N)
| ReportLineMetadata (lineNum : nat) (metadata : LineMetadata).

#[global] Instance eventRecorder : RobotsParseHandler (list ParseEvent) := {|
  handleRobotsStart log := log ++ [RobotsStart];
  handleRobotsEnd log := log ++ [RobotsEnd];
  handleUserAgent n v log := log ++ [UserAgent n v];
  handleAllow n v log := log ++ [Allow n v];
  handleDisallow n v log := log ++ [Disallow n v];
  handleSitemap n v log := log ++ [Sitemap n v];
  handleUnknownAction n a v log := log ++ [UnknownAction n a v];
  reportLineMetadata n m log := log ++ [ReportLineMetadata n m]
|}.

(** The sequence of handler events of a parse. *)
Definition parseEvents `{CM : CaseMapping} (robotsBody : list N)
  : list ParseEvent :=
  parseRobotsTxt robotsBody ([] : list ParseEvent).

(** ** match-strategy.ts *)

Module LongestMatchRobotsMatchStrategy.

Definition matchAllow (path pattern : list N) : Z :=
  if matches path pattern then Z.of_nat (length pattern) else (-1)%Z.

Definition matchDisallow (path pattern : list N) : Z :=
  if matches path pattern then Z.of_nat (length pattern) else (-1)%Z.

End LongestMatchRobotsMatchStrategy.

(** A thrown [Error]: the result of a method that may throw. *)
Inductive Result (A : Type) :=
| Ok (a : A)
| Throw (message : string).
Arguments Ok {A} a.
Arguments Throw {A} message.

(** ** matcher.ts *)

(** The class [Match]. *)
Record Match := { priority : Z; line : nat }.

Module Match.

Definition new : Match := {| priority := K_NO_MATCH_PRIORITY; line := 0 |}.
Definition set (priority : Z) (line : nat) (m : Match) : Match :=
  {| priority := priority; line := line |}.
Definition clear (m : Match) : Match := set K_NO_MATCH_PRIORITY 0 m.
Definition getLine (m : Match) : nat := line m.
Definition getPriority (m : Match) : Z := priority m.
Definition higherPriorityMatch (a b : Match) : Match :=
  if (getPriority b <? getPriority a)%Z then a else b.

End Match.

Record MatchHierarchy := { global : Match; specific : Match }.

(** [extractUserAgent], defined alike in matcher.ts and parsed-robots.ts. *)
Definition isUserAgentChar (c : N) : bool :=
  ((ch "a" <=? c)%N && (c <=? ch "z")%N)
  || ((ch "A" <=? c)%N && (c <=? ch "Z")%N)
  || (c =? ch "-")%N || (c =? ch "_")%N.

Fixpoint extractUserAgent (userAgent : list N) : list N :=
  match userAgent with
  | [] => []
  | c :: rest => if isUserAgentChar c then c :: extractUserAgent rest else []
  end.

(** The test of both [handleUserAgent]s for the global agent: a [*] alone
    or followed by white space. *)
Definition isGlobalAgent (userAgent : list N) : bool :=
  match userAgent with
  | c :: rest =>
      (c =? ch "*")%N
      && match rest with
         | [] => true
         | c1 :: _ => isWhiteSpace c1
         end
  | [] => false
  end.

(** The fields of a [RobotsMatcher]; [matchStrategy] is always the
    [LongestMatchRobotsMatchStrategy]. *)
Record RobotsMatcher := {
  allow : MatchHierarchy;
  disallowMatch : MatchHierarchy;
  seenGlobalAgent : bool;
  seenSpecificAgent : bool;
  everSeenSpecificAgentFlag : bool;
  seenSeparator : bool;
  path : list N;
  userAgents : list (list N)
}.

Module RobotsMatcher.
Section WithCaseMapping.
Context `{CM : CaseMapping}.

(** [new RobotsMatcher()]. *)
Definition new : RobotsMatcher :=
  {| allow := {| global := Match.new; specific := Match.new |};
     disallowMatch := {| global := Match.new; specific := Match.new |};
     seenGlobalAgent := false; seenSpecificAgent := false;
     everSeenSpecificAgentFlag := false; seenSeparator := false;
     path := []; userAgents := [] |}.

Definition isValidUserAgentToObey (userAgent : list N) : bool :=
  if bool_decide (length userAgent = 0) then false
  else bool_decide (extractUserAgent userAgent = userAgent).

Definition disallow (m : RobotsMatcher) : bool :=
  if (0 <? Match.getPriority (specific (allow m)))%Z
     || (0 <? Match.getPriority (specific (disallowMatch m)))%Z
  then (Match.getPriority (specific (allow m))
        <? Match.getPriority (specific (disallowMatch m)))%Z
  else if everSeenSpecificAgentFlag m then false
  else if (0 <? Match.getPriority (global (disallowMatch m)))%Z
          || (0 <? Match.getPriority (global (allow m)))%Z
  then (Match.getPriority (global (allow m))
        <? Match.getPriority (global (disallowMatch m)))%Z
  else false.

Definition disallowIgnoreGlobal (m : RobotsMatcher) : bool :=
  if (0 <? Match.getPriority (specific (allow m)))%Z
     || (0 <? Match.getPriority (specific (disallowMatch m)))%Z
  then (Match.getPriority (specific (allow m))
        <? Match.getPriority (specific (disallowMatch m)))%Z
  else false.

Definition everSeenSpecificAgent (m : RobotsMatcher) : bool :=
  everSeenSpecificAgentFlag m.

Definition matchingLine (m : RobotsMatcher) : nat :=
  if everSeenSpecificAgentFlag m then
    Match.getLine
      (Match.higherPriorityMatch (specific (disallowMatch m))
         (specific (allow m)))
  else
    Match.getLine
      (Match.higherPriorityMatch (global (disallowMatch m))
         (global (allow m))).

Definition initUserAgentsAndPath (userAgents : list (list N))
    (path : list N) (m : RobotsMatcher) : Result RobotsMatcher :=
  if negb (startsWith path (str "/")) then Throw "Path must start with /"
  else
    Ok {| allow := allow m; disallowMatch := disallowMatch m;
          seenGlobalAgent := seenGlobalAgent m;
          seenSpecificAgent := seenSpecificAgent m;
          everSeenSpecificAgentFlag := everSeenSpecificAgentFlag m;
          seenSeparator := seenSeparator m;
          path := path; userAgents := userAgents |}.

Definition seenAnyAgent (m : RobotsMatcher) : bool :=
  seenGlobalAgent m || seenSpecificAgent m.

Definition handleRobotsStart (m : RobotsMatcher) : RobotsMatcher :=
  {| allow := {| global := Match.clear (global (allow m));
                 specific := Match.clear (specific (allow m)) |};
     disallowMatch :=
       {| global := Match.clear (global (disallowMatch m));
          specific := Match.clear (specific (disallowMatch m)) |};
     seenGlobalAgent := false; seenSpecificAgent := false;
     everSeenSpecificAgentFlag := false; seenSeparator := false;
     path := path m; userAgents := userAgents m |}.

Definition handleRobotsEnd (m : RobotsMatcher) : RobotsMatcher := m.

(** The loop [for (const agent of this.userAgents)] of [handleUserAgent]:
    does some requested agent equal [extracted], ignoring case? *)
Definition matchesRequestedAgent (extracted : list N)
    (userAgents : list (list N)) : bool :=
  existsb (λ agent,
    bool_decide (toLowerCase extracted = toLowerCase agent)) userAgents.

Definition handleUserAgent (_lineNum : nat) (userAgent : list N)
    (m : RobotsMatcher) : RobotsMatcher :=
  let '(seenSpecific, seenGlobal, seenSep) :=
    if seenSeparator m then (false, false, false)
    else (seenSpecificAgent m, seenGlobalAgent m, seenSeparator m) in
  if isGlobalAgent userAgent then
    {| allow := allow m; disallowMatch := disallowMatch m;
       seenGlobalAgent := true; seenSpecificAgent := seenSpecific;
       everSeenSpecificAgentFlag := everSeenSpecificAgentFlag m;
       seenSeparator := seenSep; path := path m;
       userAgents := userAgents m |}
  else
    let extracted := extractUserAgent userAgent in
    if matchesRequestedAgent extracted (userAgents m) then
      {| allow := allow m; disallowMatch := disallowMatch m;
         seenGlobalAgent := seenGlobal; seenSpecificAgent := true;
         everSeenSpecificAgentFlag := true;
         seenSeparator := seenSep; path := path m;
         userAgents := userAgents m |}
    else
      {| allow := allow m; disallowMatch := disallowMatch m;
         seenGlobalAgent := seenGlobal; seenSpecificAgent := seenSpecific;
         everSeenSpecificAgentFlag := everSeenSpecificAgentFlag m;
         seenSeparator := seenSep; path := path m;
         userAgents := userAgents m |}.

(** Assignments to the fields [seenSeparator], [allow] and
    [disallowMatch]. *)
Definition set_seenSeparator (b : bool) (m : RobotsMatcher)
  : RobotsMatcher :=
  {| allow := allow m; disallowMatch := disallowMatch m;
     seenGlobalAgent := seenGlobalAgent m;
     seenSpecificAgent := seenSpecificAgent m;
     everSeenSpecificAgentFlag := everSeenSpecificAgentFlag m;
     seenSeparator := b; path := path m; userAgents := userAgents m |}.
Definition set_allow (a : MatchHierarchy) (m : RobotsMatcher)
  : RobotsMatcher :=
  {| allow := a; disallowMatch := disallowMatch m;
     seenGlobalAgent := seenGlobalAgent m;
     seenSpecificAgent := seenSpecificAgent m;
     everSeenSpecificAgentFlag := everSeenSpecificAgentFlag m;
     seenSeparator := seenSeparator m; path := path m;
     userAgents := userAgents m |}.
Definition set_disallowMatch (d : MatchHierarchy) (m : RobotsMatcher)
  : RobotsMatcher :=
  {| allow := allow m; disallowMatch := d;
     seenGlobalAgent := seenGlobalAgent m;
     seenSpecificAgent := seenSpecificAgent m;
     everSeenSpecificAgentFlag := everSeenSpecificAgentFlag m;
     seenSeparator := seenSeparator m; path := path m;
     userAgents := userAgents m |}.

(** The update of a [MatchHierarchy] shared by [handleAllow] and
    [handleDisallow]: the candidate of the active scope is replaced when
    [priority] is strictly greater. *)
Definition updateHierarchy (seenSpecific : bool) (priority : Z)
    (lineNum : nat) (h : MatchHierarchy) : MatchHierarchy :=
  if seenSpecific then
    if (Match.getPriority (specific h) <? priority)%Z then
      {| global := global h;
         specific := Match.set priority lineNum (specific h) |}
    else h
  else
    if (Match.getPriority (global h) <? priority)%Z then
      {| global := Match.set priority lineNum (global h);
         specific := specific h |}
    else h.

(** [handleAllow] calls itself on the directory pattern; [fuel] bounds the
    depth of the calls, and [None] tells that it ran out. *)
Fixpoint handleAllowFuel (fuel : nat) (lineNum : nat) (value : list N)
    (m : RobotsMatcher) : option RobotsMatcher :=
  match fuel with
  | 0 => None
  | S fuel =>
      if negb (seenAnyAgent m) then Some m
      else
        let m := set_seenSeparator true m in
        let priority :=
          LongestMatchRobotsMatchStrategy.matchAllow (path m) value in
        if (0 <=? priority)%Z then
          Some (set_allow
                  (updateHierarchy (seenSpecificAgent m) priority lineNum
                     (allow m)) m)
        else
          match lastIndexOf (ch "/") value with
          | Some slashPos =>
              let afterSlash := slice_from value slashPos in
              if startsWith afterSlash (str "/index.htm") then
                let newPattern := slice value 0 (slashPos + 1) ++ str "$" in
                handleAllowFuel fuel lineNum newPattern m
              else Some m
          | None => Some m
          end
  end.

(** Two nested calls suffice (lemma [handleAllowFuel_enough]). *)
Definition handleAllow (lineNum : nat) (value : list N) (m : RobotsMatcher)
  : RobotsMatcher :=
  default m (handleAllowFuel 2 lineNum value m).

Definition handleDisallow (lineNum : nat) (value : list N)
    (m : RobotsMatcher) : RobotsMatcher :=
  if negb (seenAnyAgent m) then m
  else
    let m := set_seenSeparator true m in
    let priority :=
      LongestMatchRobotsMatchStrategy.matchDisallow (path m) value in
    if (0 <=? priority)%Z then
      set_disallowMatch
        (updateHierarchy (seenSpecificAgent m) priority lineNum
           (disallowMatch m)) m
    else m.

Definition handleSitemap (_lineNum : nat) (_value : list N)
    (m : RobotsMatcher) : RobotsMatcher := m.

Definition handleUnknownAction (_lineNum : nat) (_action _value : list N)
    (m : RobotsMatcher) : RobotsMatcher := m.

Definition reportLineMetadata (_lineNum : nat) (_metadata : LineMetadata)
    (m : RobotsMatcher) : RobotsMatcher := m.

#[global] Instance handler : RobotsParseHandler RobotsMatcher :=
  Build_RobotsParseHandler RobotsMatcher
    handleRobotsStart handleRobotsEnd handleUserAgent handleAllow
    handleDisallow handleSitemap handleUnknownAction reportLineMetadata.

(** [allowedByRobots]: the verdict and the instance after the call. *)
Definition allowedByRobots (robotsBody : list N)
    (userAgents : list (list N)) (url : list N) (m : RobotsMatcher)
  : Result (bool * RobotsMatcher) :=
  let path := UrlUtils.getPathParamsQuery url in
  match initUserAgentsAndPath userAgents path m with
  | Throw msg => Throw msg
  | Ok m =>
      let m := parseRobotsTxt robotsBody m in
      Ok (negb (disallow m), m)
  end.

Definition oneAgentAllowedByRobots (robotsTxt : list N)
    (userAgent : list N) (url : list N) (m : RobotsMatcher)
  : Result (bool * RobotsMatcher) :=
  allowedByRobots robotsTxt [userAgent] url m.

End WithCaseMapping.
End RobotsMatcher.

(** ** parsed-robots.ts *)

Record UrlCheckResult := {
  url : list N;
  allowed : bool;
  matchingLine : nat;
  matchedPattern : list N;
  matchedRuleType : string
}.

Record ParsedRule := {
  pattern : list N;
  lineNumber : nat;
  isAllow : bool
}.

#[global] Instance ParsedRule_eq_dec : EqDecision ParsedRule.
Proof. solve_decision. Defined.

(** An [AgentGroup]; the [Set] of agent names is the list of its elements
    in insertion order. *)
Record AgentGroup := {
  agents : list (list N);
  rules : list ParsedRule;
  isGlobal : bool
}.

(** [set.add(x)]. *)
Definition setAdd (x : list N) (set : list (list N)) : list (list N) :=
  if bool_decide (x ∈ set) then set else set ++ [x].

(** The fields of a [RulesCollectorHandler].  A group pushed to
    [agentGroups] is no longer written: [currentGroup] is reset to [null]
    right after the push or the parse has ended. *)
Record RulesCollectorHandler := {
  globalRules : list ParsedRule;
  agentGroups : list AgentGroup;
  currentGroup : option AgentGroup;
  collectorSeenSeparator : bool
}.

Module RulesCollectorHandler.
Section WithCaseMapping.
Context `{CM : CaseMapping}.

(** [new RulesCollectorHandler()]. *)
Definition new : RulesCollectorHandler :=
  {| globalRules := []; agentGroups := []; currentGroup := None;
     collectorSeenSeparator := false |}.

Definition handleRobotsStart (h : RulesCollectorHandler)
  : RulesCollectorHandler :=
  {| globalRules := []; agentGroups := []; currentGroup := None;
     collectorSeenSeparator := false |}.

Definition finalizeCurrentGroup (h : RulesCollectorHandler)
  : RulesCollectorHandler :=
  match currentGroup h with
  | Some g =>
      if bool_decide (0 < length (rules g)) then
        {| globalRules := globalRules h;
           agentGroups := agentGroups h ++ [g];
           currentGroup := currentGroup h;
           collectorSeenSeparator := collectorSeenSeparator h |}
      else h
  | None => h
  end.

Definition handleRobotsEnd (h : RulesCollectorHandler)
  : RulesCollectorHandler := finalizeCurrentGroup h.

Definition handleUserAgent (_lineNum : nat) (userAgent : list N)
    (h : RulesCollectorHandler) : RulesCollectorHandler :=
  let h :=
    if collectorSeenSeparator h then
      let h := finalizeCurrentGroup h in
      {| globalRules := globalRules h; agentGroups := agentGroups h;
         currentGroup := None; collectorSeenSeparator := false |}
    else h in
  let g :=
    match currentGroup h with
    | Some g => g
    | None => {| agents := []; rules := []; isGlobal := false |}
    end in
  let g :=
    if isGlobalAgent userAgent then
      {| agents := agents g; rules := rules g; isGlobal := true |}
    else
      let extracted := extractUserAgent userAgent in
      if bool_decide (0 < length extracted) then
        {| agents := setAdd (toLowerCase extracted) (agents g);
           rules := rules g; isGlobal := isGlobal g |}
      else g in
  {| globalRules := globalRules h; agentGroups := agentGroups h;
     currentGroup := Some g;
     collectorSeenSeparator := collectorSeenSeparator h |}.

Definition addRule (lineNum : nat) (pattern : list N) (isAllow : bool)
    (h : RulesCollectorHandler) : RulesCollectorHandler :=
  match currentGroup h with
  | None => h
  | Some g =>
      let rule :=
        {| pattern := pattern; lineNumber := lineNum; isAllow := isAllow |} in
      {| globalRules :=
           if isGlobal g then globalRules h ++ [rule] else globalRules h;
         agentGroups := agentGroups h;
         currentGroup :=
           Some {| agents := agents g; rules := rules g ++ [rule];
                   isGlobal := isGlobal g |};
         collectorSeenSeparator := true |}
  end.

Definition handleAllow (lineNum : nat) (value : list N)
    (h : RulesCollectorHandler) : RulesCollectorHandler :=
  if bool_decide (length value = 0) then h
  else
    let h := addRule lineNum value true h in
    match lastIndexOf (ch "/") value with
    | Some slashPos =>
        let afterSlash := slice_from value slashPos in
        if startsWith afterSlash (str "/index.htm") then
          let newPattern := slice value 0 (slashPos + 1) ++ str "$" in
          addRule lineNum newPattern true h
        else h
    | None => h
    end.

Definition handleDisallow (lineNum : nat) (value : list N)
    (h : RulesCollectorHandler) : RulesCollectorHandler :=
  if bool_decide (length value = 0) then h
  else addRule lineNum value false h.

Definition handleSitemap (_lineNum : nat) (_value : list N)
    (h : RulesCollectorHandler) : RulesCollectorHandler := h.

Definition handleUnknownAction (_lineNum : nat) (_action _value : list N)
    (h : RulesCollectorHandler) : RulesCollectorHandler := h.

Definition reportLineMetadata (_lineNum : nat) (_metadata : LineMetadata)
    (h : RulesCollectorHandler) : RulesCollectorHandler := h.

#[global] Instance handler : RobotsParseHandler RulesCollectorHandler :=
  Build_RobotsParseHandler RulesCollectorHandler
    handleRobotsStart handleRobotsEnd handleUserAgent handleAllow
    handleDisallow handleSitemap handleUnknownAction reportLineMetadata.

End WithCaseMapping.
End RulesCollectorHandler.

(** The fields of a [ParsedRobots]. *)
Record ParsedRobots := {
  parsedGlobalRules : list ParsedRule;
  agentRulesMap : gmap (list N) (list ParsedRule);
  explicitAgents : gset (list N)
}.

Module ParsedRobots.
Section WithCaseMapping.
Context `{CM : CaseMapping}.

(** The inner loop of [parse]: [for (const agent of group.agents)]. *)
Definition addGroupAgents (group : AgentGroup)
    (acc : gmap (list N) (list ParsedRule) * gset (list N))
  : gmap (list N) (list ParsedRule) * gset (list N) :=
  foldl (λ acc agent,
           let existing := default [] (acc.1 !! agent) in
           (<[agent := existing ++ rules group]> acc.1, {[agent]} ∪ acc.2))
        acc (agents group).

Definition parse (robotsBody : list N) : ParsedRobots :=
  let handler := parseRobotsTxt robotsBody RulesCollectorHandler.new in
  let '(agentRulesMap, explicitAgents) :=
    foldl (λ acc group, addGroupAgents group acc) (∅, ∅)
          (agentGroups handler) in
  {| parsedGlobalRules := globalRules handler;
     agentRulesMap := agentRulesMap;
     explicitAgents := explicitAgents |}.

(** The loop of [checkSingleUrl] over the rules: the best Allow and
    Disallow candidates (priority, line, pattern). *)
Record Best := {
  bestPriority : Z;
  bestLine : nat;
  bestPattern : list N
}.

Definition noBest : Best :=
  {| bestPriority := K_NO_MATCH_PRIORITY; bestLine := 0; bestPattern := [] |}.

Definition checkRule (path : list N) (acc : Best * Best) (rule : ParsedRule)
  : Best * Best :=
  if matches path (pattern rule) then
    let priority := Z.of_nat (length (pattern rule)) in
    if isAllow rule then
      if (bestPriority acc.1 <? priority)%Z then
        ({| bestPriority := priority; bestLine := lineNumber rule;
            bestPattern := pattern rule |}, acc.2)
      else acc
    else
      if (bestPriority acc.2 <? priority)%Z then
        (acc.1, {| bestPriority := priority; bestLine := lineNumber rule;
                   bestPattern := pattern rule |})
      else acc
  else acc.

Definition bestCandidates (path : list N) (rules : list ParsedRule)
  : Best * Best :=
  foldl (checkRule path) (noBest, noBest) rules.

Definition checkSingleUrl (url : list N) (rules : list ParsedRule)
  : UrlCheckResult :=
  let path := UrlUtils.getPathParamsQuery url in
  let '(bestAllow, bestDisallow) := bestCandidates path rules in
  let allowed := (bestPriority bestDisallow <=? bestPriority bestAllow)%Z in
  if (bestPriority bestDisallow <? bestPriority bestAllow)%Z then
    {| url := url; allowed := allowed; matchingLine := bestLine bestAllow;
       matchedPattern := bestPattern bestAllow; matchedRuleType := "allow" |}
  else if (bestPriority bestAllow <? bestPriority bestDisallow)%Z then
    {| url := url; allowed := allowed; matchingLine := bestLine bestDisallow;
       matchedPattern := bestPattern bestDisallow;
       matchedRuleType := "disallow" |}
  else if (0 <=? bestPriority bestAllow)%Z then
    {| url := url; allowed := allowed; matchingLine := bestLine bestAllow;
       matchedPattern := bestPattern bestAllow; matchedRuleType := "allow" |}
  else
    {| url := url; allowed := allowed; matchingLine := 0;
       matchedPattern := []; matchedRuleType := "none" |}.

(** The rules [checkUrls] selects for an agent. *)
Definition rulesFor (userAgent : list N) (p : ParsedRobots)
  : list ParsedRule :=
  let lowerAgent := toLowerCase (extractUserAgent userAgent) in
  match agentRulesMap p !! lowerAgent with
  | Some rules => rules
  | None => parsedGlobalRules p
  end.

Definition checkUrls (userAgent : list N) (urls : list (list N))
    (p : ParsedRobots) : list UrlCheckResult :=
  let rules := rulesFor userAgent p in
  (λ url, checkSingleUrl url rules) <$> urls.

(** [checkUrl]: the element 0 of the array [checkUrls] returns. *)
Definition checkUrl (userAgent : list N) (url : list N) (p : ParsedRobots)
  : option UrlCheckResult :=
  checkUrls userAgent [url] p !! 0.

Definition hasSpecificAgent (userAgent : list N) (p : ParsedRobots) : bool :=
  bool_decide (toLowerCase (extractUserAgent userAgent) ∈ explicitAgents p).

End WithCaseMapping.
End ParsedRobots.

(** [RobotsMatcher.parse] and [RobotsMatcher.batchCheck]. *)
Definition RobotsMatcher_parse `{CM : CaseMapping} (robotsBody : list N)
  : ParsedRobots := ParsedRobots.parse robotsBody.

Definition RobotsMatcher_batchCheck `{CM : CaseMapping}
    (robotsBody userAgent : list N) (urls : list (list N))
  : list UrlCheckResult :=
  ParsedRobots.checkUrls userAgent urls (ParsedRobots.parse robotsBody).

(** ** Sequential reuse of one [RobotsMatcher] *)

(** A query: robots body, agent list and URL. *)
Record Query := {
  queryBody : list N;
  queryAgents : list (list N);
  queryUrl : list N
}.

(** The instance after it served the queries [earlier] one after the
    other; a query that throws leaves the instance as it was. *)
Fixpoint afterQueries `{CM : CaseMapping} (earlier : list Query)
    (m : RobotsMatcher) : RobotsMatcher :=
  match earlier with
  | [] => m
  | q :: rest =>
      match RobotsMatcher.allowedByRobots (queryBody q) (queryAgents q)
              (queryUrl q) m with
      | Ok r => afterQueries rest r.2
      | Throw _ => afterQueries rest m
      end
  end.

(** ** The index.htm rule of [handleAllow], named for the statements *)

(** The directory pattern of an Allow value whose last [/] is at
    [slashPos]: the prefix up to and including that [/], then [$]. *)
Definition directoryPattern (value : list N) (slashPos : nat) : list N :=
  slice value 0 (slashPos + 1) ++ str "$".

(** The test both [handleAllow]s make: the text from the last [/] on
    starts with [/index.htm]; the result is the directory pattern. *)
Definition indexDirectory (value : list N) : option (list N) :=
  match lastIndexOf (ch "/") value with
  | Some slashPos =>
      if startsWith (slice_from value slashPos) (str "/index.htm")
      then Some (directoryPattern value slashPos) else None
  | None => None
  end.

(** One registration of an Allow pattern in the live resolver: the body of
    [RobotsMatcher.handleAllow] without the call on the directory
    pattern. *)
Definition registerAllow (lineNum : nat) (pattern : list N)
    (m : RobotsMatcher) : RobotsMatcher :=
  if negb (RobotsMatcher.seenAnyAgent m) then m
  else
    let m := RobotsMatcher.set_seenSeparator true m in
    let priority :=
      LongestMatchRobotsMatchStrategy.matchAllow (path m) pattern in
    if (0 <=? priority)%Z then
      RobotsMatcher.set_allow
        (RobotsMatcher.updateHierarchy (seenSpecificAgent m) priority
           lineNum (allow m)) m
    else m.

(** The wording of the specification: the value ends in [/index.htm] or
    [/index.html]. *)
Definition endsWith (s p : list N) : bool :=
  startsWith (reverse s) (reverse p).

Definition endsInIndexHtm (value : list N) : bool :=
  endsWith value (str "/index.htm") || endsWith value (str "/index.html").

(** ** The two entry points compared by the specification *)

Definition resultValue {A : Type} (r : Result A) : option A :=
  match r with
  | Ok a => Some a
  | Throw _ => None
  end.

(** [new RobotsMatcher().oneAgentAllowedByRobots(body, agent, url)]. *)
Definition liveAllowed `{CM : CaseMapping} (body agent url : list N)
  : option bool :=
  fst <$> resultValue
    (RobotsMatcher.oneAgentAllowedByRobots body agent url RobotsMatcher.new).

(** [ParsedRobots.parse(body).checkUrl(agent, url).allowed]. *)
Definition bulkAllowed `{CM : CaseMapping} (body agent url : list N)
  : option bool :=
  allowed <$> ParsedRobots.checkUrl agent url (ParsedRobots.parse body).

(** A robots.txt text given by its lines, each ended by a line feed. *)
Definition robotsLines (ls : list string) : list N :=
  l ← ls; str l ++ [10%N].

(** ** The candidates that decide a verdict, named for the statements *)

(** The priorities (Allow, Disallow) of the scope that decides: the
    specific scope if one of its candidates has a positive priority, else
    the global scope. *)
Definition decidingPriorities (scopes : (Z * Z) * (Z * Z)) : Z * Z :=
  if (0 <? scopes.1.1)%Z || (0 <? scopes.1.2)%Z then scopes.1 else scopes.2.

(** The candidates of a live resolver: (specific, global), each (Allow,
    Disallow). *)
Definition matcherPriorities (m : RobotsMatcher) : (Z * Z) * (Z * Z) :=
  ((priority (specific (allow m)), priority (specific (disallowMatch m))),
   (priority (global (allow m)), priority (global (disallowMatch m)))).

(** The candidates of the bulk index for a query: the best matches among
    the rules recorded for the agent (none if it has no rules) and among
    the global rules. *)
Definition bulkPriorities `{CM : CaseMapping} (p : ParsedRobots)
    (userAgent url : list N) : (Z * Z) * (Z * Z) :=
  let path := UrlUtils.getPathParamsQuery url in
  let lowerAgent := toLowerCase (extractUserAgent userAgent) in
  let s := ParsedRobots.bestCandidates path
             (default [] (agentRulesMap p !! lowerAgent)) in
  let g := ParsedRobots.bestCandidates path (parsedGlobalRules p) in
  ((ParsedRobots.bestPriority s.1, ParsedRobots.bestPriority s.2),
   (ParsedRobots.bestPriority g.1, ParsedRobots.bestPriority g.2)).

(** ** The events of one line and of the logical lines of a text *)

(** The event [emitKeyValueToHandler] sends to the recording handler. *)
Definition directiveEvent (lineNum : nat) (keyType : KeyType)
    (value : list N) (unknownText : option (list N)) : ParseEvent :=
  match keyType with
  | USER_AGENT => UserAgent lineNum value
  | ALLOW => Allow lineNum value
  | DISALLOW => Disallow lineNum value
  | SITEMAP => Sitemap lineNum value
  | UNKNOWN => UnknownAction lineNum (default [] unknownText) value
  end.

(** The events of [parseAndEmitLine(lineNum, line, lineTooLong)]. *)
Definition lineEvents `{CM : CaseMapping} (lineNum : nat) (line : list N)
    (lineTooLong : bool) : list ParseEvent :=
  RobotsTxtParser.parseAndEmitLine lineNum line lineTooLong [].

(** The number of code units of a line the parser keeps. *)
Definition maxLineContent : nat := N.to_nat (K_MAX_LINE_LEN - 1).

(** The text without the prefix of the byte-order mark it starts with:
    what remains once the parser has skipped the (possibly partial) BOM. *)
Fixpoint stripPrefixOf (mark text : list N) : list N :=
  match mark, text with
  | b :: mark', c :: text' =>
      if (c =? b)%N then stripPrefixOf mark' text' else text
  | _, _ => text
  end.

Definition stripBOM (text : list N) : list N := stripPrefixOf UTF8_BOM text.

(** [c] put in front of the first line. *)
Definition consHead (c : N) (ls : list (list N)) : list (list N) :=
  match ls with
  | l :: ls' => (c :: l) :: ls'
  | [] => [[c]]
  end.

(** The logical lines of a text, as the specification describes them: a
    line feed or a carriage return ends a line, a line feed right after a
    carriage return does not count, and what follows the last terminator
    is the last line (empty when the text ends with a terminator).
    [afterCR] tells that the previous code unit was a carriage return. *)
Fixpoint logicalLinesFrom (afterCR : bool) (text : list N)
  : list (list N) :=
  match text with
  | [] => [[]]
  | c :: rest =>
      if (c =? 10)%N then
        if afterCR then logicalLinesFrom false rest
        else [] :: logicalLinesFrom false rest
      else if (c =? 13)%N then [] :: logicalLinesFrom true rest
      else consHead c (logicalLinesFrom false rest)
  end.

Definition logicalLines (text : list N) : list (list N) :=
  logicalLinesFrom false text.

(** The events of the lines [ls], numbered from [n + 1], each cut to
    [maxLineContent] code units and flagged when it was longer. *)
Fixpoint truncatedLineEvents `{CM : CaseMapping} (n : nat)
    (ls : list (list N)) : list ParseEvent :=
  match ls with
  | [] => []
  | l :: ls' =>
      lineEvents (n + 1) (take maxLineContent l)
        (bool_decide (maxLineContent < length l))
      ++ truncatedLineEvents (n + 1) ls'
  end.

(** ** Invariants and auxiliary notions of the proofs *)

(** Strictly increasing lists of offsets. *)
Fixpoint increasing (F : list nat) : Prop :=
  match F with
  | [] => True
  | a :: F' => Forall (λ b, a < b) F' ∧ increasing F'
  end.

(** The offsets of [B] advanced over the pattern character [pat]. *)
Definition advance (path : list N) (pat : N) (B : list nat) : list nat :=
  (λ v, v + 1) <$> filter (λ o, path !! o = Some pat) B.

(** The array invariant of the main loop: the first [numPos] slots hold the
    frontier [F], strictly increasing and bounded by [pathLen]. *)
Definition posInv (path : list N) (pos : list (option nat)) (numPos : nat)
    (F : list nat) : Prop :=
  ∃ R, pos = (Some <$> F) ++ R ∧ length pos = S (length path)
       ∧ numPos = length F ∧ F ≠ []
       ∧ increasing F ∧ Forall (λ b, b ≤ length path) F.

Definition nonEmptyRules (rs : list ParsedRule) : Prop :=
  Forall (λ r, pattern r ≠ []) rs.

(** Every rule the collector holds has a non-empty pattern. *)
Definition collectorInv (h : RulesCollectorHandler) : Prop :=
  nonEmptyRules (globalRules h)
  ∧ Forall (λ g, nonEmptyRules (rules g)) (agentGroups h)
  ∧ ∀ g, currentGroup h = Some g → nonEmptyRules (rules g).

(** What [parse] does after the loop. *)
Definition finishParse `{CM : CaseMapping} {H : Type}
    `{RPH : RobotsParseHandler H} (r : RobotsTxtParser.ParseState * H) : H :=
  handleRobotsEnd
    (RobotsTxtParser.parseAndEmitLine (RobotsTxtParser.lineNum r.1 + 1)
       (RobotsTxtParser.lineBuffer r.1) (RobotsTxtParser.lineTooLong r.1)
       r.2).

(** The state of the loop once the byte-order mark is out of the way. *)
Definition bomDone (st : RobotsTxtParser.ParseState)
  : RobotsTxtParser.ParseState :=
  {| RobotsTxtParser.lineBuffer := RobotsTxtParser.lineBuffer st;
     RobotsTxtParser.lineNum := RobotsTxtParser.lineNum st;
     RobotsTxtParser.bomPos := length UTF8_BOM;
     RobotsTxtParser.lastWasCarriageReturn :=
       RobotsTxtParser.lastWasCarriageReturn st;
     RobotsTxtParser.lineTooLong := RobotsTxtParser.lineTooLong st |}.

(** The calls of [parseAndEmitLine] for the lines [ls], numbered from
    [n + 1]. *)
Fixpoint emitLines `{CM : CaseMapping} {H : Type}
    `{RPH : RobotsParseHandler H} (n : nat) (ls : list (list N)) (h : H) : H :=
  match ls with
  | [] => h
  | l :: ls' =>
      emitLines (n + 1) ls'
        (RobotsTxtParser.parseAndEmitLine (n + 1) (take maxLineContent l)
           (bool_decide (maxLineContent < length l)) h)
  end.

(** The lines of a text when [cur] was read before it on the current
    line. *)
Definition prependLine (cur : list N) (ls : list (list N))
  : list (list N) :=
  match ls with
  | l :: ls' => (cur ++ l) :: ls'
  | [] => [cur]
  end.

(** The state of the loop on line [n + 1] after the code units [cur] of
    that line. *)
Definition lineState (n : nat) (cur : list N) (lastCR : bool)
  : RobotsTxtParser.ParseState :=
  {| RobotsTxtParser.lineBuffer := take maxLineContent cur;
     RobotsTxtParser.lineNum := n;
     RobotsTxtParser.bomPos := length UTF8_BOM;
     RobotsTxtParser.lastWasCarriageReturn := lastCR;
     RobotsTxtParser.lineTooLong :=
       bool_decide (maxLineContent < length cur) |}.

(** ** The language of a pattern, as the comment of [matches] gives it

    The pattern is anchored at the beginning of the path; [*] stands for
    any sequence of characters, a [$] at the end of the pattern for the end
    of the path, every other character (a [$] elsewhere included) for
    itself.  [patternMatches pattern s] : the pattern matches [s]. *)
Inductive patternMatches : list N → list N → Prop :=
| patternMatches_nil s : patternMatches [] s
| patternMatches_end : patternMatches [ch "$"] []
| patternMatches_star pattern s k :
    patternMatches pattern (drop k s) →
    patternMatches (ch "*" :: pattern) s
| patternMatches_char c pattern s :
    c ≠ ch "*" → ¬ (c = ch "$" ∧ pattern = []) →
    patternMatches pattern s →
    patternMatches (c :: pattern) (c :: s).

(** ** Auxiliary notions of the proofs about [maybeEscapePattern] *)

(** Is there an escape sequence at the head of [c :: rest]?  The test of
    branch (a) of both loops. *)
Definition sequenceAhead (c : N) (rest : list N) : bool :=
  match rest with
  | h1 :: h2 :: _ => UrlUtils.isEscapeSequence c h1 h2
  | _ => false
  end.

(** Strings made of upper-case escape sequences [%XY]. *)
Inductive escapeSequences : list N → Prop :=
| escapeSequences_nil : escapeSequences []
| escapeSequences_cons X Y t :
    UrlUtils.isHexDigit X = true → UrlUtils.isHexDigit Y = true →
    asciiToUpper X = X → asciiToUpper Y = Y →
    (X < 128)%N → (Y < 128)%N →
    escapeSequences t → escapeSequences (ch "%" :: X :: Y :: t).

(** ** The positions [getPathParamsQuery] computes, as natural numbers *)

Definition searchStartOf (url : list N) : nat :=
  if bool_decide (2 ≤ length url)
     && bool_decide (url !! 0 = Some (ch "/"))
     && bool_decide (url !! 1 = Some (ch "/"))
  then 2 else 0.

(** [protocolEnd] after its adjustments: where the search for the path
    starts. *)
Definition protocolEndOf (url : list N) : nat :=
  let searchStart := searchStartOf url in
  match indexOfStr (str "://") (drop searchStart url) with
  | Some j =>
      match UrlUtils.findPathChar (drop searchStart url) with
      | Some i => if i <? j then searchStart else searchStart + j + 3
      | None => searchStart + j + 3
      end
  | None => searchStart
  end.

Definition pathStartOf (url : list N) : option nat :=
  (λ i, protocolEndOf url + i)
    <$> UrlUtils.findPathChar (drop (protocolEndOf url) url).

Definition hashPosOf (url : list N) : option nat :=
  (λ i, searchStartOf url + i)
    <$> indexOfStr [ch "#"] (drop (searchStartOf url) url).

(** The part of the URL from [pathStart] to [pathEnd], with a [/] in
    front unless it starts with one. *)
Definition pathBetween (url : list N) (pathStart pathEnd : nat) : list N :=
  if bool_decide (url !! pathStart = Some (ch "/"))
  then slice url pathStart pathEnd
  else str "/" ++ slice url pathStart pathEnd.

(** ** The callbacks of a parse as a list of events, replayed *)

(** The callback of a handler that an event stands for. *)
Definition deliver {H : Type} `{RPH : RobotsParseHandler H}
    (e : ParseEvent) (h : H) : H :=
  match e with
  | RobotsStart => handleRobotsStart h
  | RobotsEnd => handleRobotsEnd h
  | UserAgent n v => handleUserAgent n v h
  | Allow n v => handleAllow n v h
  | Disallow n v => handleDisallow n v h
  | Sitemap n v => handleSitemap n v h
  | UnknownAction n a v => handleUnknownAction n a v h
  | ReportLineMetadata n md => reportLineMetadata n md h
  end.

(** The events delivered to a handler one after the other. *)
Definition replay {H : Type} `{RPH : RobotsParseHandler H}
    (events : list ParseEvent) (h : H) : H :=
  foldl (λ h e, deliver e h) h events.

(** The events that carry a directive, and the line number of an event. *)
Definition isDirectiveEvent (e : ParseEvent) : bool :=
  match e with
  | UserAgent _ _ | Allow _ _ | Disallow _ _ | Sitemap _ _
  | UnknownAction _ _ _ => true
  | _ => false
  end.

Definition eventLine (e : ParseEvent) : option nat :=
  match e with
  | RobotsStart | RobotsEnd => None
  | UserAgent n _ | Allow n _ | Disallow n _ | Sitemap n _
  | UnknownAction n _ _ | ReportLineMetadata n _ => Some n
  end.

(** The callbacks of one line: the metadata alone, flagged as holding no
    directive, or one directive and then the metadata flagged as holding
    one; all carry the line number [n]. *)
Definition lineCallbacks (n : nat) (g : list ParseEvent) : Prop :=
  (∃ md, g = [ReportLineMetadata n md] ∧ hasDirective md = false)
  ∨ (∃ e md, g = [e; ReportLineMetadata n md]
             ∧ isDirectiveEvent e = true ∧ eventLine e = Some n
             ∧ hasDirective md = true).

(** The text with every line terminator ([\r\n], [\r] or [\n]) written as
    one line feed. *)
Fixpoint unixNewlines (text : list N) : list N :=
  match text with
  | [] => []
  | c :: rest =>
      if (c =? 13)%N then
        match rest with
        | c' :: rest' =>
            if (c' =? 10)%N then 10%N :: unixNewlines rest'
            else 10%N :: unixNewlines rest
        | [] => [10%N]
        end
      else c :: unixNewlines rest
  end.



(** ** The best candidate of [checkSingleUrl], for the proofs *)

(** The rule a candidate was taken from. *)
Definition bestOfRule (r : ParsedRule) : ParsedRobots.Best :=
  {| ParsedRobots.bestPriority := Z.of_nat (length (pattern r));
     ParsedRobots.bestLine := lineNumber r;
     ParsedRobots.bestPattern := pattern r |}.

(** [b] is the best candidate among the rules of kind [kind] (Allow or
    Disallow) that match [path]: no such rule is longer, and [b] is the
    sentinel or was taken from such a rule. *)
Definition bestAmong (path : list N) (kind : bool) (rules : list ParsedRule)
    (b : ParsedRobots.Best) : Prop :=
  (∀ r, r ∈ rules → isAllow r = kind → matches path (pattern r) = true →
        (Z.of_nat (length (pattern r)) ≤ ParsedRobots.bestPriority b)%Z)
  ∧ (b = ParsedRobots.noBest
     ∨ ∃ r, r ∈ rules ∧ isAllow r = kind
            ∧ matches path (pattern r) = true ∧ b = bestOfRule r).

(** ** Where the candidates of a resolver come from, for the proofs *)

(** A Disallow candidate is the sentinel or was set by a Disallow event of
    [E] whose value matches the path [p]: it holds the length of the value
    and the line of the event. *)
Definition fromDisallow (p : list N) (E : list ParseEvent) (c : Match)
  : Prop :=
  priority c = (-1)%Z
  ∨ ∃ v, Disallow (line c) v ∈ E ∧ priority c = Z.of_nat (length v)
         ∧ matches p v = true.

(** The state of a resolver for the path [p] that has received the events
    [E]: a specific candidate is set only once a specific agent was seen,
    and the Disallow candidates stem from Disallow events. *)
Definition matcherInv (p : list N) (E : list ParseEvent) (m : RobotsMatcher)
  : Prop :=
  path m = p
  ∧ (seenSpecificAgent m = true → everSeenSpecificAgentFlag m = true)
  ∧ (everSeenSpecificAgentFlag m = false →
     priority (specific (allow m)) = (-1)%Z
     ∧ priority (specific (disallowMatch m)) = (-1)%Z)
  ∧ fromDisallow p E (global (disallowMatch m))
  ∧ fromDisallow p E (specific (disallowMatch m)).

(** The line an index rule stems from: a Disallow rule is the value of a
    Disallow event on its line, an Allow rule the value of an Allow event on
    its line or the directory pattern of such a value. *)
Definition ruleOrigin (E : list ParseEvent) (r : ParsedRule) : Prop :=
  pattern r ≠ []
  ∧ if isAllow r then
      ∃ v, Allow (lineNumber r) v ∈ E
           ∧ (pattern r = v ∨ indexDirectory v = Some (pattern r))
    else Disallow (lineNumber r) (pattern r) ∈ E.

(** Every rule the collector holds stems from an event of [E]. *)
Definition collectorOrigin (E : list ParseEvent) (h : RulesCollectorHandler)
  : Prop :=
  Forall (ruleOrigin E) (globalRules h)
  ∧ Forall (λ g, Forall (ruleOrigin E) (rules g)) (agentGroups h)
  ∧ ∀ g, currentGroup h = Some g → Forall (ruleOrigin E) (rules g).

(** ** constants.ts and types.ts: the names of the reporter *)

Definition K_UNSUPPORTED_TAGS : list (list N) :=
  str <$> ["clean-param"; "crawl-delay"; "host"; "noarchive"; "noindex";
           "nofollow"]%string.

(** The enum [RobotsTagName]. *)
Module RobotsTagName.
Inductive t := Unknown | UserAgent | Allow | Disallow | Sitemap | Unused.
End RobotsTagName.

Record RobotsParsedLine := {
  lineNum : nat;
  tagName : RobotsTagName.t;
  isTypo : bool;
  metadata : LineMetadata
}.

Definition createRobotsParsedLine : RobotsParsedLine :=
  {| lineNum := 0; tagName := RobotsTagName.Unknown; isTypo := false;
     metadata := createLineMetadata |}.

(** ** reporter.ts *)

(** The fields of a [RobotsParsingReporter]; the [Map] from line numbers
    to parsed lines is a finite map. *)
Record RobotsParsingReporter := {
  robotsParseResults : gmap nat RobotsParsedLine;
  lastLineSeenValue : nat;
  validDirectivesValue : nat;
  unusedDirectivesValue : nat
}.

Module RobotsParsingReporter.
Section WithCaseMapping.
Context `{CM : CaseMapping}.

(** [new RobotsParsingReporter()]. *)
Definition new : RobotsParsingReporter :=
  {| robotsParseResults := ∅; lastLineSeenValue := 0;
     validDirectivesValue := 0; unusedDirectivesValue := 0 |}.

Definition lastLineSeen (r : RobotsParsingReporter) : nat :=
  lastLineSeenValue r.

Definition validDirectives (r : RobotsParsingReporter) : nat :=
  validDirectivesValue r.

Definition unusedDirectives (r : RobotsParsingReporter) : nat :=
  unusedDirectivesValue r.

(** [parseResults()]: the lines of the map in the order of their keys,
    sorted by [(a, b) => a - b]. *)
Definition parseResults (r : RobotsParsingReporter)
  : list RobotsParsedLine :=
  let sortedKeys := merge_sort Nat.le (elements (dom (robotsParseResults r))) in
  omap (λ key, robotsParseResults r !! key) sortedKeys.

(** The line of the map for [lineNum], created when there is none. *)
Definition lineFor (lineNum : nat) (r : RobotsParsingReporter)
  : RobotsParsedLine :=
  default createRobotsParsedLine (robotsParseResults r !! lineNum).

Definition digest (lineNum : nat) (parsedTag : RobotsTagName.t)
    (r : RobotsParsingReporter) : RobotsParsingReporter :=
  let lastLineSeenValue :=
    if bool_decide (lastLineSeenValue r < lineNum) then lineNum
    else lastLineSeenValue r in
  let validDirectivesValue :=
    match parsedTag with
    | RobotsTagName.Unknown | RobotsTagName.Unused => validDirectivesValue r
    | _ => validDirectivesValue r + 1
    end in
  let line := lineFor lineNum r in
  let line := {| lineNum := lineNum; tagName := parsedTag;
                 isTypo := isTypo line; metadata := metadata line |} in
  {| robotsParseResults := <[lineNum := line]> (robotsParseResults r);
     lastLineSeenValue := lastLineSeenValue;
     validDirectivesValue := validDirectivesValue;
     unusedDirectivesValue := unusedDirectivesValue r |}.

Definition handleRobotsStart (r : RobotsParsingReporter)
  : RobotsParsingReporter :=
  {| robotsParseResults := ∅; lastLineSeenValue := 0;
     validDirectivesValue := 0; unusedDirectivesValue := 0 |}.

Definition handleRobotsEnd (r : RobotsParsingReporter)
  : RobotsParsingReporter := r.

Definition handleUserAgent (lineNum : nat) (_lineValue : list N)
    (r : RobotsParsingReporter) : RobotsParsingReporter :=
  digest lineNum RobotsTagName.UserAgent r.

Definition handleAllow (lineNum : nat) (_lineValue : list N)
    (r : RobotsParsingReporter) : RobotsParsingReporter :=
  digest lineNum RobotsTagName.Allow r.

Definition handleDisallow (lineNum : nat) (_lineValue : list N)
    (r : RobotsParsingReporter) : RobotsParsingReporter :=
  digest lineNum RobotsTagName.Disallow r.

Definition handleSitemap (lineNum : nat) (_lineValue : list N)
    (r : RobotsParsingReporter) : RobotsParsingReporter :=
  digest lineNum RobotsTagName.Sitemap r.

Definition handleUnknownAction (lineNum : nat) (action _lineValue : list N)
    (r : RobotsParsingReporter) : RobotsParsingReporter :=
  let lowerAction := toLowerCase action in
  let isUnsupported :=
    existsb (λ tag, bool_decide (tag = lowerAction)) K_UNSUPPORTED_TAGS in
  let tagName :=
    if isUnsupported then RobotsTagName.Unused else RobotsTagName.Unknown in
  let r :=
    {| robotsParseResults := robotsParseResults r;
       lastLineSeenValue := lastLineSeenValue r;
       validDirectivesValue := validDirectivesValue r;
       unusedDirectivesValue := unusedDirectivesValue r + 1 |} in
  digest lineNum tagName r.

Definition reportLineMetadata (lineNum : nat) (md : LineMetadata)
    (r : RobotsParsingReporter) : RobotsParsingReporter :=
  let lastLineSeenValue :=
    if bool_decide (lastLineSeenValue r < lineNum) then lineNum
    else lastLineSeenValue r in
  let line := lineFor lineNum r in
  let line := {| lineNum := lineNum; tagName := tagName line;
                 isTypo := isAcceptableTypo md; metadata := md |} in
  {| robotsParseResults := <[lineNum := line]> (robotsParseResults r);
     lastLineSeenValue := lastLineSeenValue;
     validDirectivesValue := validDirectivesValue r;
     unusedDirectivesValue := unusedDirectivesValue r |}.

#[global] Instance handler : RobotsParseHandler RobotsParsingReporter :=
  Build_RobotsParseHandler RobotsParsingReporter
    handleRobotsStart handleRobotsEnd handleUserAgent handleAllow
    handleDisallow handleSitemap handleUnknownAction reportLineMetadata.

End WithCaseMapping.
End RobotsParsingReporter.

(** ** The lines of a report, named for the statements *)

(** The tag the reporter records for a directive event. *)
Definition tagOfEvent `{CM : CaseMapping} (e : ParseEvent)
  : RobotsTagName.t :=
  match e with
  | UserAgent _ _ => RobotsTagName.UserAgent
  | Allow _ _ => RobotsTagName.Allow
  | Disallow _ _ => RobotsTagName.Disallow
  | Sitemap _ _ => RobotsTagName.Sitemap
  | UnknownAction _ action _ =>
      if bool_decide (toLowerCase action ∈ K_UNSUPPORTED_TAGS)
      then RobotsTagName.Unused else RobotsTagName.Unknown
  | _ => RobotsTagName.Unknown
  end.

(** The events the reporter counts as valid directives. *)
Definition isValidDirectiveEvent (e : ParseEvent) : bool :=
  match e with
  | UserAgent _ _ | Allow _ _ | Disallow _ _ | Sitemap _ _ => true
  | _ => false
  end.

Definition isUnknownActionEvent (e : ParseEvent) : bool :=
  match e with
  | UnknownAction _ _ _ => true
  | _ => false
  end.

(** The parsed line that results from the callbacks [g] of line [n]. *)
Definition parsedLineOf `{CM : CaseMapping} (n : nat)
    (g : list ParseEvent) : RobotsParsedLine :=
  match g with
  | [e] =>
      match e with
      | ReportLineMetadata _ md =>
          {| lineNum := n; tagName := RobotsTagName.Unknown;
             isTypo := isAcceptableTypo md; metadata := md |}
      | _ => createRobotsParsedLine
      end
  | [e; e'] =>
      match e' with
      | ReportLineMetadata _ md =>
          {| lineNum := n; tagName := tagOfEvent e;
             isTypo := isAcceptableTypo md; metadata := md |}
      | _ => createRobotsParsedLine
      end
  | _ => createRobotsParsedLine
  end.

(** The reporter after the callbacks of the lines [groups]. *)
Definition reporterInv `{CM : CaseMapping} (groups : list (list ParseEvent))
    (r : RobotsParsingReporter) : Prop :=
  lastLineSeenValue r = length groups
  ∧ (∀ i, robotsParseResults r !! S i
          = parsedLineOf (S i) <$> groups !! i)
  ∧ robotsParseResults r !! 0 = None
  ∧ validDirectivesValue r
    = length (filter (λ e, isValidDirectiveEvent e = true) (concat groups))
  ∧ unusedDirectivesValue r
    = length (filter (λ e, isUnknownActionEvent e = true) (concat groups)).

(** ** The case mapping on ASCII strings, and the table of keys *)

(** What every engine guarantees of [toLowerCase]: on a string of code
    units below 128 it maps [A-Z] to [a-z] and nothing else. *)
Definition asciiLawful (CM : CaseMapping) : Prop :=
  ∀ s, Forall (λ c, (c < 128)%N) s → toLowerCase s = asciiToLower <$> s.

(** The prefixes [ParsedRobotsKey] tests a key for. *)
Definition keyPrefixes : list string :=
  ["user-agent"; "useragent"; "user agent"; "allow"; "disallow";
   "dissallow"; "dissalow"; "disalow"; "diasllow"; "disallaw"; "sitemap";
   "site-map"]%string.



(** ** The two resolvers side by side, for the proofs *)

(** The live resolver [m] and the collector [h] after the same events, for
    the path [p] and an agent that no event names: the live resolver has
    seen no specific agent, its global flag is the one of the collector's
    current group, and its global candidates are the best matches among
    the collector's global rules; no group of the collector is filed
    under [key]. *)
Definition agreeInv (p : list N) (agent key : list N) (m : RobotsMatcher)
    (h : RulesCollectorHandler) : Prop :=
  path m = p ∧ userAgents m = [agent]
  ∧ seenSpecificAgent m = false ∧ everSeenSpecificAgentFlag m = false
  ∧ priority (specific (allow m)) = (-1)%Z
  ∧ priority (specific (disallowMatch m)) = (-1)%Z
  ∧ seenGlobalAgent m
    = match currentGroup h with
      | Some g => isGlobal g
      | None => false
      end
  ∧ (seenGlobalAgent m = true → seenSeparator m = collectorSeenSeparator h)
  ∧ (seenGlobalAgent m = false → seenSeparator m = false)
  ∧ priority (global (allow m))
    = ParsedRobots.bestPriority
        (ParsedRobots.bestCandidates p (globalRules h)).1
  ∧ priority (global (disallowMatch m))
    = ParsedRobots.bestPriority
        (ParsedRobots.bestCandidates p (globalRules h)).2
  ∧ Forall (λ g, key ∉ agents g) (agentGroups h)
  ∧ ∀ g, currentGroup h = Some g → key ∉ agents g.

(** The events that keep the two resolvers together: an Allow or
    Disallow value is not empty, and a user-agent line does not name the
    agent. *)
Definition agreeEvent `{CM : CaseMapping} (agent key : list N)
    (e : ParseEvent) : Prop :=
  match e with
  | Allow _ v | Disallow _ v => v ≠ []
  | UserAgent _ v =>
      isGlobalAgent v = false →
      toLowerCase (extractUserAgent v) ≠ toLowerCase agent
      ∧ toLowerCase (extractUserAgent v) ≠ key
  | _ => True
  end.

(** ** The rules of the groups that name an agent, for the statements *)

(** The groups of a list that hold the (lower-case) name [key]. *)
Definition groupsNaming (key : list N) (groups : list AgentGroup)
  : list AgentGroup :=
  filter (λ g, key ∈ agents g) groups.

(** No name occurs twice in the agents of a group the collector holds. *)
Definition agentsNoDup (h : RulesCollectorHandler) : Prop :=
  Forall (λ g, NoDup (agents g)) (agentGroups h)
  ∧ ∀ g, currentGroup h = Some g → NoDup (agents g).

(** * Part II: properties *)

(** ** The model on cases of the test suite and of the specification *)

Example matches_ex1 : matches (str "/a/b.pdf") (str "/a/*.pdf$") = true.
Proof. reflexivity. Qed.
Example matches_ex2 : matches (str "/a/b.pdfx") (str "/a/*.pdf$") = false.
Proof. reflexivity. Qed.
Example matches_ex3 : matches (str "/a$b") (str "/a$") = false.
Proof. reflexivity. Qed.
Example matches_ex4 : matches (str "/a$b") (str "/a$b") = true.
Proof. reflexivity. Qed.
Example matches_ex5 : matches (str "/x") (str "") = true.
Proof. reflexivity. Qed.

Example getPathParamsQuery_tests :
  (λ u, UrlUtils.getPathParamsQuery (str u))
    <$> [""; "http://www.example.com"; "http://www.example.com/a/";
         "http://www.example.com/a/b?c=http://d.e/";
         "http://www.example.com/a/b?c=d&e=f#fragment"; "example.com";
         "a"; "a/"; "/a"; "a/b"; "example.com?a"; "example.com/a;b#c";
         "//a/b/c"]
  = str <$> ["/"; "/"; "/a/"; "/a/b?c=http://d.e/"; "/a/b?c=d&e=f"; "/";
             "/"; "/"; "/a"; "/b"; "/?a"; "/a;b"; "/b/c"].
Proof. by vm_compute. Qed.

Example maybeEscapePattern_tests :
  UrlUtils.escaped (UrlUtils.maybeEscapePattern (str "/a/b/c")) = str "/a/b/c"
  ∧ UrlUtils.escaped (UrlUtils.maybeEscapePattern [225%N]) = str "%C3%A1"
  ∧ UrlUtils.escaped (UrlUtils.maybeEscapePattern (str "%aa")) = str "%AA".
Proof. by vm_compute. Qed.

Example scenarios_of_the_specification :
  let t1 := robotsLines ["User-agent: *"; "Disallow: /private/";
                         "Allow: /public/"] in
  let t3 := robotsLines ["User-agent: FooBot"; "Disallow: /x"; "Allow: /x/"] in
  liveAllowed (CM := asciiCaseMapping) t1 (str "Bot") (str "http://x/public/a")
  = Some true
  ∧ liveAllowed (CM := asciiCaseMapping) t1 (str "Bot")
      (str "http://x/private/a") = Some false
  ∧ liveAllowed (CM := asciiCaseMapping) t3 (str "FooBot") (str "http://x/x")
    = Some false
  ∧ liveAllowed (CM := asciiCaseMapping) t3 (str "FooBot") (str "http://x/x/")
    = Some true
  ∧ liveAllowed (CM := asciiCaseMapping) [] (str "FooBot") [] = Some true
  ∧ bulkAllowed (CM := asciiCaseMapping) t1 (str "Bot")
      (str "http://x/private/a") = Some false
  ∧ bulkAllowed (CM := asciiCaseMapping) t3 (str "FooBot") (str "http://x/x/")
    = Some true.
Proof. by vm_compute. Qed.

Example logicalLines_of_the_specification :
  logicalLines (str "a" ++ [13; 10]%N ++ str "b") = [str "a"; str "b"]
  ∧ logicalLines (str "a" ++ [10]%N) = [str "a"; []]
  ∧ logicalLines [10; 13]%N = [[]; []; []]
  ∧ logicalLines [] = [[]]
  ∧ stripBOM ([239; 187]%N ++ str "x") = str "x"
  ∧ stripBOM ([239; 17; 191]%N ++ str "x") = [17; 191]%N ++ str "x".
Proof. by vm_compute. Qed.

Example partial_BOM_is_skipped :
  parseEvents (CM := asciiCaseMapping) ([239; 187]%N ++ str "User-Agent: foo")
  = parseEvents (CM := asciiCaseMapping) (str "User-Agent: foo").
Proof. by vm_compute. Qed.

(** ** Refinement: [matches] computes the frontier semantics *)

Section MatchesRefinement.
Variable path : list N.

Lemma increasing_seq a n : increasing (seq a n).
Proof.
  revert a; induction n as [|n IH]; intros a; simpl; [done|].
  split; [|apply IH].
  apply Forall_forall. intros b Hb%elem_of_seq. lia.
Qed.

Lemma increasing_filter (P : nat → Prop) `{∀ x, Decision (P x)} F :
  increasing F → increasing (filter P F).
Proof.
  induction F as [|a F IH]; simpl; [done|]. intros [Ha HF].
  rewrite filter_cons. destruct (decide (P a)); [|by apply IH].
  simpl. split; [|by apply IH].
  apply Forall_forall. intros b [_ Hb]%list_elem_of_filter.
  by eapply Forall_forall in Ha.
Qed.

Lemma increasing_fmap_S F : increasing F → increasing (S <$> F).
Proof.
  induction F as [|a F IH]; simpl; [done|]. intros [Ha HF].
  split; [|by apply IH].
  apply Forall_fmap. eapply Forall_impl; [exact Ha|]. simpl. lia.
Qed.

Lemma frontierMin_head a F :
  increasing (a :: F) → frontierMin (a :: F) = a.
Proof.
  simpl. intros [Ha _]. induction Ha as [|b F Hb _ IH]; simpl; lia.
Qed.

Lemma increasing_last_elem F n :
  increasing F → Forall (λ b, b ≤ n) F → (n ∈ F ↔ last F = Some n).
Proof.
  induction F as [|a F IH]; simpl.
  { intros _ _. split; [by intros ?%elem_of_nil|done]. }
  intros [Ha HF] [Han Hn]%Forall_cons. destruct F as [|b F].
  { simpl. rewrite list_elem_of_singleton. split; congruence. }
  change (last (a :: b :: F)) with (last (b :: F)).
  rewrite <- (IH HF Hn), elem_of_cons.
  split; [|by right]. intros [->|]; [|done].
  apply Forall_cons in Ha as [? _]. apply Forall_cons in Hn as [? _]. lia.
Qed.

(** The wildcard loop extends a run [p0, p0+1, ..] by [n] slots. *)
Lemma fillStar_spec n : ∀ p0 i R,
  0 < i → n ≤ length R →
  fillStar n i ((Some <$> seq p0 i) ++ R)
  = Some ((Some <$> seq p0 (i + n)) ++ drop n R).
Proof.
  induction n as [|n IH]; intros p0 i R Hi Hn; simpl.
  { by rewrite Nat.add_0_r. }
  destruct R as [|r R]; [simpl in Hn; lia|]. simpl in Hn.
  assert (Hread : readPos ((Some <$> seq p0 i) ++ r :: R) (i - 1)
                  = Some (p0 + (i - 1))).
  { unfold readPos. rewrite lookup_app_l by (rewrite length_fmap, length_seq; lia).
    rewrite list_lookup_fmap, lookup_seq_lt by lia. done. }
  rewrite Hread. simpl.
  replace (<[i:=Some (p0 + (i - 1) + 1)]> ((Some <$> seq p0 i) ++ r :: R))
    with ((Some <$> seq p0 (S i)) ++ R).
  { rewrite IH by lia. by rewrite Nat.add_succ_r. }
  rewrite insert_app_r_alt by (rewrite length_fmap, length_seq; lia).
  rewrite length_fmap, length_seq, Nat.sub_diag.
  rewrite seq_S, fmap_app, <- app_assoc. simpl.
  replace (p0 + (i - 1) + 1) with (p0 + i) by lia. done.
Qed.

Lemma advance_frontierAdvance pat B :
  advance path pat B = frontierAdvance path pat B.
Proof. unfold advance, frontierAdvance. apply list_fmap_ext. intros; lia. Qed.

Lemma advance_cons pat b B :
  advance path pat (b :: B)
  = if decide (path !! b = Some pat) then (b + 1) :: advance path pat B
    else advance path pat B.
Proof. unfold advance. rewrite filter_cons. by destruct (decide _). Qed.

(** The literal loop compacts the advanced offsets to the front of the
    array; the slots between the write and the read position hold stale
    values [G]. *)
Lemma literalLoop_spec pat B : ∀ A G R,
  ∃ G', literalLoop path pat (length B) (length A + length G) (length A)
          ((Some <$> A) ++ G ++ (Some <$> B) ++ R)
        = Some ((Some <$> (A ++ advance path pat B)) ++ G' ++ R,
                length (A ++ advance path pat B))
      ∧ length (advance path pat B) + length G' = length G + length B.
Proof.
  induction B as [|b B IH]; intros A G R.
  { exists G. unfold advance. simpl. by rewrite app_nil_r, Nat.add_0_r. }
  rewrite fmap_cons, <- app_comm_cons. cbn [length literalLoop].
  assert (Hread : readPos ((Some <$> A) ++ G ++ Some b :: (Some <$> B) ++ R)
                    (length A + length G) = Some b).
  { unfold readPos. rewrite lookup_app_r by (rewrite length_fmap; lia).
    rewrite length_fmap. replace (length A + length G - length A) with (length G) by lia.
    rewrite lookup_app_r by lia. by rewrite Nat.sub_diag. }
  rewrite Hread. cbn [mbind option_bind]. rewrite advance_cons.
  assert (HlenG : length (tail (G ++ [Some b])) = length G).
  { destruct G; simpl; rewrite ?length_app; simpl; lia. }
  destruct (decide (path !! b = Some pat)) as [Hb|Hb].
  - assert (b < length path) by (by eapply lookup_lt_Some).
    rewrite !bool_decide_eq_true_2 by done. cbn [andb].
    destruct (IH (A ++ [b + 1]) (tail (G ++ [Some b])) R) as (G' & HG' & Hlen).
    exists G'. rewrite <- app_assoc in HG'. cbn [app] in HG'.
    rewrite length_app in HG'. cbn [length] in HG'.
    rewrite HlenG, Nat.add_1_r in HG'. cbn [plus] in HG'.
    split; [|cbn [length]; lia].
    rewrite <- HG'. f_equal.
    rewrite insert_app_r_alt by (rewrite length_fmap; lia).
    rewrite length_fmap, Nat.sub_diag, fmap_app, <- app_assoc. f_equal.
    destruct G as [|g G]; [done|]. cbn. by rewrite <- app_assoc.
  - rewrite (bool_decide_eq_false_2 (path !! b = Some pat)) by done.
    rewrite andb_false_r.
    destruct (IH A (G ++ [Some b]) R) as (G' & HG' & Hlen).
    exists G'. rewrite length_app in HG', Hlen. cbn [length] in HG', Hlen.
    rewrite <- app_assoc in HG'. cbn [app] in HG'.
    rewrite Nat.add_assoc, Nat.add_1_r in HG'.
    split; [done|lia].
Qed.

Lemma matchesLoop_frontierRun pattern : ∀ pos numPos F,
  posInv path pos numPos F →
  matchesLoop path pattern pos numPos = Some (frontierRun path pattern F).
Proof.
  induction pattern as [|pat rest IH]; intros pos numPos F Hinv;
    cbn [matchesLoop frontierRun].
  { destruct Hinv as (R & _ & _ & _ & HF & _). by rewrite bool_decide_eq_true_2. }
  destruct Hinv as (R & -> & Hlen & -> & HF & Hinc & Hbnd).
  destruct ((pat =? ch "$")%N && bool_decide (rest = [])) eqn:Hdollar.
  { (* final end anchor *)
    assert (is_Some (last F)) as [v Hv] by (by rewrite last_is_Some).
    assert (Hread : readPos ((Some <$> F) ++ R) (length F - 1) = Some v).
    { unfold readPos. rewrite last_lookup in Hv.
      rewrite lookup_app_l
        by (rewrite length_fmap; destruct F; simpl in *; [done|lia]).
      rewrite list_lookup_fmap.
      replace (length F - 1) with (pred (length F)) by lia.
      by rewrite Hv. }
    rewrite Hread. cbn [mbind option_bind]. f_equal. apply bool_decide_ext.
    rewrite (increasing_last_elem F (length path)) by done.
    rewrite Hv. naive_solver. }
  destruct (pat =? ch "*")%N eqn:Hstar.
  { (* wildcard *)
    destruct F as [|f0 F]; [done|].
    apply Forall_cons in Hbnd as Hb. destruct Hb as [Hf0 _].
    change (readPos ((Some <$> f0 :: F) ++ R) 0) with (Some f0).
    cbn [mbind option_bind].
    rewrite length_app, length_fmap in Hlen. cbn [length] in Hlen.
    pose proof (fillStar_spec (length path - f0 + 1 - 1) f0 1
                  ((Some <$> F) ++ R)) as Hfill.
    rewrite fmap_cons, <- app_comm_cons.
    change (Some <$> seq f0 1) with [Some f0] in Hfill.
    cbn [app] in Hfill.
    rewrite Hfill; clear Hfill;
      [|lia|rewrite length_app, length_fmap; lia].
    cbn [mbind option_bind]. apply IH.
    unfold frontierStar. rewrite frontierMin_head by done.
    replace (S (length path) - f0) with (1 + (length path - f0 + 1 - 1)) by lia.
    eexists. split; [reflexivity|].
    rewrite length_app, length_fmap, length_seq, length_drop, length_app,
      length_fmap.
    split; [lia|]. split; [lia|]. split; [done|].
    split; [apply increasing_seq|].
    apply Forall_forall. intros b Hb%elem_of_seq. lia. }
  (* literal *)
  destruct (literalLoop_spec pat F [] [] R) as (G' & Hlit & HlenG).
  cbn [length app plus fmap list_fmap] in Hlit. rewrite Hlit.
  cbn [mbind option_bind fst snd].
  rewrite <- advance_frontierAdvance. cbv zeta.
  destruct (advance path pat F) as [|a A] eqn:Hadv.
  { by rewrite !bool_decide_eq_true_2. }
  rewrite !bool_decide_eq_false_2 by done.
  apply IH. exists (G' ++ R). rewrite <- Hadv. split; [done|].
  split.
  { rewrite !length_app, length_fmap, Hadv in *. cbn [length] in *. lia. }
  split; [done|]. split; [by rewrite Hadv|].
  rewrite advance_frontierAdvance. unfold frontierAdvance. split.
  { apply increasing_fmap_S. by apply increasing_filter. }
  apply Forall_fmap, Forall_forall. intros b [Hb _]%list_elem_of_filter.
  apply lookup_lt_Some in Hb. simpl. lia.
Qed.

Lemma matchesArr_frontierMatches pattern :
  matchesArr path pattern = Some (frontierMatches path pattern).
Proof.
  unfold matchesArr, frontierMatches. apply matchesLoop_frontierRun.
  exists (replicate (length path) None). simpl.
  rewrite length_replicate. repeat split; try done.
  repeat constructor. lia.
Qed.

End MatchesRefinement.

(** C5: for every path and pattern, [matches] never reads an unwritten slot
    and returns exactly the verdict of the frontier semantics: from the
    frontier {0}, a final [$] succeeds iff the frontier contains
    [path.length], [*] replaces the frontier by the range from its minimum
    to [path.length], any other character advances the offsets whose path
    character equals it and fails when none remain, and an exhausted
    pattern succeeds on a non-empty frontier. *)
Theorem matches_frontier_semantics (path pattern : list N) :
  matchesArr path pattern = Some (matches path pattern)
  ∧ matches path pattern = frontierMatches path pattern.
Proof.
  unfold matches. rewrite matchesArr_frontierMatches. done.
Qed.

(** ** C9: the path extracted from a URL and the fail-fast branch *)

Section PathOf.
Import UrlUtils.

Lemma findPathChar_lookup s i :
  findPathChar s = Some i → ∃ c, s !! i = Some c ∧ isPathChar c = true.
Proof.
  revert i; induction s as [|a s IH]; intros i; simpl; [done|].
  destruct (isPathChar a) eqn:Ha.
  - intros [= <-]. eauto.
  - destruct (findPathChar s) as [j|]; simpl; [|done].
    intros [= <-]. by apply IH.
Qed.

Lemma indexOfStr_char_lookup c s i :
  indexOfStr [c] s = Some i → s !! i = Some c.
Proof.
  revert i; induction s as [|a s IH]; intros i; simpl; [done|].
  destruct (a =? c)%N eqn:Ha; simpl.
  - intros [= <-]. apply N.eqb_eq in Ha. by subst.
  - destruct (indexOfStr [c] s) as [j|]; simpl; [|done].
    intros [= <-]. by apply IH.
Qed.

Lemma getPathParamsQuery_startsWith_slash url :
  startsWith (getPathParamsQuery url) (str "/") = true.
Proof.
  unfold getPathParamsQuery. cbv zeta.
  match goal with
  | |- context [indexOfFrom [ch "#"] url ?ss] => set (searchStart := ss)
  end.
  match goal with
  | |- context [drop (Z.to_nat ?pe) url] => set (protocolEnd := pe)
  end.
  destruct (findPathChar (drop (Z.to_nat protocolEnd) url)) as [i|] eqn:Hps;
    [|reflexivity].
  apply findPathChar_lookup in Hps as (c & Hc & _).
  rewrite lookup_drop in Hc.
  cbn [fmap option_fmap option_map idx].
  remember (Z.to_nat protocolEnd + i) as pathStart eqn:Eps. clear Eps.
  assert (Hne : ∀ n : nat, (Z.of_nat n =? -1)%Z = false)
    by (intros; apply Z.eqb_neq; lia).
  rewrite Hne. cbn [negb]. rewrite Nat2Z.id.
  assert (Hslice : ∀ pathEnd, pathStart < pathEnd →
            url !! pathStart = Some (ch "/") →
            startsWith (slice url pathStart pathEnd) (str "/") = true).
  { intros pathEnd Hlt Hslash. unfold slice.
    destruct (drop pathStart url) as [|a rest] eqn:Hdrop.
    { apply (f_equal length) in Hdrop. rewrite length_drop in Hdrop.
      apply lookup_lt_Some in Hslash. simpl in Hdrop. lia. }
    assert (a = ch "/") as ->.
    { pose proof (lookup_drop url pathStart 0) as Hl.
      rewrite Hdrop, Nat.add_0_r, Hslash in Hl. by injection Hl. }
    destruct (pathEnd - pathStart) as [|n] eqn:Hn; [lia|]. reflexivity. }
  destruct (indexOfFrom [ch "#"] url searchStart) as [hashPos|] eqn:Hhash.
  - cbn [idx]. rewrite Hne. cbn [negb andb].
    destruct (Z.of_nat hashPos <? Z.of_nat pathStart)%Z eqn:Hlt; [reflexivity|].
    case_bool_decide as Hslash; cbn [negb]; [|reflexivity].
    unfold indexOfFrom in Hhash.
    destruct (indexOfStr [ch "#"] (drop searchStart url)) as [j|] eqn:Hj;
      [|done].
    injection Hhash as <-.
    apply indexOfStr_char_lookup in Hj. rewrite lookup_drop in Hj.
    assert (searchStart + j ≠ pathStart)
      by (intros E; rewrite E, Hslash in Hj; vm_compute in Hj; discriminate).
    rewrite Nat2Z.id. apply Z.ltb_ge in Hlt. apply Hslice; [lia|done].
  - cbn [idx negb andb]. change (-1 =? -1)%Z with true. cbn match.
    case_bool_decide as Hslash; cbn [negb]; [|reflexivity].
    rewrite Nat2Z.id. apply Hslice; [|done].
    by apply lookup_lt_Some in Hslash.
Qed.

End PathOf.

(** ** The last [/] of an Allow value and the directory pattern *)

Lemma lastIndexOf_split c s i :
  lastIndexOf c s = Some i →
  ∃ pre post, s = pre ++ c :: post ∧ length pre = i
              ∧ lastIndexOf c post = None.
Proof.
  revert i; induction s as [|a s IH]; intros i; simpl; [done|].
  destruct (lastIndexOf c s) as [j|] eqn:Hj.
  - intros [= <-]. destruct (IH j eq_refl) as (pre & post & -> & <- & Hpost).
    by exists (a :: pre), post.
  - destruct (a =? c)%N eqn:Ha; [|done]. intros [= <-].
    apply N.eqb_eq in Ha as ->. by exists [], s.
Qed.

Lemma lastIndexOf_app_cons c pre post :
  lastIndexOf c post = None →
  lastIndexOf c (pre ++ c :: post) = Some (length pre).
Proof.
  intros Hpost. induction pre as [|a pre IH]; simpl.
  - by rewrite Hpost, N.eqb_refl.
  - by rewrite IH.
Qed.

Lemma directoryPattern_split c pre post :
  directoryPattern (pre ++ c :: post) (length pre) = pre ++ [c] ++ str "$".
Proof.
  unfold directoryPattern, slice. rewrite drop_0, Nat.sub_0_r.
  rewrite take_app_ge by lia.
  replace (length pre + 1 - length pre) with 1 by lia.
  by rewrite <- app_assoc.
Qed.

Lemma directoryPattern_lastIndexOf value slashPos :
  lastIndexOf (ch "/") value = Some slashPos →
  lastIndexOf (ch "/") (directoryPattern value slashPos) = Some slashPos
  ∧ slice_from (directoryPattern value slashPos) slashPos = str "/$".
Proof.
  intros (pre & post & -> & <- & _)%lastIndexOf_split.
  rewrite directoryPattern_split. split.
  - by apply lastIndexOf_app_cons.
  - unfold slice_from. by rewrite drop_app_length.
Qed.

Section MatcherBasics.
Context `{CM : CaseMapping}.
Import RobotsMatcher.

Lemma seenAnyAgent_set_seenSeparator b m :
  seenAnyAgent (set_seenSeparator b m) = seenAnyAgent m.
Proof. reflexivity. Qed.

Lemma handleAllowFuel_unfold fuel lineNum value m :
  handleAllowFuel (S fuel) lineNum value m
  = if negb (seenAnyAgent m) then Some m
    else
      let m := set_seenSeparator true m in
      let priority :=
        LongestMatchRobotsMatchStrategy.matchAllow (path m) value in
      if (0 <=? priority)%Z then
        Some (set_allow
                (updateHierarchy (seenSpecificAgent m) priority lineNum
                   (allow m)) m)
      else
        match lastIndexOf (ch "/") value with
        | Some slashPos =>
            if startsWith (slice_from value slashPos) (str "/index.htm") then
              handleAllowFuel fuel lineNum (directoryPattern value slashPos) m
            else Some m
        | None => Some m
        end.
Proof. reflexivity. Qed.

(** Two nested calls of [handleAllow] suffice: with any larger fuel the
    result is the same, and it is never [None]. *)
Lemma handleAllowFuel_directory k lineNum value slashPos m :
  lastIndexOf (ch "/") value = Some slashPos →
  handleAllowFuel (S k) lineNum (directoryPattern value slashPos) m
  = handleAllowFuel 1 lineNum (directoryPattern value slashPos) m.
Proof.
  intros [Hlast Hafter]%directoryPattern_lastIndexOf.
  rewrite !handleAllowFuel_unfold, Hlast, Hafter.
  change (startsWith (str "/$") (str "/index.htm")) with false.
  reflexivity.
Qed.

Lemma handleAllowFuel_enough n lineNum value m :
  handleAllowFuel (S (S n)) lineNum value m
  = Some (handleAllow lineNum value m).
Proof.
  unfold handleAllow.
  rewrite (handleAllowFuel_unfold (S n)), (handleAllowFuel_unfold 1).
  destruct (negb (seenAnyAgent m)); [done|]. cbv zeta.
  destruct (0 <=? _)%Z; [done|].
  destruct (lastIndexOf (ch "/") value) as [slashPos|] eqn:Hlast; [|done].
  destruct (startsWith _ _); [|done].
  rewrite (handleAllowFuel_directory n) by done.
  rewrite handleAllowFuel_unfold.
  destruct (negb (seenAnyAgent _)); [done|]. cbv zeta.
  destruct (0 <=? _)%Z; [done|].
  pose proof (directoryPattern_lastIndexOf _ _ Hlast) as [-> ->].
  reflexivity.
Qed.

Lemma handleRobotsStart_reset m1 m2 :
  path m1 = path m2 → userAgents m1 = userAgents m2 →
  handleRobotsStart m1 = handleRobotsStart m2.
Proof. unfold handleRobotsStart. by intros -> ->. Qed.

Lemma allowedByRobots_any_instance robotsBody agents url m1 m2 :
  allowedByRobots robotsBody agents url m1
  = allowedByRobots robotsBody agents url m2.
Proof.
  unfold allowedByRobots, initUserAgentsAndPath.
  destruct (negb (startsWith _ _)); [done|].
  unfold parseRobotsTxt, RobotsTxtParser.parse. simpl.
  by rewrite (handleRobotsStart_reset _
    {| allow := allow m2; disallowMatch := disallowMatch m2;
       seenGlobalAgent := seenGlobalAgent m2;
       seenSpecificAgent := seenSpecificAgent m2;
       everSeenSpecificAgentFlag := everSeenSpecificAgentFlag m2;
       seenSeparator := seenSeparator m2;
       path := UrlUtils.getPathParamsQuery url; userAgents := agents |}).
Qed.

End MatcherBasics.

Lemma allowedByRobots_ok `{CM : CaseMapping} robotsBody userAgents url m :
  ∃ m', RobotsMatcher.allowedByRobots robotsBody userAgents url m
        = Ok (negb (RobotsMatcher.disallow m'), m').
Proof.
  unfold RobotsMatcher.allowedByRobots, RobotsMatcher.initUserAgentsAndPath.
  rewrite getPathParamsQuery_startsWith_slash. simpl. by eexists.
Qed.

(** C9: [getPathParamsQuery] always returns a string that starts with [/];
    [initUserAgentsAndPath] throws exactly when its path does not start
    with [/]; hence [allowedByRobots] returns a verdict, and never throws,
    for every robots body, agent list, URL and instance. *)
Theorem allowedByRobots_never_throws `{CM : CaseMapping} :
  (∀ url, startsWith (UrlUtils.getPathParamsQuery url) (str "/") = true)
  ∧ (∀ userAgents path m,
       (∃ msg, RobotsMatcher.initUserAgentsAndPath userAgents path m
               = Throw msg)
       ↔ startsWith path (str "/") = false)
  ∧ (∀ robotsBody userAgents url m,
       ∃ m', RobotsMatcher.allowedByRobots robotsBody userAgents url m
             = Ok (negb (RobotsMatcher.disallow m'), m')).
Proof.
  split; [apply getPathParamsQuery_startsWith_slash|]. split.
  - intros userAgents path m. unfold RobotsMatcher.initUserAgentsAndPath.
    destruct (startsWith path (str "/")); simpl.
    + split; [intros [msg ?]|]; done.
    + split; [done|]. intros _. by eexists.
  - apply allowedByRobots_ok.
Qed.

(** C10: one [RobotsMatcher] may be reused: [handleRobotsStart] clears
    every match candidate and every flag, so the verdict (and the whole
    instance) after a query is the same whether the instance is fresh or
    has served any sequence of earlier queries. *)
Theorem matcher_reuse_no_state_leak `{CM : CaseMapping}
    (earlier : list Query) (robotsBody : list N)
    (userAgents : list (list N)) (url : list N) :
  RobotsMatcher.allowedByRobots robotsBody userAgents url
    (afterQueries earlier RobotsMatcher.new)
  = RobotsMatcher.allowedByRobots robotsBody userAgents url RobotsMatcher.new
  ∧ ∀ m, let m' := RobotsMatcher.handleRobotsStart m in
      allow m' = allow RobotsMatcher.new
      ∧ disallowMatch m' = disallowMatch RobotsMatcher.new
      ∧ seenGlobalAgent m' = false ∧ seenSpecificAgent m' = false
      ∧ everSeenSpecificAgentFlag m' = false ∧ seenSeparator m' = false.
Proof.
  split; [apply allowedByRobots_any_instance|].
  intros m. by repeat split.
Qed.

(** ** C3: a Disallow directive with an empty value *)

Lemma matches_empty_pattern path : matches path [] = true.
Proof. reflexivity. Qed.

(** C3, as stated, fails in the live resolver: inside a group an empty
    Disallow replaces the no-match candidate (-1, 0) of the active scope by
    (0, line). *)
Lemma empty_disallow_changes_candidate :
  ¬ ∀ (lineNum : nat) (m : RobotsMatcher),
      disallowMatch (RobotsMatcher.handleDisallow lineNum [] m)
      = disallowMatch m.
Proof.
  intros Hclaim.
  specialize (Hclaim 2
    {| allow := {| global := Match.new; specific := Match.new |};
       disallowMatch := {| global := Match.new; specific := Match.new |};
       seenGlobalAgent := true; seenSpecificAgent := false;
       everSeenSpecificAgentFlag := false; seenSeparator := false;
       path := str "/"; userAgents := [str "FooBot"] |}).
  vm_compute in Hclaim. discriminate.
Qed.

Lemma disallow_zero_candidate_global a dg ds sg ss es sep sep' p ua lineNum :
  (priority dg < 0)%Z →
  RobotsMatcher.disallow
    {| allow := a;
       disallowMatch :=
         {| global := {| priority := 0; line := lineNum |}; specific := ds |};
       seenGlobalAgent := sg; seenSpecificAgent := ss;
       everSeenSpecificAgentFlag := es; seenSeparator := sep;
       path := p; userAgents := ua |}
  = RobotsMatcher.disallow
      {| allow := a; disallowMatch := {| global := dg; specific := ds |};
         seenGlobalAgent := sg; seenSpecificAgent := ss;
         everSeenSpecificAgentFlag := es; seenSeparator := sep';
         path := p; userAgents := ua |}.
Proof.
  intros Hdg. unfold RobotsMatcher.disallow, Match.getPriority. cbn.
  destruct (_ || _); [done|]. destruct es; [done|].
  change (0 <? 0)%Z with false.
  replace (0 <? priority dg)%Z with false by lia. cbn.
  destruct (Z.ltb_spec 0 (priority (global a))); [|done]. lia.
Qed.

Lemma disallow_zero_candidate_specific a dg ds sg ss es sep sep' p ua
    lineNum :
  (priority ds < 0)%Z →
  RobotsMatcher.disallow
    {| allow := a;
       disallowMatch :=
         {| global := dg; specific := {| priority := 0; line := lineNum |} |};
       seenGlobalAgent := sg; seenSpecificAgent := ss;
       everSeenSpecificAgentFlag := es; seenSeparator := sep;
       path := p; userAgents := ua |}
  = RobotsMatcher.disallow
      {| allow := a; disallowMatch := {| global := dg; specific := ds |};
         seenGlobalAgent := sg; seenSpecificAgent := ss;
         everSeenSpecificAgentFlag := es; seenSeparator := sep';
         path := p; userAgents := ua |}.
Proof.
  intros Hds. unfold RobotsMatcher.disallow, Match.getPriority. cbn.
  change (0 <? 0)%Z with false.
  replace (0 <? priority ds)%Z with false by lia.
  rewrite !orb_false_r.
  destruct (Z.ltb_spec 0 (priority (specific a))); [|done]. lia.
Qed.

(** C3 (amended): an empty Disallow registers no rule in the bulk
    collector: its global rules, its finished groups and its current group
    are as before.  In the live resolver it is ignored outside a group;
    inside a group the empty pattern matches and is registered with
    priority 0 in the active scope (replacing only a candidate of negative
    priority), the Allow candidates are kept and the verdict [disallow()]
    is the same before and after the call. *)
Theorem empty_disallow_effect (lineNum : nat) (h : RulesCollectorHandler)
    (m : RobotsMatcher) :
  (let h' := RulesCollectorHandler.handleDisallow lineNum [] h in
   globalRules h' = globalRules h ∧ agentGroups h' = agentGroups h
   ∧ currentGroup h' = currentGroup h)
  ∧ let m' := RobotsMatcher.handleDisallow lineNum [] m in
    allow m' = allow m
    ∧ RobotsMatcher.disallow m' = RobotsMatcher.disallow m
    ∧ (if RobotsMatcher.seenAnyAgent m then
         disallowMatch m'
         = RobotsMatcher.updateHierarchy (seenSpecificAgent m) 0 lineNum
             (disallowMatch m)
       else m' = m)
    ∧ (global (disallowMatch m') = global (disallowMatch m)
       ∨ (priority (global (disallowMatch m)) < 0)%Z
         ∧ global (disallowMatch m')
           = {| priority := 0; line := lineNum |})
    ∧ (specific (disallowMatch m') = specific (disallowMatch m)
       ∨ (priority (specific (disallowMatch m)) < 0)%Z
         ∧ specific (disallowMatch m')
           = {| priority := 0; line := lineNum |}).
Proof.
  split; [done|].
  unfold RobotsMatcher.handleDisallow,
    LongestMatchRobotsMatchStrategy.matchDisallow.
  rewrite matches_empty_pattern.
  destruct m as [a [dg ds] sg ss es sep p ua].
  unfold RobotsMatcher.seenAnyAgent. cbn [seenGlobalAgent seenSpecificAgent].
  destruct (sg || ss) eqn:Hany; cbn [negb]; [|by auto 10].
  change (Z.of_nat (length (@nil N))) with 0%Z.
  change (0 <=? 0)%Z with true. cbv zeta iota.
  unfold RobotsMatcher.updateHierarchy, RobotsMatcher.set_disallowMatch,
    RobotsMatcher.set_seenSeparator, Match.getPriority, Match.set.
  cbn [seenSpecificAgent seenGlobalAgent everSeenSpecificAgentFlag
       seenSeparator path userAgents disallowMatch specific global allow].
  destruct ss.
  - destruct (Z.ltb_spec (priority ds) 0).
    + cbn.
      rewrite (disallow_zero_candidate_specific a dg ds sg true es true sep)
        by done.
      by auto 10.
    + cbn. by auto 10.
  - destruct (Z.ltb_spec (priority dg) 0).
    + cbn.
      rewrite (disallow_zero_candidate_global a dg ds sg false es true sep)
        by done.
      by auto 10.
    + cbn. by auto 10.
Qed.

(** ** C4: Allow values naming an index page *)

Lemma startsWith_app s p : startsWith s p = true ↔ ∃ r, s = p ++ r.
Proof.
  revert s; induction p as [|b p IH]; intros s; simpl.
  { split; [by exists s|done]. }
  destruct s as [|a s].
  { split; [done|]. by intros [r ?]. }
  rewrite andb_true_iff, N.eqb_eq, IH. split.
  - intros [-> [r ->]]. by exists r.
  - intros [r [= -> ->]]. split; [done|]. by exists r.
Qed.

Lemma lastIndexOf_None_app c s1 s2 :
  lastIndexOf c (s1 ++ s2) = None
  ↔ lastIndexOf c s1 = None ∧ lastIndexOf c s2 = None.
Proof.
  induction s1 as [|a s1 IH]; simpl; [tauto|].
  destruct (lastIndexOf c (s1 ++ s2)), (lastIndexOf c s1),
    (lastIndexOf c s2), (a =? c)%N;
    try tauto; try (split; [discriminate|intros [? ?]; discriminate]);
    destruct IH as [IH1 IH2]; try (specialize (IH1 eq_refl) as [? ?]);
    try (specialize (IH2 (conj eq_refl eq_refl)));
    try discriminate; tauto.
Qed.

Lemma indexDirectory_Some_iff value d :
  indexDirectory value = Some d
  ↔ ∃ prefix rest,
      value = prefix ++ str "/index.htm" ++ rest
      ∧ lastIndexOf (ch "/") rest = None
      ∧ d = prefix ++ str "/$".
Proof.
  unfold indexDirectory. split.
  - destruct (lastIndexOf (ch "/") value) as [slashPos|] eqn:Hlast; [|done].
    apply lastIndexOf_split in Hlast as (pre & post & -> & <- & Hpost).
    unfold slice_from. rewrite drop_app_length.
    destruct (startsWith _ _) eqn:Hstarts; [|done]. intros [= <-].
    apply startsWith_app in Hstarts as [rest Hrest].
    injection Hrest as ->.
    exists pre, rest. split; [done|]. split.
    + by apply (lastIndexOf_None_app _ (str "index.htm")) in Hpost as [_ ?].
    + by rewrite directoryPattern_split.
  - intros (prefix & rest & -> & Hrest & ->).
    change (str "/index.htm" ++ rest)
      with (ch "/" :: (str "index.htm" ++ rest)).
    rewrite lastIndexOf_app_cons
      by (by apply lastIndexOf_None_app).
    unfold slice_from. rewrite drop_app_length.
    rewrite directoryPattern_split.
    replace (startsWith _ _) with true; [done|].
    symmetry. apply startsWith_app. by exists rest.
Qed.

Lemma indexDirectory_length value d :
  indexDirectory value = Some d → length d < length value.
Proof.
  intros (prefix & rest & -> & _ & ->)%indexDirectory_Some_iff.
  rewrite !length_app. simpl. lia.
Qed.

Lemma updateHierarchy_absorb ss p q l l' h :
  (q <= p)%Z →
  RobotsMatcher.updateHierarchy ss q l'
    (RobotsMatcher.updateHierarchy ss p l h)
  = RobotsMatcher.updateHierarchy ss p l h.
Proof.
  intros Hqp. unfold RobotsMatcher.updateHierarchy, Match.getPriority,
    Match.set.
  destruct ss, h as [[pg lg] [ps ls]]; cbn.
  - destruct (Z.ltb_spec ps p); cbn.
    + by replace (p <? q)%Z with false by lia.
    + by replace (ps <? q)%Z with false by lia.
  - destruct (Z.ltb_spec pg p); cbn.
    + by replace (p <? q)%Z with false by lia.
    + by replace (pg <? q)%Z with false by lia.
Qed.

Lemma Zleb_0_length {A} (l : list A) : (0 <=? Z.of_nat (length l))%Z = true.
Proof. apply Z.leb_le. lia. Qed.

Lemma registerAllow_unfold lineNum pattern m :
  RobotsMatcher.seenAnyAgent m = true →
  registerAllow lineNum pattern m
  = let m := RobotsMatcher.set_seenSeparator true m in
    if matches (path m) pattern then
      RobotsMatcher.set_allow
        (RobotsMatcher.updateHierarchy (seenSpecificAgent m)
           (Z.of_nat (length pattern)) lineNum (allow m)) m
    else m.
Proof.
  intros Hany. unfold registerAllow,
    LongestMatchRobotsMatchStrategy.matchAllow. rewrite Hany. cbn [negb].
  cbv zeta. destruct (matches _ _); [|done].
  by rewrite Zleb_0_length.
Qed.

(** The live [handleAllow] registers the value and, when the test on the
    last segment succeeds, the directory pattern as well. *)
Lemma handleAllow_registerAllow lineNum value m :
  RobotsMatcher.handleAllow lineNum value m
  = match indexDirectory value with
    | Some d => registerAllow lineNum d (registerAllow lineNum value m)
    | None => registerAllow lineNum value m
    end.
Proof.
  unfold RobotsMatcher.handleAllow.
  rewrite (handleAllowFuel_unfold 1).
  destruct (RobotsMatcher.seenAnyAgent m) eqn:Hany; cbn [negb].
  2:{ unfold registerAllow. rewrite Hany. cbn.
      destruct (indexDirectory value); [|done].
      by rewrite Hany. }
  pose proof (seenAnyAgent_set_seenSeparator true m) as Hany'.
  rewrite Hany in Hany'.
  cbv zeta. rewrite (registerAllow_unfold _ value) by done. cbv zeta.
  unfold LongestMatchRobotsMatchStrategy.matchAllow at 1 2.
  change (path (RobotsMatcher.set_seenSeparator true m)) with (path m).
  destruct (matches (path m) value) eqn:Hmatch.
  - rewrite Zleb_0_length. cbn [default from_option id].
    destruct (indexDirectory value) as [d|] eqn:Hd; [|done].
    apply indexDirectory_length in Hd.
    rewrite registerAllow_unfold by done. cbv zeta.
    destruct (matches _ d); [|by destruct m].
    destruct m as [a dm sg ss es sep p ua]. cbn.
    unfold RobotsMatcher.set_allow. cbn. f_equal.
    symmetry. apply updateHierarchy_absorb. lia.
  - change (0 <=? -1)%Z with false. cbv iota.
    unfold indexDirectory.
    destruct (lastIndexOf (ch "/") value) as [slashPos|] eqn:Hlast; [|done].
    destruct (startsWith _ _); [|done].
    rewrite handleAllowFuel_unfold, Hany'. cbn [negb]. cbv zeta.
    rewrite (registerAllow_unfold _ (directoryPattern value slashPos))
      by done.
    cbv zeta. unfold LongestMatchRobotsMatchStrategy.matchAllow.
    destruct (matches _ (directoryPattern value slashPos)).
    + by rewrite Zleb_0_length.
    + change (0 <=? -1)%Z with false. cbv iota.
      pose proof (directoryPattern_lastIndexOf _ _ Hlast) as [-> ->].
      reflexivity.
Qed.

(** C4, as stated, fails: a value that ends neither in [/index.htm] nor in
    [/index.html] triggers the directory rule as soon as its last segment
    starts with [index.htm]; here [Allow: /a/index.htmx] allows [/a/]
    against [Disallow: /]. *)
Lemma index_prefix_triggers_directory_rule :
  endsInIndexHtm (str "/a/index.htmx") = false
  ∧ rules <$> currentGroup
      (RulesCollectorHandler.handleAllow 2 (str "/a/index.htmx")
         {| globalRules := []; agentGroups := [];
            currentGroup :=
              Some {| agents := []; rules := []; isGlobal := true |};
            collectorSeenSeparator := false |})
    = Some [ {| pattern := str "/a/index.htmx"; lineNumber := 2;
                isAllow := true |};
             {| pattern := str "/a/$"; lineNumber := 2; isAllow := true |} ]
  ∧ liveAllowed (CM := asciiCaseMapping)
      (robotsLines ["User-agent: *"; "Allow: /a/index.htmx"; "Disallow: /"])
      (str "Bot") (str "http://x/a/") = Some true
  ∧ bulkAllowed (CM := asciiCaseMapping)
      (robotsLines ["User-agent: *"; "Allow: /a/index.htmx"; "Disallow: /"])
      (str "Bot") (str "http://x/a/") = Some true.
Proof. repeat split; vm_compute; reflexivity. Qed.

(** C4 (amended): in both resolvers a (non-empty) Allow value whose text
    from the last [/] on starts with [/index.htm] (so every value ending
    in [/index.htm] or [/index.html], and also e.g. [/index.htmx]) is
    registered a second time as the prefix up to and including that [/]
    followed by [$]; no other value is.  For
    ["User-agent: *\nAllow: /allowed/index.html\nDisallow: /\n"] the URL
    [http://x/allowed/] is allowed and [http://x/allowed/index.htm] is
    denied. *)
Theorem index_page_allow_rule :
  (∀ lineNum c value h,
     RulesCollectorHandler.handleAllow lineNum (c :: value) h
     = match indexDirectory (c :: value) with
       | Some d =>
           RulesCollectorHandler.addRule lineNum d true
             (RulesCollectorHandler.addRule lineNum (c :: value) true h)
       | None => RulesCollectorHandler.addRule lineNum (c :: value) true h
       end)
  ∧ (∀ lineNum value m,
       RobotsMatcher.handleAllow lineNum value m
       = match indexDirectory value with
         | Some d => registerAllow lineNum d (registerAllow lineNum value m)
         | None => registerAllow lineNum value m
         end)
  ∧ (∀ value d,
       indexDirectory value = Some d
       ↔ ∃ prefix rest,
           value = prefix ++ str "/index.htm" ++ rest
           ∧ lastIndexOf (ch "/") rest = None
           ∧ d = prefix ++ str "/$")
  ∧ (∀ prefix,
       indexDirectory (prefix ++ str "/index.htm") = Some (prefix ++ str "/$")
       ∧ indexDirectory (prefix ++ str "/index.html")
         = Some (prefix ++ str "/$"))
  ∧ (let body :=
       robotsLines ["User-agent: *"; "Allow: /allowed/index.html";
                    "Disallow: /"] in
     liveAllowed (CM := asciiCaseMapping) body (str "Bot")
       (str "http://x/allowed/") = Some true
     ∧ liveAllowed (CM := asciiCaseMapping) body (str "Bot")
         (str "http://x/allowed/index.htm") = Some false
     ∧ bulkAllowed (CM := asciiCaseMapping) body (str "Bot")
         (str "http://x/allowed/") = Some true
     ∧ bulkAllowed (CM := asciiCaseMapping) body (str "Bot")
         (str "http://x/allowed/index.htm") = Some false).
Proof.
  split.
  { intros lineNum c value h. unfold RulesCollectorHandler.handleAllow,
      indexDirectory.
    rewrite bool_decide_eq_false_2 by done.
    destruct (lastIndexOf (ch "/") (c :: value)); [|done].
    by destruct (startsWith _ _). }
  split; [apply handleAllow_registerAllow|].
  split; [apply indexDirectory_Some_iff|].
  split.
  { intros prefix. split; apply indexDirectory_Some_iff.
    - exists prefix, []. by rewrite app_nil_r.
    - by exists prefix, (str "l"). }
  repeat split; vm_compute; reflexivity.
Qed.

(** ** Invariants of a handler carry over to a whole parse *)

Section ParseInvariant.
Context `{CM : CaseMapping} {H : Type} `{RPH : RobotsParseHandler H}.
Variable P : H → Prop.
Hypothesis P_start : ∀ h, P (handleRobotsStart h).
Hypothesis P_end : ∀ h, P h → P (handleRobotsEnd h).
Hypothesis P_userAgent : ∀ n v h, P h → P (handleUserAgent n v h).
Hypothesis P_allow : ∀ n v h, P h → P (handleAllow n v h).
Hypothesis P_disallow : ∀ n v h, P h → P (handleDisallow n v h).
Hypothesis P_sitemap : ∀ n v h, P h → P (handleSitemap n v h).
Hypothesis P_unknown : ∀ n a v h, P h → P (handleUnknownAction n a v h).
Hypothesis P_metadata : ∀ n md h, P h → P (reportLineMetadata n md h).

Lemma emitKeyValueToHandler_preserves n t v u h :
  P h → P (RobotsTxtParser.emitKeyValueToHandler n t v u h).
Proof. destruct t; simpl; auto. Qed.

Lemma parseAndEmitLine_preserves n line tooLong h :
  P h → P (RobotsTxtParser.parseAndEmitLine n line tooLong h).
Proof.
  intros Hh. unfold RobotsTxtParser.parseAndEmitLine. cbv zeta.
  destruct (negb _); [by apply P_metadata|].
  apply P_metadata.
  destruct (RobotsTxtParser.needEscapeValueForKey _);
    by apply emitKeyValueToHandler_preserves.
Qed.

Lemma parseChar_preserves c st h :
  P h → P (RobotsTxtParser.parseChar c st h).2.
Proof.
  intros Hh. unfold RobotsTxtParser.parseChar.
  repeat (match goal with |- context [if ?b then _ else _] => destruct b end;
          cbn [snd]); try done.
  by apply parseAndEmitLine_preserves.
Qed.

Lemma parseLoop_preserves body : ∀ st h,
  P h → P (RobotsTxtParser.parseLoop body st h).2.
Proof.
  induction body as [|c body IH]; intros st h Hh; simpl; [done|].
  destruct (RobotsTxtParser.parseChar c st h) as [st' h'] eqn:Hstep.
  apply IH. change h' with (st', h').2. rewrite <- Hstep.
  by apply parseChar_preserves.
Qed.

Lemma parseRobotsTxt_preserves body h : P (parseRobotsTxt body h).
Proof.
  unfold parseRobotsTxt, RobotsTxtParser.parse. cbv zeta.
  destruct (RobotsTxtParser.parseLoop body _ _) as [st' h'] eqn:Hloop.
  apply P_end, parseAndEmitLine_preserves.
  change h' with (st', h').2. rewrite <- Hloop.
  apply parseLoop_preserves, P_start.
Qed.

End ParseInvariant.

(** ** C2: equal priorities favour Allow *)

Lemma disallow_tie (m : RobotsMatcher) :
  (decidingPriorities (matcherPriorities m)).1
  = (decidingPriorities (matcherPriorities m)).2 →
  RobotsMatcher.disallow m = false.
Proof.
  unfold decidingPriorities, matcherPriorities, RobotsMatcher.disallow,
    Match.getPriority. cbn [fst snd].
  destruct (_ || _).
  - cbn [fst snd]. intros ->. apply Z.ltb_irrefl.
  - cbn [fst snd]. intros ->. rewrite Z.ltb_irrefl.
    destruct (everSeenSpecificAgentFlag m); [done|]. by destruct (_ || _).
Qed.

Section CollectorInvariant.
Context `{CM : CaseMapping}.

Lemma collectorInv_finalize h :
  collectorInv h → collectorInv (RulesCollectorHandler.finalizeCurrentGroup h).
Proof.
  intros Hinv. pose proof Hinv as (Hg & Hgs & Hc).
  unfold RulesCollectorHandler.finalizeCurrentGroup.
  destruct (currentGroup h) as [g|] eqn:Hcur; [|done].
  case_bool_decide; [|done].
  split; [done|]. split; [|done]. cbn.
  apply Forall_app. split; [done|]. constructor; [|done]. by apply Hc.
Qed.

Lemma collectorInv_addRule n pat b h :
  pat ≠ [] → collectorInv h →
  collectorInv (RulesCollectorHandler.addRule n pat b h).
Proof.
  intros Hpat Hinv. pose proof Hinv as (Hg & Hgs & Hc).
  unfold RulesCollectorHandler.addRule.
  destruct (currentGroup h) as [g|] eqn:Hcur; [|done].
  split; [|split]; cbn.
  - destruct (isGlobal g); [|done]. apply Forall_app. split; [done|].
    by constructor.
  - done.
  - intros g' [= <-]. cbn. apply Forall_app. split; [by apply Hc|].
    by constructor.
Qed.

Lemma collectorInv_handleUserAgent n v h :
  collectorInv h → collectorInv (RulesCollectorHandler.handleUserAgent n v h).
Proof.
  intros Hinv. unfold RulesCollectorHandler.handleUserAgent.
  set (h1 := if collectorSeenSeparator h then _ else h).
  assert (Hinv1 : collectorInv h1).
  { subst h1. destruct (collectorSeenSeparator h); [|done].
    apply collectorInv_finalize in Hinv as (Hg & Hgs & _).
    split; [done|]. by split. }
  destruct Hinv1 as (Hg & Hgs & Hc). cbv zeta.
  split; [done|]. split; [done|]. cbn. intros g [= <-].
  assert (Hcur : nonEmptyRules
            (rules match currentGroup h1 with
                   | Some g => g
                   | None => {| agents := []; rules := []; isGlobal := false |}
                   end)).
  { destruct (currentGroup h1) as [g|]; [by apply Hc|]. constructor. }
  destruct (isGlobalAgent v); [done|]. by case_bool_decide.
Qed.

Lemma directoryPattern_nonempty value slashPos :
  directoryPattern value slashPos ≠ [].
Proof.
  unfold directoryPattern. intros E%(f_equal length).
  rewrite length_app in E. simpl in E. lia.
Qed.

Lemma collectorInv_handleAllow n v h :
  collectorInv h → collectorInv (RulesCollectorHandler.handleAllow n v h).
Proof.
  intros Hinv. unfold RulesCollectorHandler.handleAllow.
  case_bool_decide as Hlen; [done|].
  assert (v ≠ []) by (by intros ->).
  destruct (lastIndexOf (ch "/") v) as [slashPos|];
    [|by apply collectorInv_addRule].
  destruct (startsWith _ _); [|by apply collectorInv_addRule].
  apply collectorInv_addRule; [apply directoryPattern_nonempty|].
  by apply collectorInv_addRule.
Qed.

Lemma collectorInv_handleDisallow n v h :
  collectorInv h → collectorInv (RulesCollectorHandler.handleDisallow n v h).
Proof.
  intros Hinv. unfold RulesCollectorHandler.handleDisallow.
  case_bool_decide as Hlen; [done|].
  apply collectorInv_addRule; [by intros ->|done].
Qed.

Lemma collectorInv_parse body h :
  collectorInv (parseRobotsTxt body h).
Proof.
  apply parseRobotsTxt_preserves; simpl; try done.
  - intros h0. split; [constructor|]. split; [constructor|done].
  - apply collectorInv_finalize.
  - apply collectorInv_handleUserAgent.
  - apply collectorInv_handleAllow.
  - apply collectorInv_handleDisallow.
Qed.

(** The rule lists of the index have non-empty patterns too. *)
Lemma addGroupAgents_nonEmpty group acc :
  nonEmptyRules (rules group) →
  map_Forall (λ _ rs, nonEmptyRules rs) acc.1 →
  map_Forall (λ _ rs, nonEmptyRules rs)
    (ParsedRobots.addGroupAgents group acc).1.
Proof.
  intros Hgroup. unfold ParsedRobots.addGroupAgents.
  generalize (agents group). intros ags. revert acc.
  induction ags as [|agent ags IH]; intros acc Hacc; simpl; [done|].
  apply IH. simpl. apply map_Forall_insert_2; [|done].
  apply Forall_app. split; [|done].
  destruct (acc.1 !! agent) as [rs|] eqn:Hrs; simpl; [|constructor].
  by apply (Hacc agent).
Qed.

Lemma parse_agentRulesMap_nonEmpty body agent rs :
  agentRulesMap (ParsedRobots.parse body) !! agent = Some rs →
  nonEmptyRules rs.
Proof.
  unfold ParsedRobots.parse. cbv zeta.
  pose proof (collectorInv_parse body RulesCollectorHandler.new)
    as (_ & Hgroups & _).
  revert Hgroups. generalize (agentGroups
    (parseRobotsTxt body RulesCollectorHandler.new)). intros groups Hgroups.
  assert (Hfold : ∀ acc,
            map_Forall (λ _ rs, nonEmptyRules rs) acc.1 →
            map_Forall (λ _ rs, nonEmptyRules rs)
              (foldl (λ acc group, ParsedRobots.addGroupAgents group acc)
                 acc groups).1).
  { induction Hgroups as [|g groups Hg _ IH]; intros acc Hacc; simpl; [done|].
    by apply IH, addGroupAgents_nonEmpty. }
  specialize (Hfold (∅, ∅) (map_Forall_empty _)).
  destruct (foldl _ _ _) as [amap aset]. simpl in *.
  intros Hlook. by apply (Hfold agent).
Qed.

(** On rules with non-empty patterns a candidate is the sentinel or has a
    positive priority. *)
Lemma bestCandidates_nonEmpty path rs :
  nonEmptyRules rs →
  let b := ParsedRobots.bestCandidates path rs in
  (ParsedRobots.bestPriority b.1 = (-1)%Z ∨ 0 < ParsedRobots.bestPriority b.1)%Z
  ∧ (ParsedRobots.bestPriority b.2 = (-1)%Z
     ∨ 0 < ParsedRobots.bestPriority b.2)%Z.
Proof.
  intros Hrs. unfold ParsedRobots.bestCandidates.
  assert (Hfold : ∀ acc : ParsedRobots.Best * ParsedRobots.Best,
    (ParsedRobots.bestPriority acc.1 = (-1)%Z
     ∨ 0 < ParsedRobots.bestPriority acc.1)%Z
    ∧ (ParsedRobots.bestPriority acc.2 = (-1)%Z
       ∨ 0 < ParsedRobots.bestPriority acc.2)%Z →
    let b := foldl (ParsedRobots.checkRule path) acc rs in
    (ParsedRobots.bestPriority b.1 = (-1)%Z
     ∨ 0 < ParsedRobots.bestPriority b.1)%Z
    ∧ (ParsedRobots.bestPriority b.2 = (-1)%Z
       ∨ 0 < ParsedRobots.bestPriority b.2)%Z).
  { induction Hrs as [|r rs Hr _ IH]; intros acc Hacc; simpl; [done|].
    apply IH. unfold ParsedRobots.checkRule.
    destruct (matches path (pattern r)); [|done].
    assert (0 < Z.of_nat (length (pattern r)))%Z
      by (destruct (pattern r); [done|simpl; lia]).
    destruct (isAllow r), (_ <? _)%Z; simpl; try done;
      destruct Hacc; split; auto. }
  apply Hfold. simpl. auto.
Qed.

End CollectorInvariant.

Lemma checkSingleUrl_allowed url rs :
  allowed (ParsedRobots.checkSingleUrl url rs)
  = (let b := ParsedRobots.bestCandidates (UrlUtils.getPathParamsQuery url) rs
     in ParsedRobots.bestPriority b.2 <=? ParsedRobots.bestPriority b.1)%Z.
Proof.
  unfold ParsedRobots.checkSingleUrl. cbv zeta.
  destruct (ParsedRobots.bestCandidates _ rs) as [ba bd]. cbn [fst snd].
  destruct (ParsedRobots.bestPriority bd <? ParsedRobots.bestPriority ba)%Z;
    [done|].
  destruct (ParsedRobots.bestPriority ba <? ParsedRobots.bestPriority bd)%Z;
    [done|].
  by destruct (0 <=? ParsedRobots.bestPriority ba)%Z.
Qed.

Lemma bulk_tie `{CM : CaseMapping} body agent url :
  (decidingPriorities
     (bulkPriorities (ParsedRobots.parse body) agent url)).1
  = (decidingPriorities
       (bulkPriorities (ParsedRobots.parse body) agent url)).2 →
  allowed (ParsedRobots.checkSingleUrl url
             (ParsedRobots.rulesFor agent (ParsedRobots.parse body))) = true.
Proof.
  rewrite checkSingleUrl_allowed. cbv zeta.
  unfold decidingPriorities, bulkPriorities, ParsedRobots.rulesFor.
  cbv zeta. cbn [fst snd].
  destruct (agentRulesMap (ParsedRobots.parse body) !! _) as [rs|] eqn:Hrs;
    cbn [default from_option id].
  - apply parse_agentRulesMap_nonEmpty in Hrs.
    pose proof (bestCandidates_nonEmpty (UrlUtils.getPathParamsQuery url)
                  rs Hrs) as [Ha Hd].
    cbv zeta in Ha, Hd.
    destruct (ParsedRobots.bestCandidates _ rs) as [ba bd]. cbn [fst snd] in *.
    destruct (Z.ltb_spec 0 (ParsedRobots.bestPriority ba));
      destruct (Z.ltb_spec 0 (ParsedRobots.bestPriority bd));
      cbn [orb fst snd]; intros Htie; apply Z.leb_le; lia.
  - change (ParsedRobots.bestCandidates _ []) with
      (ParsedRobots.noBest, ParsedRobots.noBest).
    cbn [fst snd orb ParsedRobots.bestPriority ParsedRobots.noBest].
    change (0 <? K_NO_MATCH_PRIORITY)%Z with false. cbn [orb fst snd].
    intros ->. apply Z.leb_refl.
Qed.

(** C2: for every text and query, when the best Allow and the best
    Disallow candidate of the deciding scope (the specific scope if it has
    a candidate of positive priority, else the global scope) have equal
    priority, the verdict is Allow, in [RobotsMatcher.disallow] (for every
    state of the resolver, and so for the state a query ends in) and in
    [ParsedRobots.checkUrl]. *)
Theorem tie_favors_allow `{CM : CaseMapping} (body agent url : list N) :
  (∀ m, (decidingPriorities (matcherPriorities m)).1
        = (decidingPriorities (matcherPriorities m)).2 →
        RobotsMatcher.disallow m = false)
  ∧ (∃ m, RobotsMatcher.oneAgentAllowedByRobots body agent url
            RobotsMatcher.new = Ok (negb (RobotsMatcher.disallow m), m)
          ∧ ((decidingPriorities (matcherPriorities m)).1
             = (decidingPriorities (matcherPriorities m)).2 →
             liveAllowed body agent url = Some true))
  ∧ (∃ r, ParsedRobots.checkUrl agent url (ParsedRobots.parse body) = Some r
          ∧ ((decidingPriorities
                (bulkPriorities (ParsedRobots.parse body) agent url)).1
             = (decidingPriorities
                  (bulkPriorities (ParsedRobots.parse body) agent url)).2 →
             allowed r = true)).
Proof.
  split; [apply disallow_tie|]. split.
  - destruct (allowedByRobots_ok body [agent] url RobotsMatcher.new)
      as [m Hm].
    exists m. split; [exact Hm|]. intros Htie.
    unfold liveAllowed, RobotsMatcher.oneAgentAllowedByRobots.
    rewrite Hm. cbn. by rewrite disallow_tie.
  - eexists. split; [reflexivity|]. apply bulk_tie.
Qed.

Lemma tie_favors_allow_witness :
  let body := robotsLines ["User-agent: *"; "Disallow: /path/";
                           "Allow: /path/"] in
  let agent := str "MyBot" in
  let url := str "http://example.com/path/doc" in
  (decidingPriorities
     (bulkPriorities (CM := asciiCaseMapping)
        (ParsedRobots.parse (CM := asciiCaseMapping) body) agent url)).1
  = (decidingPriorities
       (bulkPriorities (CM := asciiCaseMapping)
          (ParsedRobots.parse (CM := asciiCaseMapping) body) agent url)).2
  ∧ liveAllowed (CM := asciiCaseMapping) body agent url = Some true
  ∧ bulkAllowed (CM := asciiCaseMapping) body agent url = Some true.
Proof.
  intros body agent url.
  destruct (tie_favors_allow (CM := asciiCaseMapping) body agent url)
    as (_ & (m & Hm & Hlive) & (r & Hr & Hbulk)).
  assert (Htie : (decidingPriorities
            (bulkPriorities (CM := asciiCaseMapping)
               (ParsedRobots.parse (CM := asciiCaseMapping) body)
               agent url)).1
          = (decidingPriorities
               (bulkPriorities (CM := asciiCaseMapping)
                  (ParsedRobots.parse (CM := asciiCaseMapping) body)
                  agent url)).2) by (by vm_compute).
  split; [exact Htie|]. split.
  - apply Hlive. vm_compute in Hm. injection Hm as _ <-. by vm_compute.
  - unfold bulkAllowed. rewrite Hr. simpl. f_equal. exact (Hbulk Htie).
Defined.

(** ** The parser seen through the recording handler *)

Section Recorder.
Context `{CM : CaseMapping}.

Lemma emitKeyValueToHandler_log n t v u (log : list ParseEvent) :
  RobotsTxtParser.emitKeyValueToHandler n t v u log
  = log ++ [directiveEvent n t v u].
Proof. by destruct t. Qed.

(** What [parseAndEmitLine] sends: the metadata alone for a line without
    directive, else the directive and then the metadata. *)
Lemma parseAndEmitLine_events n line tooLong (log : list ParseEvent) :
  let kv := RobotsTxtParser.getKeyAndValueFrom line in
  let md := set_isLineTooLong tooLong (RobotsTxtParser.metadata kv) in
  let kr := ParsedRobotsKey.parse (RobotsTxtParser.key kv) in
  RobotsTxtParser.parseAndEmitLine n line tooLong log
  = if hasDirective (RobotsTxtParser.metadata kv) then
      log ++
      [directiveEvent n (ParsedRobotsKey.type kr)
         (if RobotsTxtParser.needEscapeValueForKey (ParsedRobotsKey.type kr)
          then UrlUtils.escaped
                 (UrlUtils.maybeEscapePattern (RobotsTxtParser.value kv))
          else RobotsTxtParser.value kv)
         (ParsedRobotsKey.unknownText kr);
       ReportLineMetadata n
         (set_isAcceptableTypo (ParsedRobotsKey.keyIsAcceptableTypo kr) md)]
    else log ++ [ReportLineMetadata n md].
Proof.
  cbv zeta. unfold RobotsTxtParser.parseAndEmitLine. cbv zeta.
  change (hasDirective (set_isLineTooLong tooLong ?m)) with (hasDirective m).
  destruct (hasDirective _); cbn [negb]; [|done].
  destruct (RobotsTxtParser.needEscapeValueForKey _);
    rewrite emitKeyValueToHandler_log; cbn; by rewrite <- app_assoc.
Qed.

Lemma parseAndEmitLine_log n line tooLong (log : list ParseEvent) :
  RobotsTxtParser.parseAndEmitLine n line tooLong log
  = log ++ lineEvents n line tooLong.
Proof.
  unfold lineEvents. rewrite !parseAndEmitLine_events. cbv zeta.
  by destruct (hasDirective _).
Qed.

End Recorder.

(** ** The loop of [parse] on one line and on a text of several lines *)

Section ParseLoop.
Context `{CM : CaseMapping} {H : Type} `{RPH : RobotsParseHandler H}.
Import RobotsTxtParser.

Lemma parse_finishParse body h :
  parse body h
  = finishParse (parseLoop body initialParseState (handleRobotsStart h)).
Proof.
  unfold parse, finishParse. cbv zeta. by destruct (parseLoop _ _ _).
Qed.

Lemma parseLoop_BOM text h :
  parseLoop (UTF8_BOM ++ text) initialParseState h
  = parseLoop text (bomDone initialParseState) h.
Proof. reflexivity. Qed.

Lemma parseChar_no_BOM c st h :
  bomPos st = 0 → c ≠ 239%N →
  parseChar c st h = parseChar c (bomDone st) h.
Proof.
  intros Hpos Hc. unfold parseChar. rewrite Hpos.
  rewrite (bool_decide_eq_false_2 (UTF8_BOM !! 0 = Some c))
    by (intros E; cbn in E; congruence).
  rewrite andb_false_r.
  by rewrite (bool_decide_eq_false_2 (bomPos (bomDone st) < length UTF8_BOM))
    by (simpl; lia).
Qed.

Lemma finishParse_no_BOM text h :
  head text ≠ Some 239%N →
  finishParse (parseLoop text initialParseState h)
  = finishParse (parseLoop text (bomDone initialParseState) h).
Proof.
  destruct text as [|c text]; [done|]. simpl. intros Hc.
  rewrite parseChar_no_BOM; [done|done|]. by intros ->.
Qed.

Lemma parseChar_BOM_mismatch c st h :
  UTF8_BOM !! bomPos st ≠ Some c →
  parseChar c st h = parseChar c (bomDone st) h.
Proof.
  intros Hc. unfold parseChar.
  rewrite (bool_decide_eq_false_2 (UTF8_BOM !! bomPos st = Some c)) by done.
  rewrite andb_false_r.
  by rewrite (bool_decide_eq_false_2 (bomPos (bomDone st) < length UTF8_BOM))
    by (simpl; lia).
Qed.

Lemma parseChar_BOM_match c st h :
  UTF8_BOM !! bomPos st = Some c →
  parseChar c st h
  = ({| lineBuffer := lineBuffer st; lineNum := lineNum st;
        bomPos := bomPos st + 1;
        lastWasCarriageReturn := lastWasCarriageReturn st;
        lineTooLong := lineTooLong st |}, h).
Proof.
  intros Hc. unfold parseChar.
  rewrite (bool_decide_eq_true_2 (UTF8_BOM !! bomPos st = Some c)) by done.
  by rewrite bool_decide_eq_true_2 by (by eapply lookup_lt_Some).
Qed.

(** The loop skips the prefix of the mark the text starts with, and goes
    on as if the text began behind it. *)
Lemma finishParse_stripPrefixOf mark : ∀ st text h,
  drop (bomPos st) UTF8_BOM = mark →
  finishParse (parseLoop text st h)
  = finishParse (parseLoop (stripPrefixOf mark text) (bomDone st) h).
Proof.
  induction mark as [|b mark IH]; intros st text h Hmark.
  - replace (stripPrefixOf [] text) with text by (by destruct text).
    destruct text as [|c text]; [done|]. cbn [parseLoop].
    rewrite parseChar_BOM_mismatch; [done|].
    apply (f_equal length) in Hmark. rewrite length_drop in Hmark.
    rewrite lookup_ge_None_2; [done|]. simpl in *. lia.
  - assert (Hb : UTF8_BOM !! bomPos st = Some b).
    { pose proof (lookup_drop UTF8_BOM (bomPos st) 0) as Hl.
      by rewrite Hmark, Nat.add_0_r in Hl. }
    destruct text as [|c text]; [done|]. cbn [stripPrefixOf].
    destruct (N.eqb_spec c b) as [->|Hcb].
    + cbn [parseLoop]. rewrite parseChar_BOM_match by done.
      rewrite IH; [done|]. cbn [bomPos].
      rewrite (drop_S _ _ _ Hb) in Hmark. rewrite Nat.add_1_r.
      by injection Hmark.
    + cbn [parseLoop]. rewrite parseChar_BOM_mismatch; [done|].
      rewrite Hb. congruence.
Qed.

Lemma finishParse_stripBOM text h :
  finishParse (parseLoop text initialParseState h)
  = finishParse (parseLoop (stripBOM text) (lineState 0 [] false) h).
Proof. by rewrite (finishParse_stripPrefixOf UTF8_BOM). Qed.

(** The steps of the loop on the code units of a line. *)
Lemma parseChar_content c n cur lastCR h :
  c ≠ 10%N → c ≠ 13%N →
  parseChar c (lineState n cur lastCR) h
  = (lineState n (cur ++ [c]) false, h).
Proof.
  intros Hlf%N.eqb_neq Hcr%N.eqb_neq. unfold parseChar, lineState.
  cbn [bomPos lineBuffer lineNum lastWasCarriageReturn lineTooLong].
  rewrite (bool_decide_eq_false_2 (length UTF8_BOM < length UTF8_BOM))
    by lia.
  cbn [andb]. cbv zeta. rewrite Hlf, Hcr. cbn [orb].
  rewrite length_take, length_app. cbn [length].
  destruct (N.ltb_spec (N.of_nat (maxLineContent `min` length cur))
              (K_MAX_LINE_LEN - 1)) as [Hroom|Hfull].
  - assert (length cur < maxLineContent)
      by (unfold maxLineContent in *; lia).
    rewrite !take_ge by (rewrite ?length_app; simpl; lia).
    by rewrite !bool_decide_eq_false_2 by lia.
  - assert (maxLineContent ≤ length cur)
      by (unfold maxLineContent in *; lia).
    rewrite take_app_le by lia.
    by rewrite (bool_decide_eq_true_2 (maxLineContent < length cur + 1))
      by lia.
Qed.

Lemma parseChar_terminator c n cur lastCR h :
  c = 13%N ∨ (c = 10%N ∧ lastCR = false) →
  parseChar c (lineState n cur lastCR) h
  = (lineState (n + 1) [] (c =? 13)%N,
     parseAndEmitLine (n + 1) (take maxLineContent cur)
       (bool_decide (maxLineContent < length cur)) h).
Proof.
  intros Hc. unfold parseChar, lineState.
  cbn [bomPos lineBuffer lineNum lastWasCarriageReturn lineTooLong].
  rewrite (bool_decide_eq_false_2 (length UTF8_BOM < length UTF8_BOM))
    by lia.
  cbn [andb]. cbv zeta. rewrite take_nil.
  rewrite (bool_decide_eq_false_2 (maxLineContent < length [])) by (simpl; lia).
  destruct Hc as [->|[-> ->]].
  - change (13 =? 10)%N with false. change (13 =? 13)%N with true.
    by rewrite !andb_false_r.
  - change (10 =? 10)%N with true. change (10 =? 13)%N with false.
    by rewrite andb_false_r.
Qed.

Lemma parseChar_CRLF n h :
  parseChar 10%N (lineState n [] true) h = (lineState n [] false, h).
Proof.
  unfold parseChar, lineState.
  cbn [bomPos lineBuffer lineNum lastWasCarriageReturn lineTooLong].
  rewrite (bool_decide_eq_false_2 (length UTF8_BOM < length UTF8_BOM))
    by lia.
  by rewrite take_nil.
Qed.

Lemma logicalLinesFrom_nonempty afterCR text :
  logicalLinesFrom afterCR text ≠ [].
Proof.
  revert afterCR; induction text as [|c text IH]; intros afterCR; [done|].
  simpl. destruct (c =? 10)%N; [by destruct afterCR|].
  destruct (c =? 13)%N; [done|].
  specialize (IH false). by destruct (logicalLinesFrom false text).
Qed.

Lemma prependLine_consHead cur c ls :
  ls ≠ [] → prependLine cur (consHead c ls) = prependLine (cur ++ [c]) ls.
Proof. destruct ls; [done|]. intros _. simpl. by rewrite <- app_assoc. Qed.

Lemma prependLine_nil ls : ls ≠ [] → prependLine [] ls = ls.
Proof. by destruct ls. Qed.

(** The loop handles the logical lines of the text one by one: each is
    cut to [maxLineContent] code units and flagged when it was longer. *)
Lemma parseLoop_logicalLines text : ∀ n cur lastCR h,
  (lastCR = true → cur = []) →
  finishParse (parseLoop text (lineState n cur lastCR) h)
  = handleRobotsEnd
      (emitLines n (prependLine cur (logicalLinesFrom lastCR text)) h).
Proof.
  induction text as [|c text IH]; intros n cur lastCR h Hcur.
  { cbn. by rewrite app_nil_r. }
  cbn [parseLoop logicalLinesFrom].
  destruct (N.eqb_spec c 10) as [->|Hlf].
  - destruct lastCR.
    + rewrite (Hcur eq_refl), parseChar_CRLF. by apply IH.
    + rewrite parseChar_terminator by auto.
      change (10 =? 13)%N with false. rewrite IH by done.
      rewrite prependLine_nil by apply logicalLinesFrom_nonempty.
      cbn [prependLine emitLines]. by rewrite app_nil_r.
  - destruct (N.eqb_spec c 13) as [->|Hcr].
    + rewrite parseChar_terminator by auto.
      change (13 =? 13)%N with true. rewrite IH by done.
      rewrite prependLine_nil by apply logicalLinesFrom_nonempty.
      cbn [prependLine emitLines]. by rewrite app_nil_r.
    + rewrite parseChar_content by done. rewrite IH by done.
      by rewrite prependLine_consHead by apply logicalLinesFrom_nonempty.
Qed.

End ParseLoop.

Lemma parseRobotsTxt_logicalLines `{CM : CaseMapping} {H : Type}
    `{RPH : RobotsParseHandler H} text (h : H) :
  parseRobotsTxt text h
  = handleRobotsEnd
      (emitLines 0 (logicalLines (stripBOM text)) (handleRobotsStart h)).
Proof.
  unfold parseRobotsTxt.
  rewrite parse_finishParse, finishParse_stripBOM, parseLoop_logicalLines
    by done.
  unfold logicalLines.
  by rewrite prependLine_nil by apply logicalLinesFrom_nonempty.
Qed.

Lemma emitLines_log `{CM : CaseMapping} ls : ∀ n (log : list ParseEvent),
  emitLines n ls log = log ++ truncatedLineEvents n ls.
Proof.
  induction ls as [|l ls IH]; intros n log; simpl.
  { by rewrite app_nil_r. }
  by rewrite IH, parseAndEmitLine_log, <- app_assoc.
Qed.

Lemma parseEvents_logicalLines `{CM : CaseMapping} text :
  parseEvents text
  = [RobotsStart] ++ truncatedLineEvents 0 (logicalLines (stripBOM text))
    ++ [RobotsEnd].
Proof.
  unfold parseEvents. rewrite parseRobotsTxt_logicalLines. simpl.
  by rewrite emitLines_log.
Qed.

Lemma lineEvents_flag `{CM : CaseMapping} n line tooLong :
  ∃ md, last (lineEvents n line tooLong) = Some (ReportLineMetadata n md)
        ∧ isLineTooLong md = tooLong.
Proof.
  unfold lineEvents. rewrite parseAndEmitLine_events. cbv zeta.
  destruct (hasDirective _); eexists; (split; [reflexivity|done]).
Qed.

(** ** C6: a byte-order mark in front of a text *)

(** C6, as stated, fails for a text that itself starts with the first BOM
    byte: alone it loses that byte as a partial BOM, behind a full BOM it
    keeps it as content of line 1. *)
Lemma bom_prefix_changes_events :
  parseEvents (CM := asciiCaseMapping) (UTF8_BOM ++ 239%N :: str "a: b")
  ≠ parseEvents (CM := asciiCaseMapping) (239%N :: str "a: b").
Proof. vm_compute. discriminate. Qed.

(** C6 (amended): for every text whose first code unit is not 0xEF (the
    first byte of the mark), parsing the text with the three-byte UTF-8
    BOM prepended sends every handler through the same calls, and so
    produces the same sequence of handler events, as parsing the text
    alone. *)
Theorem bom_prefix_same_events `{CM : CaseMapping} (text : list N) :
  head text ≠ Some 239%N →
  parseEvents (UTF8_BOM ++ text) = parseEvents text
  ∧ ∀ (H : Type) (RPH : RobotsParseHandler H) (h : H),
      parseRobotsTxt (UTF8_BOM ++ text) h = parseRobotsTxt text h.
Proof.
  intros Hhead.
  assert (Hall : ∀ (H : Type) (RPH : RobotsParseHandler H) (h : H),
            parseRobotsTxt (UTF8_BOM ++ text) h = parseRobotsTxt text h).
  { intros H RPH h. unfold parseRobotsTxt.
    rewrite !parse_finishParse, parseLoop_BOM.
    by rewrite (finishParse_no_BOM text). }
  split; [apply Hall|exact Hall].
Qed.

Lemma bom_prefix_same_events_witness :
  let text := robotsLines ["User-Agent: foo"; "Allow: /AnyValue"] in
  head text ≠ Some 239%N
  ∧ parseEvents (CM := asciiCaseMapping) (UTF8_BOM ++ text)
    = parseEvents (CM := asciiCaseMapping) text.
Proof.
  intros text.
  assert (Hhead : head text ≠ Some 239%N) by (vm_compute; discriminate).
  split; [exact Hhead|].
  apply (bom_prefix_same_events (CM := asciiCaseMapping) text Hhead).
Defined.

(** ** C7: the length kept of a line *)

(** C7, as stated, fails on a line of exactly 2083 * 8 code units: its
    last code unit is dropped and the line is flagged. *)
Lemma line_of_budget_length_is_cut :
  let line := str "a:" ++ replicate (N.to_nat 16662) (ch "b") in
  N.of_nat (length line) = K_MAX_LINE_LEN
  ∧ parseEvents (CM := asciiCaseMapping) line
    = [RobotsStart;
       UnknownAction 1 (str "a") (replicate (N.to_nat 16661) (ch "b"));
       ReportLineMetadata 1
         {| isEmpty := false; hasComment := false; isComment := false;
            hasDirective := true; isAcceptableTypo := false;
            isLineTooLong := true; isMissingColonSeparator := false |};
       RobotsEnd].
Proof.
  intros line. split; [by vm_compute|].
  rewrite parseEvents_logicalLines. by vm_compute.
Qed.

(** C7 (amended): the content of a logical line is cut at
    K_MAX_LINE_LEN - 1 = 16663 code units.  For every text, the events of
    the parse are those of its logical lines (behind the BOM prefix), line
    i being processed as key/value from exactly its first 16663 code
    units, the rest dropped, and its metadata having isLineTooLong set iff
    the line has more than 16663 code units. *)
Theorem lines_cut_at_max_content `{CM : CaseMapping} (text : list N) :
  N.of_nat maxLineContent = (2083 * 8 - 1)%N
  ∧ parseEvents text
    = [RobotsStart]
      ++ truncatedLineEvents 0 (logicalLines (stripBOM text))
      ++ [RobotsEnd]
  ∧ ∀ n line tooLong,
      ∃ md, last (lineEvents n line tooLong)
            = Some (ReportLineMetadata n md)
            ∧ isLineTooLong md = tooLong.
Proof.
  split; [by vm_compute|].
  split; [apply parseEvents_logicalLines|]. apply lineEvents_flag.
Qed.

(** ** C8: which values are escaped *)

(** C8, as stated, fails for a line with an unrecognized key: its value is
    escaped too. *)
Lemma unknown_key_value_is_escaped :
  ParsedRobotsKey.type (ParsedRobotsKey.parse (CM := asciiCaseMapping)
                          (str "foo")) = UNKNOWN
  ∧ parseEvents (CM := asciiCaseMapping) (str "foo: %aa")
    = [RobotsStart;
       UnknownAction 1 (str "foo") (str "%AA");
       ReportLineMetadata 1
         {| isEmpty := false; hasComment := false; isComment := false;
            hasDirective := true; isAcceptableTypo := false;
            isLineTooLong := false; isMissingColonSeparator := false |};
       RobotsEnd]
  ∧ str "%AA" ≠ str "%aa".
Proof. repeat split; by vm_compute. Qed.

(** C8 (amended): the parser applies [maybeEscapePattern] to the value of
    a directive line if and only if the key does not classify as
    User-Agent or Sitemap, that is for Allow, Disallow and unrecognized
    keys; User-Agent and Sitemap values are emitted as they are. *)
Theorem escaping_by_key_type `{CM : CaseMapping} (n : nat) (line : list N)
    (tooLong : bool) (log : list ParseEvent) :
  hasDirective
    (RobotsTxtParser.metadata (RobotsTxtParser.getKeyAndValueFrom line))
  = true →
  let kv := RobotsTxtParser.getKeyAndValueFrom line in
  let kr := ParsedRobotsKey.parse (RobotsTxtParser.key kv) in
  RobotsTxtParser.parseAndEmitLine n line tooLong log
  = log ++
    [directiveEvent n (ParsedRobotsKey.type kr)
       match ParsedRobotsKey.type kr with
       | USER_AGENT | SITEMAP => RobotsTxtParser.value kv
       | ALLOW | DISALLOW | UNKNOWN =>
           UrlUtils.escaped
             (UrlUtils.maybeEscapePattern (RobotsTxtParser.value kv))
       end
       (ParsedRobotsKey.unknownText kr);
     ReportLineMetadata n
       (set_isAcceptableTypo (ParsedRobotsKey.keyIsAcceptableTypo kr)
          (set_isLineTooLong tooLong (RobotsTxtParser.metadata kv)))].
Proof.
  intros Hdir. cbv zeta. rewrite parseAndEmitLine_events. cbv zeta.
  rewrite Hdir. by destruct (ParsedRobotsKey.type _).
Qed.

Lemma escaping_by_key_type_witness :
  hasDirective
    (RobotsTxtParser.metadata
       (RobotsTxtParser.getKeyAndValueFrom (str "Allow: /%aa"))) = true
  ∧ RobotsTxtParser.parseAndEmitLine (CM := asciiCaseMapping) 3
      (str "Allow: /%aa") false []
    = [Allow 3 (str "/%AA");
       ReportLineMetadata 3
         {| isEmpty := false; hasComment := false; isComment := false;
            hasDirective := true; isAcceptableTypo := false;
            isLineTooLong := false; isMissingColonSeparator := false |}].
Proof.
  assert (Hdir : hasDirective
            (RobotsTxtParser.metadata
               (RobotsTxtParser.getKeyAndValueFrom (str "Allow: /%aa")))
            = true) by (by vm_compute).
  split; [exact Hdir|].
  rewrite (escaping_by_key_type (CM := asciiCaseMapping) 3
             (str "Allow: /%aa") false [] Hdir).
  by vm_compute.
Defined.

(** ** C1: the bulk index against the live resolver *)

(** C1 fails on the code: the two entry points disagree.  An empty Allow
    closes the group of the live resolver but not that of the bulk
    collector; a named group without rules shields the agent from the
    global rules in the live resolver only; and only the bulk index cuts
    the queried agent name down to its leading [A-Za-z_-] part. *)
Lemma bulk_and_live_disagree :
  (let body := robotsLines ["User-agent: *"; "Allow:";
                            "User-agent: FooBot"; "Disallow: /"] in
   liveAllowed (CM := asciiCaseMapping) body (str "BarBot")
     (str "http://x/a") = Some true
   ∧ bulkAllowed (CM := asciiCaseMapping) body (str "BarBot")
       (str "http://x/a") = Some false)
  ∧ (let body := robotsLines ["User-agent: *"; "Disallow: /";
                              "User-agent: FooBot"] in
     liveAllowed (CM := asciiCaseMapping) body (str "FooBot")
       (str "http://x/a") = Some true
     ∧ bulkAllowed (CM := asciiCaseMapping) body (str "FooBot")
         (str "http://x/a") = Some false)
  ∧ (let body := robotsLines ["User-agent: Googlebot";
                              "Disallow: /private/"] in
     liveAllowed (CM := asciiCaseMapping) body (str "Googlebot/2.1")
       (str "http://x/private/a") = Some true
     ∧ bulkAllowed (CM := asciiCaseMapping) body (str "Googlebot/2.1")
         (str "http://x/private/a") = Some false).
Proof. repeat split; by vm_compute. Qed.

(** * Part III: further properties of the code

    ** [matches] and the language of a pattern *)

Lemma patternMatches_inv pattern s :
  patternMatches pattern s →
  match pattern with
  | [] => True
  | c :: rest =>
      if (c =? ch "$")%N && bool_decide (rest = []) then s = []
      else if (c =? ch "*")%N then ∃ k, patternMatches rest (drop k s)
      else ∃ s', s = c :: s' ∧ patternMatches rest s'
  end.
Proof.
  destruct 1 as [s| |pattern s k Hk|c pattern s Hstar Hend Hs]; [done|done| |].
  - change (ch "*" =? ch "$")%N with false. cbn [andb].
    rewrite N.eqb_refl. by exists k.
  - destruct ((c =? ch "$")%N && bool_decide (pattern = [])) eqn:E.
    { apply andb_true_iff in E as [?%N.eqb_eq ?%bool_decide_eq_true].
      by destruct Hend. }
    apply N.eqb_neq in Hstar. rewrite Hstar. by exists s.
Qed.

Section Glob.
Variable path : list N.

Lemma frontierMin_lower F o : o ∈ F → frontierMin F ≤ o.
Proof.
  destruct F as [|a F]; [by intros ?%elem_of_nil|]. simpl.
  revert a o. induction F as [|b F IH]; intros a o Ho; simpl.
  - apply list_elem_of_singleton in Ho. lia.
  - apply elem_of_cons in Ho as [->|Ho].
    + specialize (IH a a (list_elem_of_here _ _)). lia.
    + apply elem_of_cons in Ho as [->|Ho]; [lia|].
      specialize (IH a o). 
      assert (o ∈ a :: F) by (by apply list_elem_of_further).
      specialize (IH H). lia.
Qed.

Lemma frontierMin_elem F : F ≠ [] → frontierMin F ∈ F.
Proof.
  destruct F as [|a F]; [done|]. intros _. simpl.
  revert a. induction F as [|b F IH]; intros a; simpl.
  - apply list_elem_of_here.
  - specialize (IH a).
    destruct (Nat.min_spec b (foldr Nat.min a F)) as [[_ ->]|[_ ->]].
    + apply list_elem_of_further, list_elem_of_here.
    + apply elem_of_cons in IH as [->|IH]; [apply list_elem_of_here|].
      by do 2 apply list_elem_of_further.
Qed.

Lemma frontierRun_patternMatches pattern : ∀ F,
  F ≠ [] → Forall (λ o, o ≤ length path) F →
  frontierRun path pattern F = true
  ↔ ∃ o, o ∈ F ∧ patternMatches pattern (drop o path).
Proof.
  induction pattern as [|p rest IH]; intros F HF Hb.
  - simpl. rewrite bool_decide_eq_true. split; [|done].
    intros _. destruct F as [|o F]; [done|].
    exists o. split; [apply list_elem_of_here|constructor].
  - cbn [frontierRun].
    assert (Hinv := λ o, patternMatches_inv (p :: rest) (drop o path)).
    cbn beta iota in Hinv.
    destruct ((p =? ch "$")%N && bool_decide (rest = [])) eqn:Hend.
    { apply andb_true_iff in Hend as [->%N.eqb_eq ->%bool_decide_eq_true].
      rewrite bool_decide_eq_true. split.
      - intros Hin. exists (length path). split; [done|].
        rewrite drop_all. constructor.
      - intros (o & Ho & Hl%Hinv). apply (f_equal length) in Hl.
        rewrite length_drop in Hl. simpl in Hl.
        rewrite Forall_forall in Hb. specialize (Hb o Ho).
        by replace (length path) with o by lia. }
    destruct (N.eqb_spec p (ch "*")) as [->|Hstar].
    { assert (Hmin := frontierMin_elem F HF).
      assert (Hminb : frontierMin F ≤ length path).
      { rewrite Forall_forall in Hb. by apply Hb. }
      rewrite IH.
      - unfold frontierStar. split.
        + intros (o & [Ho1 Ho2]%elem_of_seq & Hm).
          exists (frontierMin F). split; [done|].
          apply patternMatches_star with (k := o - frontierMin F).
          rewrite drop_drop.
          by replace (frontierMin F + (o - frontierMin F)) with o by lia.
        + intros (o & Ho & [k Hk]%Hinv).
          rewrite drop_drop in Hk.
          pose proof (frontierMin_lower F o Ho).
          rewrite Forall_forall in Hb. specialize (Hb o Ho).
          exists ((o + k) `min` length path). split.
          * apply elem_of_seq. lia.
          * destruct (decide (o + k ≤ length path)).
            -- by rewrite Nat.min_l by lia.
            -- rewrite Nat.min_r by lia. rewrite drop_all.
               by rewrite drop_ge in Hk by lia.
      - unfold frontierStar. intros E%(f_equal length).
        rewrite length_seq in E. simpl in E. lia.
      - unfold frontierStar. apply Forall_forall.
        intros o [? ?]%elem_of_seq. lia. }
    assert (Hhead : ∀ o s', drop o path = p :: s' →
              path !! o = Some p ∧ drop (S o) path = s').
    { intros o s' E. assert (Hc : path !! o = Some p).
      { pose proof (lookup_drop path o 0) as Hl.
        by rewrite E, Nat.add_0_r in Hl. }
      split; [exact Hc|]. rewrite (drop_S _ _ _ Hc) in E. by injection E. }
    cbv zeta. destruct (decide (frontierAdvance path p F = [])) as [Hempty|Hne].
    { rewrite bool_decide_eq_true_2 by done. split; [done|]. intros (o & Ho & (s' & [Hc _]%Hhead & _)%Hinv).
      assert (Hin : S o ∈ frontierAdvance path p F).
      { unfold frontierAdvance. apply list_elem_of_fmap. exists o.
        split; [done|]. by apply list_elem_of_filter. }
      rewrite Hempty in Hin. by apply elem_of_nil in Hin. }
    rewrite bool_decide_eq_false_2 by done. rewrite IH; [|done|].
    + unfold frontierAdvance. split.
      * intros (o & Ho & Hm).
        apply list_elem_of_fmap in Ho
          as (o' & -> & [Hc Ho']%list_elem_of_filter).
        exists o'. split; [done|].
        rewrite (drop_S _ _ _ Hc). constructor; [done| |done].
        intros [-> ->]. by rewrite N.eqb_refl, bool_decide_eq_true_2 in Hend.
      * intros (o & Ho & (s' & [Hc <-]%Hhead & Hm)%Hinv).
        exists (S o). split; [|done].
        apply list_elem_of_fmap. exists o. split; [done|].
        by apply list_elem_of_filter.
    + unfold frontierAdvance. apply Forall_fmap, Forall_forall.
      intros o [Hc _]%list_elem_of_filter. apply lookup_lt_Some in Hc.
      simpl. lia.
Qed.

End Glob.

Lemma matches_patternMatches (path pattern : list N) :
  matches path pattern = true ↔ patternMatches pattern path.
Proof.
  unfold matches. rewrite matchesArr_frontierMatches. simpl.
  unfold frontierMatches. rewrite frontierRun_patternMatches.
  - split.
    + by intros (o & ->%list_elem_of_singleton & Hm).
    + intros Hm. exists 0. split; [apply list_elem_of_here|done].
  - done.
  - repeat constructor. lia.
Qed.

(** X1: [matches] decides the language its comment describes: it returns
    true exactly when the path has a prefix that the pattern generates,
    [*] standing for any sequence of characters, a final [$] for the end
    of the path and every other character for itself. *)
Theorem matches_iff_patternMatches (path pattern : list N) :
  matches path pattern = true ↔ patternMatches pattern path.
Proof. apply matches_patternMatches. Qed.

Lemma last_cons_ne {A} (c : A) (rest : list A) (x : A) :
  last (c :: rest) ≠ Some x → rest ≠ [] → last rest ≠ Some x.
Proof. by destruct rest. Qed.

Lemma patternMatches_cons_literal c rest s :
  c ≠ ch "*" → ¬ (c = ch "$" ∧ rest = []) →
  patternMatches (c :: rest) s ↔ ∃ s', s = c :: s' ∧ patternMatches rest s'.
Proof.
  intros Hstar Hend. split.
  - intros Hm%patternMatches_inv. revert Hm.
    destruct ((c =? ch "$")%N && bool_decide (rest = [])) eqn:E.
    { apply andb_true_iff in E as [?%N.eqb_eq ?%bool_decide_eq_true].
      by destruct Hend. }
    by apply N.eqb_neq in Hstar as ->.
  - intros (s' & -> & Hm). by constructor.
Qed.

Lemma patternMatches_cons_star rest s :
  patternMatches (ch "*" :: rest) s ↔ ∃ k, patternMatches rest (drop k s).
Proof.
  split.
  - by intros Hm%patternMatches_inv.
  - intros [k Hk]. by apply patternMatches_star with k.
Qed.

Lemma patternMatches_literal pattern : ∀ s,
  ch "*" ∉ pattern → last pattern ≠ Some (ch "$") →
  patternMatches pattern s ↔ ∃ r, s = pattern ++ r.
Proof.
  induction pattern as [|c rest IH]; intros s Hstar Hlast.
  { split; [by exists s|constructor]. }
  apply not_elem_of_cons in Hstar as [Hc Hstar].
  rewrite patternMatches_cons_literal; [|done|].
  - destruct (decide (rest = [])) as [->|Hne].
    + split; [intros (s' & -> & _); by exists s'|].
      intros [r ->]. exists r. split; [done|constructor].
    + split.
      * intros (s' & -> & [r ->]%IH); [by exists r|done|].
        by apply (last_cons_ne c).
      * intros [r ->]. exists (rest ++ r). split; [done|].
        apply IH; [done|by apply (last_cons_ne c)|by exists r].
  - intros [-> ->]. by apply Hlast.
Qed.

Lemma patternMatches_anchored_literal pattern : ∀ s,
  ch "*" ∉ pattern →
  patternMatches (pattern ++ str "$") s ↔ s = pattern.
Proof.
  induction pattern as [|c rest IH]; intros s Hstar.
  { split; [by intros ->%patternMatches_inv|intros ->; constructor]. }
  apply not_elem_of_cons in Hstar as [Hc Hstar].
  rewrite <- app_comm_cons, patternMatches_cons_literal; [|done|].
  - split.
    + by intros (s' & -> & ->%IH).
    + intros ->. exists rest. split; [done|]. by apply IH.
  - intros [_ E]. by destruct rest.
Qed.

Lemma bool_eq_iff (a b : bool) : (a = true ↔ b = true) → a = b.
Proof. destruct a, b; intros [? ?]; auto. symmetry; auto. Qed.

(** X2: a pattern without [*] is a plain prefix test, and with a [$]
    appended it is a test for equality: if the pattern does not end in
    [$], [matches] is [path.startsWith(pattern)], and [matches] of the
    pattern followed by [$] is [path === pattern]. *)
Theorem matches_literal_pattern (path pattern : list N) :
  ch "*" ∉ pattern →
  (last pattern ≠ Some (ch "$") →
   matches path pattern = startsWith path pattern)
  ∧ matches path (pattern ++ str "$") = bool_decide (path = pattern).
Proof.
  intros Hstar. split.
  - intros Hlast. apply bool_eq_iff.
    by rewrite matches_patternMatches, patternMatches_literal,
      startsWith_app.
  - apply bool_eq_iff.
    by rewrite matches_patternMatches, patternMatches_anchored_literal,
      bool_decide_eq_true.
Qed.

Lemma matches_literal_pattern_witness :
  (ch "*" ∉ str "/fish")
  ∧ last (str "/fish") ≠ Some (ch "$")
  ∧ matches (str "/fish.html") (str "/fish")
    = startsWith (str "/fish.html") (str "/fish")
  ∧ matches (str "/fish.html") (str "/fish" ++ str "$")
    = bool_decide (str "/fish.html" = str "/fish").
Proof.
  assert (Hstar : ch "*" ∉ str "/fish")
    by (apply (bool_decide_unpack _); by vm_compute).
  assert (Hlast : last (str "/fish") ≠ Some (ch "$"))
    by (vm_compute; discriminate).
  destruct (matches_literal_pattern (str "/fish.html") (str "/fish") Hstar)
    as [H1 H2].
  split; [exact Hstar|]. split; [exact Hlast|].
  split; [exact (H1 Hlast)|exact H2].
Defined.

Lemma patternMatches_extends pattern s : 
  patternMatches pattern s → ∀ ext, last pattern ≠ Some (ch "$") →
  patternMatches pattern (s ++ ext).
Proof.
  induction 1 as [s| |pattern s k Hk IH|c pattern s Hstar Hend Hs IH];
    intros ext Hlast.
  - constructor.
  - by destruct Hlast.
  - destruct (decide (pattern = [])) as [->|Hne].
    { apply patternMatches_star with (k := 0). constructor. }
    apply patternMatches_star with (k := k `min` length s).
    rewrite drop_app_le by lia.
    destruct (decide (k ≤ length s)).
    + rewrite Nat.min_l by lia. apply IH. by apply (last_cons_ne (ch "*")).
    + rewrite Nat.min_r by lia. rewrite drop_all.
      rewrite drop_ge in IH by lia. apply IH.
      by apply (last_cons_ne (ch "*")).
  - rewrite <- app_comm_cons. constructor; [done|done|].
    destruct (decide (pattern = [])) as [->|Hne]; [constructor|].
    apply IH. by apply (last_cons_ne c).
Qed.

(** X3: a pattern that does not end in [$] matches every extension of a
    path it matches. *)
Theorem matches_prefix_closed (path pattern ext : list N) :
  last pattern ≠ Some (ch "$") →
  matches path pattern = true → matches (path ++ ext) pattern = true.
Proof.
  rewrite !matches_patternMatches. intros Hlast Hm.
  by apply patternMatches_extends.
Qed.

Lemma patternMatches_trailing_star pattern : ∀ s,
  last pattern ≠ Some (ch "$") →
  patternMatches (pattern ++ str "*") s ↔ patternMatches pattern s.
Proof.
  induction pattern as [|c rest IH]; intros s Hlast.
  { split; [constructor|]. intros _.
    apply patternMatches_star with (k := 0). constructor. }
  assert (Hrest : rest ≠ [] → last rest ≠ Some (ch "$"))
    by apply (last_cons_ne c), Hlast.
  assert (IH' : ∀ s, patternMatches (rest ++ str "*") s
                     ↔ patternMatches rest s).
  { intros s'. destruct (decide (rest = [])) as [->|Hne]; [|by apply IH, Hrest].
    split; [constructor|]. intros _.
    apply patternMatches_star with (k := 0). constructor. }
  rewrite <- app_comm_cons. destruct (decide (c = ch "*")) as [->|Hstar].
  - rewrite !patternMatches_cons_star. by setoid_rewrite IH'.
  - rewrite !patternMatches_cons_literal.
    + by setoid_rewrite IH'.
    + done.
    + intros [-> ->]. by apply Hlast.
    + done.
    + intros [_ E]. by destruct rest.
Qed.

(** X4: a [*] at the end of a pattern that does not end in [$] changes
    nothing. *)
Theorem matches_trailing_star (path pattern : list N) :
  last pattern ≠ Some (ch "$") →
  matches path (pattern ++ str "*") = matches path pattern.
Proof.
  intros Hlast. apply bool_eq_iff.
  by rewrite !matches_patternMatches, patternMatches_trailing_star.
Qed.

Lemma matches_prefix_closed_witness :
  last (str "/fish*.php") ≠ Some (ch "$")
  ∧ matches (str "/fishheads/catfish.php") (str "/fish*.php") = true
  ∧ matches (str "/fishheads/catfish.php" ++ str "?id=1") (str "/fish*.php")
    = true.
Proof.
  assert (Hlast : last (str "/fish*.php") ≠ Some (ch "$"))
    by (vm_compute; discriminate).
  assert (Hm : matches (str "/fishheads/catfish.php") (str "/fish*.php")
               = true) by (by vm_compute).
  split; [exact Hlast|]. split; [exact Hm|].
  exact (matches_prefix_closed _ _ (str "?id=1") Hlast Hm).
Defined.

Lemma matches_trailing_star_witness :
  last (str "/fish") ≠ Some (ch "$")
  ∧ matches (str "/fish.html") (str "/fish" ++ str "*")
    = matches (str "/fish.html") (str "/fish").
Proof.
  assert (Hlast : last (str "/fish") ≠ Some (ch "$"))
    by (vm_compute; discriminate).
  split; [exact Hlast|].
  exact (matches_trailing_star (str "/fish.html") (str "/fish") Hlast).
Defined.


(** ** url-utils.ts: [maybeEscapePattern] *)

Section Escape.
Import UrlUtils.

(** Induction that follows the loops of [maybeEscapePattern]: from a
    position they go on one or three characters further. *)
Lemma escape_ind (P : list N → Prop) :
  P [] →
  (∀ c rest,
     P rest → (∀ h1 h2 rest', rest = h1 :: h2 :: rest' → P rest') →
     P (c :: rest)) →
  ∀ src, P src.
Proof.
  intros Hnil Hcons src. cut (∀ k, P (drop k src)); [intros Hk; apply (Hk 0)|].
  induction src as [|c rest IH]; intros k.
  { by rewrite drop_nil. }
  destruct k as [|k]; [|apply IH]. apply Hcons; [apply (IH 0)|].
  intros h1 h2 rest' ->. apply (IH 2).
Qed.

Lemma escapeLoop_cons c rest :
  escapeLoop (c :: rest)
  = if sequenceAhead c rest then
      c :: (asciiToUpper <$> take 2 rest) ++ escapeLoop (drop 2 rest)
    else if (127 <? c)%N then escapeOctets c ++ escapeLoop rest
    else c :: escapeLoop rest.
Proof.
  by destruct rest as [|h1 [|h2 rest']].
Qed.

Lemma scanPattern_cons c rest n b :
  scanPattern (c :: rest) n b
  = if sequenceAhead c rest then
      scanPattern (drop 2 rest) n
        (if existsb isLower (take 2 rest) then true else b)
    else if (127 <? c)%N then scanPattern rest (S n) b
    else scanPattern rest n b.
Proof.
  destruct rest as [|h1 [|h2 rest']]; try done.
  cbn [scanPattern sequenceAhead existsb take]. rewrite orb_false_r.
  by destruct (isEscapeSequence c h1 h2).
Qed.

Lemma sequenceAhead_inv c rest :
  sequenceAhead c rest = true →
  ∃ h1 h2 rest', rest = h1 :: h2 :: rest' ∧ c = ch "%"
                 ∧ isHexDigit h1 = true ∧ isHexDigit h2 = true.
Proof.
  destruct rest as [|h1 [|h2 rest']]; try done. simpl.
  unfold isEscapeSequence.
  intros [[?%N.eqb_eq ?]%andb_true_iff ?]%andb_true_iff.
  by exists h1, h2, rest'.
Qed.

Lemma hexDigit_spec n :
  (n < 16)%N →
  ∃ X, hexDigit n = [X] ∧ isHexDigit X = true ∧ asciiToUpper X = X
       ∧ (X < 128)%N.
Proof.
  intros Hn. unfold hexDigit.
  assert (Hin : N.to_nat n ∈ seq 0 16) by (apply elem_of_seq; lia).
  cbn [seq] in Hin.
  repeat (apply elem_of_cons in Hin as [->|Hin];
          [eexists; split; [reflexivity|by vm_compute]|]).
  by apply elem_of_nil in Hin.
Qed.

Lemma utf8Encode_length c :
  (127 <? c)%N = true → 0 < length (utf8Encode c).
Proof.
  intros Hc%N.ltb_lt. unfold utf8Encode.
  repeat case_match; simpl; lia.
Qed.

Lemma escapeOctets_sequences c : escapeSequences (escapeOctets c).
Proof.
  unfold escapeOctets. induction (utf8Encode c) as [|b bs IH]; [constructor|].
  cbn [mbind list_bind]. 
  change (foldr _ _ _) with (mbind (M := list) (λ b, ch "%" :: hexDigit (N.land (N.shiftr b 4) 15) ++ hexDigit (N.land b 15)) bs) in *.
  destruct (hexDigit_spec (N.land (N.shiftr b 4) 15))
    as (X & -> & ? & ? & ?).
  { change 15%N with (N.ones 4). rewrite N.land_ones.
    by apply N.mod_lt. }
  destruct (hexDigit_spec (N.land b 15)) as (Y & -> & ? & ? & ?).
  { change 15%N with (N.ones 4). rewrite N.land_ones.
    by apply N.mod_lt. }
  simpl. by constructor.
Qed.
(** The flags of the first pass only grow. *)
Lemma scanPattern_mono src : ∀ n b,
  n ≤ (scanPattern src n b).1
  ∧ (b = true → (scanPattern src n b).2 = true).
Proof.
  induction src as [|c rest IH IH3] using escape_ind; intros n b; [done|].
  rewrite scanPattern_cons. destruct (sequenceAhead c rest) eqn:Hseq.
  - apply sequenceAhead_inv in Hseq as (h1 & h2 & rest' & -> & _).
    destruct (IH3 h1 h2 rest' eq_refl n
                (if existsb isLower (take 2 (h1 :: h2 :: rest'))
                 then true else b)) as [? Hb].
    split; [done|]. intros ->. apply Hb. by destruct (existsb _ _).
  - destruct (127 <? c)%N.
    + destruct (IH (S n) b). split; [lia|done].
    + apply IH.
Qed.

Lemma asciiToUpper_fixed h : asciiToUpper h = h → isLower h = false.
Proof.
  unfold asciiToUpper, isLower, isAsciiLower.
  destruct (N.leb_spec (ch "a") h); [|done].
  destruct (N.leb_spec h (ch "z")); [|done]. simpl.
  change (ch "a") with 97%N in *. lia.
Qed.

Lemma escapeOctets_head c :
  (127 <? c)%N = true → ∃ t, escapeOctets c = ch "%" :: t.
Proof.
  intros Hc. pose proof (escapeOctets_sequences c) as Hs.
  pose proof (utf8Encode_length c Hc) as Hl.
  destruct (escapeOctets c) as [|x t] eqn:E.
  - unfold escapeOctets in E. destruct (utf8Encode c); [simpl in Hl; lia|done].
  - inversion Hs; subst. by eexists.
Qed.

(** A string the second pass leaves as it is has nothing to escape. *)
Lemma escapeLoop_fixed_scan src :
  escapeLoop src = src → ∀ n b, scanPattern src n b = (n, b).
Proof.
  induction src as [|c rest IH IH3] using escape_ind; intros Hfix n b;
    [done|].
  rewrite scanPattern_cons. rewrite escapeLoop_cons in Hfix.
  destruct (sequenceAhead c rest) eqn:Hseq.
  - apply sequenceAhead_inv in Hseq as (h1 & h2 & rest' & -> & _).
    simpl in Hfix. injection Hfix as Hh1 Hh2 Hrest.
    change (drop 2 (h1 :: h2 :: rest')) with rest'. cbn [take existsb].
    rewrite (asciiToUpper_fixed h1 Hh1), (asciiToUpper_fixed h2 Hh2).
    by apply (IH3 h1 h2 rest').
  - destruct (127 <? c)%N eqn:Hc.
    + destruct (escapeOctets_head c Hc) as [t Ht]. rewrite Ht in Hfix.
      injection Hfix as <- _. done.
    + injection Hfix as Hrest. by apply IH.
Qed.

(** A string with nothing to escape is left as it is. *)
Lemma scan_clean_escapeLoop src : ∀ n,
  scanPattern src n false = (n, false) → escapeLoop src = src.
Proof.
  induction src as [|c rest IH IH3] using escape_ind; intros n Hscan;
    [done|].
  rewrite scanPattern_cons in Hscan. rewrite escapeLoop_cons.
  destruct (sequenceAhead c rest) eqn:Hseq.
  - apply sequenceAhead_inv in Hseq as (h1 & h2 & rest' & -> & _).
    change (drop 2 (h1 :: h2 :: rest')) with rest' in *.
    cbn [take existsb] in *. rewrite orb_false_r in Hscan.
    destruct (isLower h1 || isLower h2) eqn:Hlow.
    { pose proof (scanPattern_mono rest' n true) as [_ Hb].
      rewrite Hscan in Hb. by specialize (Hb eq_refl). }
    apply orb_false_iff in Hlow as [Hl1 Hl2].
    simpl. unfold asciiToUpper. unfold isLower in Hl1, Hl2.
    unfold isAsciiLower. rewrite Hl1, Hl2.
    by rewrite (IH3 h1 h2 rest' eq_refl n).
  - destruct (127 <? c)%N.
    + pose proof (scanPattern_mono rest (S n) false) as [Hn _].
      rewrite Hscan in Hn. simpl in Hn. lia.
    + by rewrite (IH n).
Qed.

Lemma escaped_escapeLoop src :
  escaped (maybeEscapePattern src) = escapeLoop src.
Proof.
  unfold maybeEscapePattern.
  destruct (scanPattern src 0 false) as [n b] eqn:Hscan.
  destruct (bool_decide (n = 0) && negb b) eqn:Hclean; [|done].
  apply andb_true_iff in Hclean as [->%bool_decide_eq_true Hb].
  destruct b; [done|]. simpl. symmetry. by apply (scan_clean_escapeLoop src 0).
Qed.

(** X5: the flag [wasEscaped] of [maybeEscapePattern] is exact: it is
    false exactly when the string returned is the source. *)
Theorem wasEscaped_iff_changed (src : list N) :
  wasEscaped (maybeEscapePattern src) = false
  ↔ escaped (maybeEscapePattern src) = src.
Proof.
  rewrite escaped_escapeLoop. unfold maybeEscapePattern.
  destruct (scanPattern src 0 false) as [n b] eqn:Hscan.
  destruct (bool_decide (n = 0) && negb b) eqn:Hclean.
  - apply andb_true_iff in Hclean as [->%bool_decide_eq_true Hb].
    destruct b; [done|]. simpl. split; [|done]. intros _.
    by apply (scan_clean_escapeLoop src 0).
  - simpl. split; [done|]. intros Hfix.
    rewrite (escapeLoop_fixed_scan src Hfix) in Hscan.
    injection Hscan as <- <-. done.
Qed.

Lemma asciiToUpper_bound h : (h < 128)%N → (asciiToUpper h < 128)%N.
Proof. unfold asciiToUpper. destruct (isAsciiLower h); lia. Qed.

Lemma isHexDigit_bound h : isHexDigit h = true → (h < 128)%N.
Proof.
  unfold isHexDigit. change (ch "9") with 57%N. change (ch "F") with 70%N.
  change (ch "f") with 102%N.
  intros [[[_ ?%N.leb_le]%andb_true_iff|[_ ?%N.leb_le]%andb_true_iff]
            %orb_true_iff|[_ ?%N.leb_le]%andb_true_iff]%orb_true_iff; lia.
Qed.

Lemma escapeSequences_bound t :
  escapeSequences t → Forall (λ c, (c < 128)%N) t.
Proof.
  induction 1; [constructor|]. repeat (constructor; [done|]). done.
Qed.

(** X6: the string [maybeEscapePattern] returns has only code units below
    128, whatever the source. *)
Theorem maybeEscapePattern_ascii (src : list N) :
  Forall (λ c, (c < 128)%N) (escaped (maybeEscapePattern src)).
Proof.
  rewrite escaped_escapeLoop.
  induction src as [|c rest IH IH3] using escape_ind; [constructor|].
  rewrite escapeLoop_cons. destruct (sequenceAhead c rest) eqn:Hseq.
  - apply sequenceAhead_inv in Hseq as (h1 & h2 & rest' & -> & -> & H1 & H2).
    simpl. repeat constructor.
    + by apply asciiToUpper_bound, isHexDigit_bound.
    + by apply asciiToUpper_bound, isHexDigit_bound.
    + by apply (IH3 h1 h2 rest').
  - destruct (N.ltb_spec 127 c).
    + apply Forall_app. split; [|done].
      apply escapeSequences_bound, escapeOctets_sequences.
    + constructor; [lia|done].
Qed.

Lemma sequenceAhead_hex c h1 h2 rest :
  sequenceAhead c (h1 :: h2 :: rest)
  = (c =? ch "%")%N && isHexDigit h1 && isHexDigit h2.
Proof. done. Qed.

Lemma asciiToUpper_idemp h : asciiToUpper (asciiToUpper h) = asciiToUpper h.
Proof.
  unfold asciiToUpper at 2 3. destruct (isAsciiLower h) eqn:Hl; [|by unfold asciiToUpper; rewrite Hl].
  unfold asciiToUpper, isAsciiLower in *.
  apply andb_true_iff in Hl as [?%N.leb_le ?%N.leb_le].
  change (ch "a") with 97%N in *. change (ch "z") with 122%N in *.
  destruct (N.leb_spec 97 (h - 32)); [lia|done].
Qed.

Lemma isHexDigit_asciiToUpper h :
  isHexDigit h = true → isHexDigit (asciiToUpper h) = true.
Proof.
  unfold isHexDigit, asciiToUpper, isAsciiLower.
  change (ch "0") with 48%N. change (ch "9") with 57%N.
  change (ch "A") with 65%N. change (ch "F") with 70%N.
  change (ch "a") with 97%N. change (ch "f") with 102%N.
  change (ch "z") with 122%N.
  rewrite !orb_true_iff, !andb_true_iff, !N.leb_le.
  intros Hh. destruct (N.leb_spec 97 h), (N.leb_spec h 122); simpl;
    rewrite ?orb_true_iff, ?andb_true_iff, ?N.leb_le; lia.
Qed.

(** Escape sequences in upper case are kept by the second pass. *)
Lemma escapeLoop_sequences t r :
  escapeSequences t → escapeLoop (t ++ r) = t ++ escapeLoop r.
Proof.
  induction 1 as [|X Y t HX HY HuX HuY _ _ _ IH]; [done|].
  rewrite <- !app_comm_cons, escapeLoop_cons, sequenceAhead_hex.
  rewrite N.eqb_refl, HX, HY. simpl. by rewrite drop_0, HuX, HuY, IH.
Qed.

(** What the second pass writes for a character starts with [%] or with
    the character. *)
Lemma escapeLoop_head x r :
  ∃ t, escapeLoop (x :: r) = ch "%" :: t ∨ escapeLoop (x :: r) = x :: t.
Proof.
  rewrite escapeLoop_cons. destruct (sequenceAhead x r); [eexists; by right|].
  destruct (127 <? x)%N eqn:Hx; [|eexists; by right].
  destruct (escapeOctets_head x Hx) as [t ->]. eexists. by left.
Qed.

(** No escape sequence arises behind a [%] that did not start one. *)
Lemma sequenceAhead_escapeLoop rest :
  sequenceAhead (ch "%") rest = false →
  sequenceAhead (ch "%") (escapeLoop rest) = false.
Proof.
  assert (Hpercent : isHexDigit (ch "%") = false) by done.
  destruct rest as [|a [|b r]]; [done| |].
  - intros _. rewrite escapeLoop_cons. cbn [sequenceAhead].
    destruct (127 <? a)%N eqn:Ha; [|done].
    destruct (escapeOctets_head a Ha) as [t' ->]. rewrite <- app_comm_cons.
    destruct (t' ++ _); [done|]. by rewrite sequenceAhead_hex, Hpercent.
  - rewrite sequenceAhead_hex, N.eqb_refl. cbn [andb]. intros Hab.
    rewrite escapeLoop_cons. destruct (sequenceAhead a (b :: r)) eqn:Hseq.
    { apply sequenceAhead_inv in Hseq as (? & ? & ? & _ & -> & _).
      destruct (_ ++ _); [done|].
      by rewrite sequenceAhead_hex, Hpercent. }
    destruct (127 <? a)%N eqn:Ha.
    { destruct (escapeOctets_head a Ha) as [t' ->]. rewrite <- app_comm_cons.
      destruct (t' ++ _); [done|]. by rewrite sequenceAhead_hex, Hpercent. }
    destruct (escapeLoop_head b r) as [t [->| ->]];
      rewrite sequenceAhead_hex, N.eqb_refl; cbn [andb].
    + by rewrite Hpercent, andb_false_r.
    + done.
Qed.

Lemma escapeLoop_idemp src : escapeLoop (escapeLoop src) = escapeLoop src.
Proof.
  induction src as [|c rest IH IH3] using escape_ind; [done|].
  rewrite (escapeLoop_cons c rest). destruct (sequenceAhead c rest) eqn:Hseq.
  - apply sequenceAhead_inv in Hseq as (h1 & h2 & rest' & -> & -> & H1 & H2).
    change (drop 2 (h1 :: h2 :: rest')) with rest'.
    change (asciiToUpper <$> take 2 (h1 :: h2 :: rest'))
      with [asciiToUpper h1; asciiToUpper h2].
    cbn [app]. rewrite escapeLoop_cons, sequenceAhead_hex, N.eqb_refl.
    rewrite !isHexDigit_asciiToUpper by done. cbn [andb].
    change (drop 2 (?a :: ?b :: ?l)) with l.
    change (asciiToUpper <$> take 2 (?a :: ?b :: ?l))
      with [asciiToUpper a; asciiToUpper b].
    cbn [app].
    by rewrite !asciiToUpper_idemp, (IH3 h1 h2 rest').
  - destruct (127 <? c)%N eqn:Hc.
    + rewrite escapeLoop_sequences by apply escapeOctets_sequences.
      by rewrite IH.
    + rewrite escapeLoop_cons, Hc, IH.
      destruct (sequenceAhead c (escapeLoop rest)) eqn:Hseq'; [|done].
      assert (c = ch "%") as ->.
      { by apply sequenceAhead_inv in Hseq' as (? & ? & ? & _ & -> & _). }
      by rewrite sequenceAhead_escapeLoop in Hseq'.
Qed.

(** X7: [maybeEscapePattern] normalises: applied to a string it returned,
    it finds nothing to escape and returns that string. *)
Theorem maybeEscapePattern_idempotent (src : list N) :
  maybeEscapePattern (escaped (maybeEscapePattern src))
  = {| escaped := escaped (maybeEscapePattern src); wasEscaped := false |}.
Proof.
  rewrite escaped_escapeLoop. unfold maybeEscapePattern.
  by rewrite (escapeLoop_fixed_scan _ (escapeLoop_idemp src)).
Qed.

End Escape.


(** ** url-utils.ts: [getPathParamsQuery] *)

Section PathParamsQuery.
Import UrlUtils.

Lemma idx_of_nat_ne (n : nat) : (Z.of_nat n =? -1)%Z = false.
Proof. apply Z.eqb_neq. lia. Qed.

Lemma Z_ltb_of_nat (a b : nat) : (Z.of_nat a <? Z.of_nat b)%Z = (a <? b).
Proof. destruct (Z.ltb_spec (Z.of_nat a) (Z.of_nat b)), (Nat.ltb_spec a b); lia. Qed.

(** [getPathParamsQuery] in terms of the positions. *)
Lemma getPathParamsQuery_positions url :
  getPathParamsQuery url
  = match pathStartOf url with
    | None => str "/"
    | Some pathStart =>
        match hashPosOf url with
        | Some hashPos =>
            if hashPos <? pathStart then str "/"
            else pathBetween url pathStart hashPos
        | None => pathBetween url pathStart (length url)
        end
    end.
Proof.
  assert (Hpe : ∀ ss : nat,
    (let earlyPath := idx ((λ i, ss + i) <$> findPathChar (drop ss url)) in
     let protocolEnd := idx (indexOfFrom (str "://") url ss) in
     let protocolEnd :=
       if negb (earlyPath =? -1)%Z && (earlyPath <? protocolEnd)%Z
       then (-1)%Z else protocolEnd in
     if (protocolEnd =? -1)%Z then Z.of_nat ss else (protocolEnd + 3)%Z)
    = Z.of_nat
        match indexOfStr (str "://") (drop ss url) with
        | Some j =>
            match findPathChar (drop ss url) with
            | Some i => if i <? j then ss else ss + j + 3
            | None => ss + j + 3
            end
        | None => ss
        end).
  { intros ss. cbv zeta. unfold indexOfFrom.
    destruct (indexOfStr (str "://") (drop ss url)) as [j|],
      (findPathChar (drop ss url)) as [i|];
      cbn [fmap option_fmap option_map idx]; rewrite ?idx_of_nat_ne;
      change (-1 =? -1)%Z with true;
      cbn [negb andb]; rewrite ?Z_ltb_of_nat, ?idx_of_nat_ne.
    - replace (ss + i <? ss + j) with (i <? j)
        by (destruct (Nat.ltb_spec i j), (Nat.ltb_spec (ss + i) (ss + j)); lia).
      destruct (i <? j); [done|]. rewrite idx_of_nat_ne. lia.
    - lia.
    - by destruct (_ <? _)%Z.
    - done. }
  cbv zeta in Hpe. unfold getPathParamsQuery. cbv zeta. unfold slice_from.
  fold (searchStartOf url). rewrite (Hpe (searchStartOf url)).
  fold (protocolEndOf url). rewrite Nat2Z.id. fold (pathStartOf url).
  destruct (pathStartOf url) as [pathStart|]; [|done].
  cbn [idx]. rewrite idx_of_nat_ne. cbn [negb]. unfold indexOfFrom.
  fold (hashPosOf url). rewrite Nat2Z.id. fold (hashPosOf url).
  destruct (hashPosOf url) as [hashPos|]; cbn [idx].
  - rewrite idx_of_nat_ne, Z_ltb_of_nat. cbn [negb andb].
    destruct (hashPos <? pathStart); [done|]. rewrite Nat2Z.id.
    unfold pathBetween. by destruct (bool_decide _).
  - change (-1 =? -1)%Z with true. cbn [negb andb]. rewrite Nat2Z.id.
    unfold pathBetween. by destruct (bool_decide _).
Qed.


Lemma findPathChar_app s t :
  Forall (λ c, isPathChar c = false) s →
  findPathChar (s ++ t) = (λ i, length s + i) <$> findPathChar t.
Proof.
  induction 1 as [|c s Hc Hs IH]; simpl.
  { by destruct (findPathChar t). }
  rewrite Hc, IH. by destruct (findPathChar t).
Qed.

Lemma indexOfStr_char_app c s t :
  c ∉ s →
  indexOfStr [c] (s ++ t) = (λ i, length s + i) <$> indexOfStr [c] t.
Proof.
  induction s as [|a s IH]; intros Hc.
  { simpl. by destruct (indexOfStr [c] t). }
  apply not_elem_of_cons in Hc as [Hac Hc]. simpl.
  apply not_eq_sym, N.eqb_neq in Hac. rewrite Hac. simpl.
  rewrite (IH Hc). by destruct (indexOfStr [c] t).
Qed.

Lemma indexOfStr_fragment c f :
  f = [] ∨ head f = Some c →
  indexOfStr [c] f = if bool_decide (f = []) then None else Some 0.
Proof.
  intros [->|Hf]; [done|]. destruct f as [|a f]; [done|].
  injection Hf as ->. simpl. by rewrite N.eqb_refl.
Qed.

(** The end of the path when the URL is [pre ++ f], [pre] without [#] and
    [f] empty or a fragment. *)
Lemma hashPosOf_fragment pre f :
  searchStartOf (pre ++ f) = 0 → ch "#" ∉ pre →
  f = [] ∨ head f = Some (ch "#") →
  hashPosOf (pre ++ f) = if bool_decide (f = []) then None
                         else Some (length pre).
Proof.
  intros Hss Hpre Hf. unfold hashPosOf. rewrite Hss, drop_0.
  rewrite indexOfStr_char_app, indexOfStr_fragment by done.
  destruct (bool_decide (f = [])); [done|]. simpl. by rewrite Nat.add_0_r.
Qed.

Lemma pathBetween_fragment pre p f :
  (if bool_decide (f = []) then
     pathBetween ((pre ++ p) ++ f) (length pre) (length ((pre ++ p) ++ f))
   else pathBetween ((pre ++ p) ++ f) (length pre) (length (pre ++ p)))
  = if bool_decide (head (p ++ f) = Some (ch "/")) then p
    else str "/" ++ p.
Proof.
  unfold pathBetween, slice.
  rewrite <- (app_assoc pre p f), lookup_app_r, Nat.sub_diag by lia.
  rewrite drop_app_length, <- head_lookup.
  destruct (bool_decide (head (p ++ f) = Some (ch "/")));
    case_bool_decide as Hf; subst; rewrite !length_app, ?app_nil_r;
    rewrite ?(take_ge p) by (simpl; lia);
    try (replace (length pre + length p - length pre) with (length p) by lia;
         by rewrite take_app_length); done.
Qed.

(** The result when the path starts right behind [pre]. *)
Lemma getPathParamsQuery_at pre p f :
  searchStartOf ((pre ++ p) ++ f) = 0 →
  pathStartOf ((pre ++ p) ++ f) = Some (length pre) →
  ch "#" ∉ pre ++ p → f = [] ∨ head f = Some (ch "#") →
  getPathParamsQuery ((pre ++ p) ++ f)
  = if bool_decide (head (p ++ f) = Some (ch "/")) then p else str "/" ++ p.
Proof.
  intros Hss Hps Hhash Hf.
  rewrite getPathParamsQuery_positions, Hps, hashPosOf_fragment by done.
  pose proof (pathBetween_fragment pre p f) as Hb.
  destruct (bool_decide (f = [])); [done|].
  by rewrite (proj2 (Nat.ltb_ge _ _)) by (rewrite length_app; lia).
Qed.

(** X8: a path is its own path: for a string that starts with one [/]
    (not two) and holds no [#], followed by nothing or by a fragment,
    [getPathParamsQuery] returns the string without the fragment. *)
Theorem getPathParamsQuery_of_path (p f : list N) :
  head p = Some (ch "/") → p !! 1 ≠ Some (ch "/") → ch "#" ∉ p →
  f = [] ∨ head f = Some (ch "#") →
  getPathParamsQuery (p ++ f) = p.
Proof.
  intros Hhead Hsecond Hhash Hf.
  destruct p as [|c p]; [done|]. injection Hhead as ->.
  assert (Hss : searchStartOf ((ch "/" :: p) ++ f) = 0).
  { unfold searchStartOf. rewrite (bool_decide_eq_false_2 (_ !! 1 = _)).
    - by rewrite andb_false_r.
    - destruct p as [|b p]; [|done]. simpl.
      destruct Hf as [->|Hf]; [done|]. destruct f; [done|].
      injection Hf as ->. done. }
  assert (Hpe : protocolEndOf ((ch "/" :: p) ++ f) = 0).
  { unfold protocolEndOf. rewrite Hss. cbv zeta. rewrite drop_0.
    change (findPathChar ((ch "/" :: p) ++ f)) with (Some 0).
    rewrite <- app_comm_cons. cbn [indexOfStr].
    change (startsWith (ch "/" :: p ++ f) (str "://")) with false.
    cbv iota. by destruct (indexOfStr (str "://") (p ++ f)). }
  pose proof (getPathParamsQuery_at [] (ch "/" :: p) f) as Hat.
  rewrite app_nil_l in Hat. cbn [length] in Hat. rewrite Hat; try done.
  unfold pathStartOf. by rewrite Hpe, drop_0.
Qed.

Lemma getPathParamsQuery_of_path_witness :
  head (str "/a/b?c=d") = Some (ch "/")
  ∧ str "/a/b?c=d" !! 1 ≠ Some (ch "/")
  ∧ (ch "#" ∉ str "/a/b?c=d")
  ∧ (str "#top" = [] ∨ head (str "#top") = Some (ch "#"))
  ∧ getPathParamsQuery (str "/a/b?c=d" ++ str "#top") = str "/a/b?c=d".
Proof.
  assert (H1 : head (str "/a/b?c=d") = Some (ch "/")) by reflexivity.
  assert (H2 : str "/a/b?c=d" !! 1 ≠ Some (ch "/"))
    by (vm_compute; discriminate).
  assert (H3 : ch "#" ∉ str "/a/b?c=d")
    by (apply (bool_decide_unpack _); by vm_compute).
  assert (H4 : str "#top" = [] ∨ head (str "#top") = Some (ch "#"))
    by (right; reflexivity).
  repeat (split; [assumption|]).
  exact (getPathParamsQuery_of_path _ _ H1 H2 H3 H4).
Defined.


Lemma indexOfStr_separator scheme t :
  Forall (λ c, isPathChar c = false) scheme →
  indexOfStr (str "://") (scheme ++ str "://" ++ t) = Some (length scheme).
Proof.
  induction 1 as [|c s Hc Hs IH]; [done|].
  rewrite <- app_comm_cons. cbn [indexOfStr]. rewrite IH.
  replace (startsWith (c :: s ++ str "://" ++ t) (str "://")) with false;
    [done|].
  cbn [str startsWith]. destruct (c =? ch ":")%N; [|done]. cbn [andb].
  destruct Hs as [|c' s Hc' _]; [done|]. simpl.
  unfold isPathChar in Hc'. by destruct (c' =? ch "/")%N.
Qed.

Lemma searchStartOf_no_slash url :
  head url ≠ Some (ch "/") → searchStartOf url = 0.
Proof.
  intros Hhead. unfold searchStartOf. rewrite <- head_lookup.
  by rewrite (bool_decide_eq_false_2 (head url = _)), andb_false_r by done.
Qed.

Lemma isPathChar_slash_false c : isPathChar c = false → c ≠ ch "/".
Proof. intros Hc ->. done. Qed.

(** The positions for a URL [scheme://rest] whose scheme has none of [/],
    [?] and [;]. *)
Lemma positions_of_url scheme rest :
  Forall (λ c, isPathChar c = false) scheme →
  let url := scheme ++ str "://" ++ rest in
  searchStartOf url = 0
  ∧ pathStartOf url
    = (λ i, length (scheme ++ str "://") + i) <$> findPathChar rest.
Proof.
  intros Hscheme url.
  assert (Hss : searchStartOf url = 0).
  { apply searchStartOf_no_slash. subst url.
    destruct Hscheme as [|c s Hc _]; [done|]. simpl.
    intros [= ->]. done. }
  split; [done|].
  assert (Hpe : protocolEndOf url = length (scheme ++ str "://")).
  { unfold protocolEndOf. rewrite Hss. cbv zeta. rewrite drop_0. subst url.
    rewrite indexOfStr_separator, findPathChar_app by done.
    cbn [str app findPathChar]. change (isPathChar (ch ":")) with false.
    change (isPathChar (ch "/")) with true. cbn [fmap option_fmap option_map].
    rewrite (proj2 (Nat.ltb_ge _ _)) by lia. rewrite length_app. simpl. lia. }
  unfold pathStartOf. rewrite Hpe. subst url.
  by rewrite (app_assoc scheme), drop_app_length.
Qed.

(** X9: the scheme and the authority of a URL are removed: for a URL
    [scheme://host] followed by a path (or parameters or a query) and
    then by nothing or a fragment, where scheme and host hold none of [/],
    [?], [;] and nothing before the fragment holds a [#],
    [getPathParamsQuery] returns the path, with a [/] put in front when
    it does not start with one; without path it returns [/]. *)
Theorem getPathParamsQuery_of_url (scheme host p f : list N) :
  Forall (λ c, isPathChar c = false) (scheme ++ host) →
  ch "#" ∉ scheme ++ host ++ p →
  (∀ c, head p = Some c → isPathChar c = true) →
  f = [] ∨ head f = Some (ch "#") →
  getPathParamsQuery (scheme ++ str "://" ++ host ++ p ++ f)
  = if bool_decide (head p = Some (ch "/")) then p else str "/" ++ p.
Proof.
  intros [Hscheme Hhost]%Forall_app Hhash Hp Hf.
  destruct (positions_of_url scheme (host ++ p ++ f) Hscheme) as [Hss Hps].
  cbv zeta in Hss, Hps. rewrite findPathChar_app in Hps by done.
  assert (Hsep : ch "#" ∉ str "://")
    by (apply (bool_decide_unpack _); by vm_compute).
  assert (Hpre : ch "#" ∉ scheme ++ str "://" ++ host).
  { rewrite !elem_of_app in *. tauto. }
  set (pre := scheme ++ str "://" ++ host) in *.
  assert (Hurl : scheme ++ str "://" ++ host ++ p ++ f = (pre ++ p) ++ f).
  { subst pre. by rewrite <- !app_assoc. }
  assert (Hlen : length pre = length (scheme ++ str "://") + length host).
  { subst pre. rewrite !length_app. simpl. lia. }
  rewrite Hurl in *. destruct p as [|c p].
  - rewrite app_nil_r in *. cbn [app] in Hps.
    rewrite getPathParamsQuery_positions, Hps, hashPosOf_fragment by done.
    rewrite (bool_decide_eq_false_2 (head [] = _)) by done.
    destruct Hf as [->|Hf]; [done|]. destruct f as [|h f]; [done|].
    injection Hf as ->. cbn [findPathChar].
    change (isPathChar (ch "#")) with false. cbv iota.
    destruct (findPathChar f) as [i|]; [|done].
    cbn [fmap option_fmap option_map].
    rewrite (bool_decide_eq_false_2 (_ :: _ = [])) by done.
    by rewrite (proj2 (Nat.ltb_lt _ _)) by lia.
  - specialize (Hp c eq_refl). rewrite getPathParamsQuery_at; try done.
    + rewrite Hps. rewrite <- app_comm_cons. cbn [findPathChar].
      rewrite Hp. cbn [fmap option_fmap option_map]. f_equal. lia.
    + subst pre. rewrite !elem_of_app in *. tauto.
Qed.

Lemma getPathParamsQuery_of_url_witness :
  Forall (λ c, isPathChar c = false) (str "https" ++ str "www.example.com")
  ∧ (ch "#" ∉ str "https" ++ str "www.example.com" ++ str "?q=1")
  ∧ (∀ c, head (str "?q=1") = Some c → isPathChar c = true)
  ∧ (str "#top" = [] ∨ head (str "#top") = Some (ch "#"))
  ∧ getPathParamsQuery
      (str "https" ++ str "://" ++ str "www.example.com" ++ str "?q=1"
       ++ str "#top")
    = str "/?q=1".
Proof.
  assert (H1 : Forall (λ c, isPathChar c = false)
                 (str "https" ++ str "www.example.com"))
    by (apply (bool_decide_unpack _); by vm_compute).
  assert (H2 : ch "#" ∉ str "https" ++ str "www.example.com" ++ str "?q=1")
    by (apply (bool_decide_unpack _); by vm_compute).
  assert (H3 : ∀ c, head (str "?q=1") = Some c → isPathChar c = true)
    by (intros c [= <-]; reflexivity).
  assert (H4 : str "#top" = [] ∨ head (str "#top") = Some (ch "#"))
    by (right; reflexivity).
  repeat (split; [assumption|]).
  exact (getPathParamsQuery_of_url _ _ _ _ H1 H2 H3 H4).
Defined.


Lemma indexOfStr_char_first c s :
  ∀ k, k < default (length s) (indexOfStr [c] s) → s !! k ≠ Some c.
Proof.
  induction s as [|a s IH]; intros k; [simpl; lia|].
  cbn [indexOfStr startsWith]. rewrite andb_true_r.
  destruct (N.eqb_spec a c) as [->|Hac]; [simpl; lia|].
  destruct k as [|k]; [intros _ [= ?]; done|].
  specialize (IH k). destruct (indexOfStr [c] s); simpl in *; intros ?;
    apply IH; lia.
Qed.

Lemma protocolEndOf_ge url : searchStartOf url ≤ protocolEndOf url.
Proof. unfold protocolEndOf. cbv zeta. repeat case_match; lia. Qed.

(** X10: the fragment is never part of the result: what
    [getPathParamsQuery] returns holds no [#]. *)
Theorem getPathParamsQuery_no_fragment (url : list N) :
  ch "#" ∉ getPathParamsQuery url.
Proof.
  assert (Hslash : ch "#" ∉ str "/")
    by (apply (bool_decide_unpack _); by vm_compute).
  rewrite getPathParamsQuery_positions.
  destruct (pathStartOf url) as [pathStart|] eqn:Hps; [|done].
  assert (Hge : searchStartOf url ≤ pathStart).
  { unfold pathStartOf in Hps. pose proof (protocolEndOf_ge url).
    destruct (findPathChar _); [|done]. injection Hps as <-. lia. }
  assert (Hbetween : ∀ pathEnd,
    pathEnd ≤ default (length url) (hashPosOf url) →
    ch "#" ∉ pathBetween url pathStart pathEnd).
  { intros pathEnd Hend.
    assert (Hslice : ch "#" ∉ slice url pathStart pathEnd).
    { unfold slice. intros (k & Hk)%list_elem_of_lookup_1.
      apply lookup_take_Some in Hk as [Hk Hlt]. rewrite lookup_drop in Hk.
      pose proof (lookup_lt_Some _ _ _ Hk) as Hlen.
      apply (indexOfStr_char_first (ch "#") (drop (searchStartOf url) url)
               (pathStart + k - searchStartOf url)).
      - unfold hashPosOf in Hend. rewrite length_drop.
        destruct (indexOfStr _ _); simpl in *; lia.
      - rewrite lookup_drop. rewrite <- Hk. f_equal. lia. }
    unfold pathBetween. destruct (bool_decide _); [done|].
    rewrite elem_of_app. tauto. }
  destruct (hashPosOf url) as [hashPos|] eqn:Hhash.
  - destruct (hashPos <? pathStart); [done|]. by apply Hbetween.
  - by apply Hbetween.
Qed.

End PathParamsQuery.


(** ** parser.ts: the callbacks of a parse *)

Section Replay.
Context `{CM : CaseMapping} {H : Type} `{RPH : RobotsParseHandler H}.

Lemma replay_app (es1 es2 : list ParseEvent) (h : H) :
  replay (es1 ++ es2) h = replay es2 (replay es1 h).
Proof. apply foldl_app. Qed.

Lemma parseAndEmitLine_replay n line tooLong (h : H) :
  RobotsTxtParser.parseAndEmitLine n line tooLong h
  = replay (lineEvents n line tooLong) h.
Proof.
  unfold lineEvents. rewrite parseAndEmitLine_events. cbv zeta.
  unfold RobotsTxtParser.parseAndEmitLine. cbv zeta.
  change (hasDirective (set_isLineTooLong tooLong ?m)) with (hasDirective m).
  destruct (hasDirective _); cbn [negb]; [|done].
  destruct (ParsedRobotsKey.type _); by cbn.
Qed.

Lemma emitLines_replay ls : ∀ n (h : H),
  emitLines n ls h = replay (truncatedLineEvents n ls) h.
Proof.
  induction ls as [|l ls IH]; intros n h; [done|].
  cbn [emitLines truncatedLineEvents].
  by rewrite replay_app, <- parseAndEmitLine_replay, IH.
Qed.

Lemma parseRobotsTxt_replay_events (robotsBody : list N) (handler : H) :
  parseRobotsTxt robotsBody handler
  = replay (parseEvents robotsBody) handler.
Proof.
  rewrite parseRobotsTxt_logicalLines, parseEvents_logicalLines.
  by rewrite !replay_app, emitLines_replay.
Qed.

(** X11: the callbacks of a parse do not depend on the handler: for every
    handler, [parseRobotsTxt] leaves it in the state that results from
    delivering to it, in order, the events a recording handler receives
    for the same text. *)
Theorem parseRobotsTxt_replay (robotsBody : list N) (handler : H) :
  parseRobotsTxt robotsBody handler
  = replay (parseEvents robotsBody) handler.
Proof. apply parseRobotsTxt_replay_events. Qed.

End Replay.

Section Callbacks.
Context `{CM : CaseMapping}.

Lemma lineEvents_callbacks n line tooLong :
  lineCallbacks n (lineEvents n line tooLong).
Proof.
  unfold lineEvents, lineCallbacks. rewrite parseAndEmitLine_events.
  cbv zeta. destruct (hasDirective _) eqn:Hd; [right|left].
  - eexists _, _. split; [reflexivity|]. split; [|split; [|exact Hd]].
    + by destruct (ParsedRobotsKey.type _).
    + by destruct (ParsedRobotsKey.type _).
  - eexists. split; [reflexivity|exact Hd].
Qed.

Lemma truncatedLineEvents_groups ls : ∀ n,
  ∃ groups, truncatedLineEvents n ls = concat groups
            ∧ length groups = length ls
            ∧ ∀ i g, groups !! i = Some g → lineCallbacks (n + S i) g.
Proof.
  induction ls as [|l ls IH]; intros n.
  { exists []. by repeat split. }
  destruct (IH (n + 1)) as (groups & Heq & Hlen & Hgroups).
  exists (lineEvents (n + 1) (take maxLineContent l)
            (bool_decide (maxLineContent < length l)) :: groups).
  cbn [truncatedLineEvents concat length]. rewrite Heq, Hlen.
  repeat split. intros [|i] g Hg.
  - injection Hg as <-. apply lineEvents_callbacks.
  - replace (n + S (S i)) with (n + 1 + S i) by lia. by apply Hgroups.
Qed.

Lemma parseEvents_groups (text : list N) :
  ∃ groups,
    parseEvents text = [RobotsStart] ++ concat groups ++ [RobotsEnd]
    ∧ length groups = length (logicalLines (stripBOM text))
    ∧ 1 ≤ length groups
    ∧ ∀ i g, groups !! i = Some g → lineCallbacks (S i) g.
Proof.
  destruct (truncatedLineEvents_groups (logicalLines (stripBOM text)) 0)
    as (groups & Heq & Hlen & Hgroups).
  exists groups. rewrite parseEvents_logicalLines, Heq.
  repeat split; [done| |done].
  rewrite Hlen. unfold logicalLines.
  pose proof (logicalLinesFrom_nonempty false (stripBOM text)).
  destruct (logicalLinesFrom false (stripBOM text)); [done|simpl; lia].
Qed.

(** X12: the callbacks of a parse, line by line: after [handleRobotsStart]
    and before [handleRobotsEnd] every logical line of the text (there is
    at least one) gets, in order, its own callbacks with its own number,
    counted from 1: [reportLineMetadata] alone when the line holds no
    directive, else one directive callback and then
    [reportLineMetadata]. *)
Theorem parse_callbacks_by_line (text : list N) :
  ∃ groups,
    parseEvents text = [RobotsStart] ++ concat groups ++ [RobotsEnd]
    ∧ length groups = length (logicalLines (stripBOM text))
    ∧ 1 ≤ length groups
    ∧ ∀ i g, groups !! i = Some g → lineCallbacks (S i) g.
Proof. apply parseEvents_groups. Qed.

(** The metadata [getKeyAndValueFrom] builds. *)
Lemma getKeyAndValueFrom_metadata line :
  let md := RobotsTxtParser.metadata
              (RobotsTxtParser.getKeyAndValueFrom line) in
  isAcceptableTypo md = false ∧ isLineTooLong md = false
  ∧ (isEmpty md = true →
     hasComment md = false ∧ isComment md = false ∧ hasDirective md = false)
  ∧ (isComment md = true → hasComment md = true ∧ hasDirective md = false)
  ∧ (isMissingColonSeparator md = true → hasDirective md = true).
Proof.
  unfold RobotsTxtParser.getKeyAndValueFrom. cbv zeta.
  destruct (indexOf (ch "#") line) as [commentPos|];
    (destruct (bool_decide (length (trim _) = 0));
     [done|destruct (indexOf (ch ":") _);
           [by destruct (bool_decide _)|by repeat case_match]]).
Qed.

Lemma elem_of_truncatedLineEvents e ls : ∀ n,
  e ∈ truncatedLineEvents n ls →
  ∃ m line tooLong, e ∈ lineEvents m line tooLong.
Proof.
  induction ls as [|l ls IH]; intros n; [by intros ?%elem_of_nil|].
  cbn [truncatedLineEvents]. intros [He|He]%elem_of_app; [by eauto|].
  by apply (IH (n + 1)).
Qed.

(** X13: the flags of the metadata a handler receives are consistent: an
    empty line has no comment and no directive, a comment line has a
    comment and no directive, and a missing colon or an accepted typo is
    reported only for a line with a directive. *)
Theorem reported_metadata_consistent (text : list N) (n : nat)
    (md : LineMetadata) :
  ReportLineMetadata n md ∈ parseEvents text →
  (isEmpty md = true →
   hasComment md = false ∧ isComment md = false ∧ hasDirective md = false)
  ∧ (isComment md = true → hasComment md = true ∧ hasDirective md = false)
  ∧ (isMissingColonSeparator md = true → hasDirective md = true)
  ∧ (isAcceptableTypo md = true → hasDirective md = true).
Proof.
  rewrite parseEvents_logicalLines. intros Hin.
  apply elem_of_app in Hin as [Hin|Hin];
    [by apply list_elem_of_singleton in Hin|].
  apply elem_of_app in Hin as [Hin|Hin];
    [|by apply list_elem_of_singleton in Hin].
  apply elem_of_truncatedLineEvents in Hin as (m & line & tooLong & Hin).
  unfold lineEvents in Hin. rewrite parseAndEmitLine_events in Hin.
  cbv zeta in Hin. cbn [app] in Hin.
  destruct (getKeyAndValueFrom_metadata line)
    as (Htypo & _ & Hempty & Hcomment & Hcolon). cbv zeta in *.
  destruct (hasDirective _) eqn:Hd.
  - apply elem_of_cons in Hin as [Hin|Hin].
    { by destruct (ParsedRobotsKey.type _). }
    apply list_elem_of_singleton in Hin. injection Hin as _ ->.
    cbn. rewrite Hd. split; [|split; [|split]]; intros Hx; try done.
    + by destruct (Hempty Hx) as (_ & _ & ?).
    + by destruct (Hcomment Hx).
  - apply list_elem_of_singleton in Hin. injection Hin as _ ->.
    cbn. rewrite Hd, Htypo. split; [|split; [|split]]; intros Hx; try done.
    + by apply Hempty.
    + by apply Hcomment.
    + by apply Hcolon.
Qed.

End Callbacks.

Lemma reported_metadata_consistent_witness :
  let text := str "# only a comment" in
  let md := set_isComment true (set_hasComment true createLineMetadata) in
  ReportLineMetadata 1 md ∈ parseEvents (CM := asciiCaseMapping) text
  ∧ (isEmpty md = true →
     hasComment md = false ∧ isComment md = false ∧ hasDirective md = false)
  ∧ (isComment md = true → hasComment md = true ∧ hasDirective md = false)
  ∧ (isMissingColonSeparator md = true → hasDirective md = true)
  ∧ (isAcceptableTypo md = true → hasDirective md = true).
Proof.
  intros text md.
  assert (Hin : ReportLineMetadata 1 md
                ∈ parseEvents (CM := asciiCaseMapping) text).
  { assert (Hev : parseEvents (CM := asciiCaseMapping) text
                  = [RobotsStart; ReportLineMetadata 1 md; RobotsEnd])
      by (by vm_compute).
    rewrite Hev. apply list_elem_of_further, list_elem_of_here. }
  split; [exact Hin|].
  exact (reported_metadata_consistent (CM := asciiCaseMapping) text 1 md Hin).
Defined.

(** ** parser.ts: the line terminators *)

Lemma stripPrefixOf_unixNewlines mark : ∀ text,
  Forall (λ b, b ≠ 10%N ∧ b ≠ 13%N) mark →
  stripPrefixOf mark (unixNewlines text)
  = unixNewlines (stripPrefixOf mark text).
Proof.
  induction mark as [|b mark IH]; intros text Hmark.
  { by destruct text; destruct (unixNewlines _). }
  apply Forall_cons in Hmark as [[Hlf Hcr] Hmark].
  destruct text as [|c text]; [done|].
  destruct (N.eqb_spec c 13) as [->|Hc].
  - cbn [stripPrefixOf]. apply not_eq_sym, N.eqb_neq in Hcr. rewrite Hcr.
    cbn [unixNewlines]. change (13 =? 13)%N with true. cbv iota.
    apply not_eq_sym, N.eqb_neq in Hlf.
    destruct text as [|c' text]; cbn [stripPrefixOf]; [by rewrite Hlf|].
    destruct (c' =? 10)%N; cbn [stripPrefixOf]; by rewrite Hlf.
  - cbn [unixNewlines stripPrefixOf]. apply N.eqb_neq in Hc. rewrite Hc.
    cbn [stripPrefixOf]. destruct (c =? b)%N; [by apply IH|].
    cbn [unixNewlines]. by rewrite Hc.
Qed.

(** The text behind a carriage return, without the line feed that belongs
    to it. *)
Lemma logicalLinesFrom_unixNewlines text :
  logicalLinesFrom false (unixNewlines text) = logicalLinesFrom false text
  ∧ logicalLinesFrom true text
    = logicalLinesFrom false
        (unixNewlines match text with
                      | c :: rest => if (c =? 10)%N then rest else text
                      | [] => text
                      end).
Proof.
  induction text as [|c text [IHA IHB]]; [done|].
  assert (HA : logicalLinesFrom false (unixNewlines (c :: text))
               = logicalLinesFrom false (c :: text)).
  { cbn [unixNewlines]. destruct (N.eqb_spec c 13) as [->|Hc].
    - cbn [logicalLinesFrom]. change (13 =? 10)%N with false.
      change (13 =? 13)%N with true. cbv iota. rewrite IHB.
      destruct text as [|c' text]; [done|].
      by destruct (c' =? 10)%N.
    - cbn [logicalLinesFrom]. apply N.eqb_neq in Hc. by rewrite Hc, IHA. }
  split; [done|]. destruct (N.eqb_spec c 10) as [->|Hc].
  - cbn [logicalLinesFrom]. change (10 =? 10)%N with true. by cbv iota.
  - rewrite HA. cbn [logicalLinesFrom]. apply N.eqb_neq in Hc. by rewrite Hc.
Qed.

(** X14: the three line terminators are equivalent: a text parses like
    the text in which every [\r\n], every other [\r] and every [\n] is
    written as one [\n]; every handler ends in the same state. *)
Theorem parse_line_terminators `{CM : CaseMapping} {H : Type}
    `{RPH : RobotsParseHandler H} (text : list N) (handler : H) :
  parseRobotsTxt (unixNewlines text) handler = parseRobotsTxt text handler.
Proof.
  rewrite !parseRobotsTxt_logicalLines. unfold stripBOM, logicalLines.
  rewrite stripPrefixOf_unixNewlines
    by (repeat constructor; discriminate).
  by rewrite (proj1 (logicalLinesFrom_unixNewlines _)).
Qed.


(** ** matcher.ts: the user-agent names *)

Lemma extractUserAgent_prefix userAgent :
  ∃ rest, userAgent = extractUserAgent userAgent ++ rest
          ∧ Forall (λ c, isUserAgentChar c = true)
              (extractUserAgent userAgent)
          ∧ (∀ c, head rest = Some c → isUserAgentChar c = false).
Proof.
  induction userAgent as [|c ua (rest & Heq & Hall & Hnext)]; simpl.
  { exists []. by repeat split. }
  destruct (isUserAgentChar c) eqn:Hc.
  - exists rest. split; [simpl; by f_equal|]. split; [by constructor|done].
  - exists (c :: ua). repeat split; [constructor|]. by intros ? [= <-].
Qed.

Lemma extractUserAgent_fixed userAgent :
  extractUserAgent userAgent = userAgent
  ↔ Forall (λ c, isUserAgentChar c = true) userAgent.
Proof.
  induction userAgent as [|c ua IH]; simpl; [done|].
  rewrite Forall_cons. destruct (isUserAgentChar c); [|by split; [|intros []]].
  rewrite <- IH. split; [by intros [= ->]|by intros [_ ->]].
Qed.

(** X15: [isValidUserAgentToObey] accepts exactly the non-empty strings
    made of the characters [a-z], [A-Z], [-] and [_]. *)
Theorem isValidUserAgentToObey_iff
    (userAgent : list N) :
  RobotsMatcher.isValidUserAgentToObey userAgent = true
  ↔ userAgent ≠ [] ∧ Forall (λ c, isUserAgentChar c = true) userAgent.
Proof.
  unfold RobotsMatcher.isValidUserAgentToObey.
  rewrite <- extractUserAgent_fixed. case_bool_decide as Hlen.
  - apply length_zero_iff_nil in Hlen as ->. by split; [|intros []].
  - rewrite bool_decide_eq_true. split; [|tauto]. intros Heq. split; [|done].
    by intros ->.
Qed.

(** X16: the name [extractUserAgent] takes from a user-agent line is the
    longest prefix made of the characters [a-z], [A-Z], [-] and [_];
    extracting again changes nothing, and the name is valid to obey
    unless it is empty. *)
Theorem extractUserAgent_longest_valid_prefix
    (userAgent : list N) :
  (∃ rest, userAgent = extractUserAgent userAgent ++ rest
           ∧ Forall (λ c, isUserAgentChar c = true)
               (extractUserAgent userAgent)
           ∧ (∀ c, head rest = Some c → isUserAgentChar c = false))
  ∧ extractUserAgent (extractUserAgent userAgent)
    = extractUserAgent userAgent
  ∧ RobotsMatcher.isValidUserAgentToObey (extractUserAgent userAgent)
    = negb (bool_decide (extractUserAgent userAgent = [])).
Proof.
  destruct (extractUserAgent_prefix userAgent) as (rest & Heq & Hall & Hnext).
  split; [by exists rest|].
  assert (Hfix := proj2 (extractUserAgent_fixed _) Hall).
  split; [done|]. unfold RobotsMatcher.isValidUserAgentToObey.
  rewrite Hfix.
  rewrite (bool_decide_eq_true_2 (extractUserAgent userAgent = _)) by done.
  by destruct (extractUserAgent userAgent).
Qed.


(** ** parsed-robots.ts: checking a URL against a list of rules *)

Section BulkCheck.
Import ParsedRobots.

Lemma bestAmong_priority path kind rules b :
  bestAmong path kind rules b → (-1 ≤ bestPriority b)%Z.
Proof.
  intros [_ [->|(r & _ & _ & _ & ->)]]; simpl; [done|lia].
Qed.

Lemma elem_of_snoc {A} (x : A) l r : x ∈ l ++ [r] ↔ x ∈ l ∨ x = r.
Proof. by rewrite elem_of_app, list_elem_of_singleton. Qed.

Lemma bestAmong_snoc path kind rules r b :
  bestAmong path kind rules b →
  bestAmong path kind (rules ++ [r])
    (if matches path (pattern r) && bool_decide (isAllow r = kind)
        && (bestPriority b <? Z.of_nat (length (pattern r)))%Z
     then bestOfRule r else b).
Proof.
  intros Hb. pose proof (bestAmong_priority _ _ _ _ Hb) as Hge.
  destruct Hb as [Hmax Hfrom].
  destruct (matches path (pattern r)) eqn:Hm; cbn [andb].
  2:{ split.
      - intros x [Hx| ->]%elem_of_snoc ? ?;
          [by apply Hmax|congruence].
      - destruct Hfrom as [->|(x & ? & ? & ? & ->)]; [by left|right].
        exists x. rewrite elem_of_app. auto. }
  case_bool_decide as Hk; cbn [andb].
  2:{ split.
      - intros x [Hx| ->]%elem_of_snoc ? ?;
          [by apply Hmax|congruence].
      - destruct Hfrom as [->|(x & ? & ? & ? & ->)]; [by left|right].
        exists x. rewrite elem_of_app. auto. }
  destruct (Z.ltb_spec (bestPriority b) (Z.of_nat (length (pattern r))));
    cbv iota.
  - split.
    + intros x [Hx| ->]%elem_of_snoc Hxk Hxm; simpl; [|lia].
      specialize (Hmax x Hx Hxk Hxm). lia.
    + right. exists r. rewrite elem_of_app, list_elem_of_singleton. auto.
  - split.
    + intros x [Hx| ->]%elem_of_snoc ? ?;
        [by apply Hmax|lia].
    + destruct Hfrom as [->|(x & ? & ? & ? & ->)]; [by left|right].
      exists x. rewrite elem_of_app. auto.
Qed.

Lemma checkRule_cases path acc r :
  checkRule path acc r
  = (if matches path (pattern r) && bool_decide (isAllow r = true)
        && (bestPriority acc.1 <? Z.of_nat (length (pattern r)))%Z
     then bestOfRule r else acc.1,
     if matches path (pattern r) && bool_decide (isAllow r = false)
        && (bestPriority acc.2 <? Z.of_nat (length (pattern r)))%Z
     then bestOfRule r else acc.2).
Proof.
  unfold checkRule. destruct acc as [a d]. cbn [fst snd].
  destruct (matches path (pattern r)); [|done]. cbn [andb].
  destruct (isAllow r); simpl; by destruct (_ <? _)%Z.
Qed.

Lemma bestCandidates_bestAmong path rules :
  bestAmong path true rules (bestCandidates path rules).1
  ∧ bestAmong path false rules (bestCandidates path rules).2.
Proof.
  unfold bestCandidates.
  induction rules as [|r rules [IHa IHd]] using rev_ind.
  { split; (split; [by intros ? ?%elem_of_nil|by left]). }
  rewrite foldl_app. cbn [foldl]. rewrite checkRule_cases. cbn [fst snd].
  split; by apply bestAmong_snoc.
Qed.

(** X17: [checkSingleUrl] decides by the longest match, Allow winning a
    tie: the URL is allowed exactly when every Disallow rule of the list
    that matches its path is matched in length by some matching Allow
    rule. *)
Theorem checkSingleUrl_longest_match (u : list N)
    (rules : list ParsedRule) :
  let path := UrlUtils.getPathParamsQuery u in
  allowed (checkSingleUrl u rules) = true
  ↔ ∀ d, d ∈ rules → isAllow d = false →
         matches path (pattern d) = true →
         ∃ a, a ∈ rules ∧ isAllow a = true
              ∧ matches path (pattern a) = true
              ∧ length (pattern d) ≤ length (pattern a).
Proof.
  intros path. rewrite checkSingleUrl_allowed. cbv zeta. fold path.
  destruct (bestCandidates_bestAmong path rules) as [Ha Hd].
  pose proof (bestAmong_priority _ _ _ _ Ha) as Hge.
  destruct (bestCandidates path rules) as [ba bd]. cbn [fst snd] in *.
  rewrite Z.leb_le. destruct Ha as [Hamax Hafrom], Hd as [Hdmax Hdfrom].
  split.
  - intros Hle d Hin Hkind Hm. specialize (Hdmax d Hin Hkind Hm).
    destruct Hafrom as [->|(a & ? & ? & ? & ->)]; simpl in *;
      [unfold K_NO_MATCH_PRIORITY in *; lia|].
    exists a. repeat split; try done. lia.
  - intros Hcover.
    destruct Hdfrom as [->|(d & Hin & Hkind & Hm & ->)]; [done|].
    destruct (Hcover d Hin Hkind Hm) as (a & Hain & Hakind & Ham & Hlen).
    specialize (Hamax a Hain Hakind Ham). simpl. lia.
Qed.


Lemma checkSingleUrl_winner (u : list N)
    (rules : list ParsedRule) :
  let path := UrlUtils.getPathParamsQuery u in
  let r := checkSingleUrl u rules in
  url r = u
  ∧ ((matchedRuleType r = "none"%string ∧ allowed r = true
      ∧ matchingLine r = 0 ∧ matchedPattern r = []
      ∧ ∀ x, x ∈ rules → matches path (pattern x) = false)
     ∨ ∃ w, w ∈ rules ∧ matches path (pattern w) = true
            ∧ matchedRuleType r
              = (if isAllow w then "allow" else "disallow")%string
            ∧ allowed r = isAllow w
            ∧ matchingLine r = lineNumber w
            ∧ matchedPattern r = pattern w
            ∧ ∀ x, x ∈ rules → matches path (pattern x) = true →
                   length (pattern x) ≤ length (pattern w)).
Proof.
  intros path r. subst r. unfold checkSingleUrl. cbv zeta. fold path.
  destruct (bestCandidates_bestAmong path rules) as [Ha Hd].
  pose proof (bestAmong_priority _ _ _ _ Ha) as Hage.
  pose proof (bestAmong_priority _ _ _ _ Hd) as Hdge.
  destruct (bestCandidates path rules) as [ba bd]. cbn [fst snd] in *.
  destruct Ha as [Hamax Hafrom], Hd as [Hdmax Hdfrom].
  assert (Hmax : ∀ x, x ∈ rules → matches path (pattern x) = true →
            (Z.of_nat (length (pattern x))
             ≤ bestPriority ba `max` bestPriority bd)%Z).
  { intros x Hx Hm. destruct (isAllow x) eqn:Hk.
    - specialize (Hamax x Hx Hk Hm). lia.
    - specialize (Hdmax x Hx Hk Hm). lia. }
  destruct (Z.ltb_spec (bestPriority bd) (bestPriority ba)) as [Hlt|Hle];
    cbn [url allowed matchingLine matchedPattern matchedRuleType].
  { split; [done|right].
    destruct Hafrom as [->|(a & Hin & Hk & Hm & ->)];
      [unfold noBest, K_NO_MATCH_PRIORITY in *; simpl in *; lia|].
    exists a. rewrite Hk. simpl in *.
    repeat split; try done; [apply Z.leb_le; lia|].
    intros x Hx Hxm. specialize (Hmax x Hx Hxm). lia. }
  destruct (Z.ltb_spec (bestPriority ba) (bestPriority bd)) as [Hlt|Hge];
    cbn [url allowed matchingLine matchedPattern matchedRuleType].
  { split; [done|right].
    destruct Hdfrom as [->|(d & Hin & Hk & Hm & ->)];
      [unfold noBest, K_NO_MATCH_PRIORITY in *; simpl in *; lia|].
    exists d. rewrite Hk. simpl in *.
    repeat split; try done; [apply Z.leb_gt; lia|].
    intros x Hx Hxm. specialize (Hmax x Hx Hxm). lia. }
  destruct (Z.leb_spec 0 (bestPriority ba)) as [Hpos|Hneg];
    cbn [url allowed matchingLine matchedPattern matchedRuleType].
  { split; [done|right].
    destruct Hafrom as [->|(a & Hin & Hk & Hm & ->)];
      [unfold noBest, K_NO_MATCH_PRIORITY in *; simpl in *; lia|].
    exists a. rewrite Hk. simpl in *.
    repeat split; try done; [apply Z.leb_le; lia|].
    intros x Hx Hxm. specialize (Hmax x Hx Hxm). lia. }
  split; [done|left]. repeat split; try done; [apply Z.leb_le; lia|].
  intros x Hx. destruct (matches path (pattern x)) eqn:Hxm; [|done].
  specialize (Hmax x Hx Hxm). lia.
Qed.

(** X18: [checkSingleUrl] reports the rule that decided: when no rule of
    the list matches the path the result is "none", allowed, line 0 and
    an empty pattern; otherwise it names a matching rule of the list that
    no matching rule exceeds in length, with its line and pattern, and the
    URL is allowed exactly when that rule is an Allow rule. *)
Theorem checkSingleUrl_reports_winner (u : list N)
    (rules : list ParsedRule) :
  let path := UrlUtils.getPathParamsQuery u in
  let r := checkSingleUrl u rules in
  url r = u
  ∧ ((matchedRuleType r = "none"%string ∧ allowed r = true
      ∧ matchingLine r = 0 ∧ matchedPattern r = []
      ∧ ∀ x, x ∈ rules → matches path (pattern x) = false)
     ∨ ∃ w, w ∈ rules ∧ matches path (pattern w) = true
            ∧ matchedRuleType r
              = (if isAllow w then "allow" else "disallow")%string
            ∧ allowed r = isAllow w
            ∧ matchingLine r = lineNumber w
            ∧ matchedPattern r = pattern w
            ∧ ∀ x, x ∈ rules → matches path (pattern x) = true →
                   length (pattern x) ≤ length (pattern w)).
Proof. apply checkSingleUrl_winner. Qed.

End BulkCheck.

(** ** parsed-robots.ts: the agents of the index *)

Section AgentIndex.
Context `{CM : CaseMapping}.

(** Every group the collector has pushed holds a rule. *)
Lemma agentGroups_have_rules body h :
  Forall (λ g, rules g ≠ [])
    (agentGroups (parseRobotsTxt (H := RulesCollectorHandler) body h)).
Proof.
  assert (Hfin : ∀ h, Forall (λ g, rules g ≠ []) (agentGroups h) →
            Forall (λ g, rules g ≠ [])
              (agentGroups (RulesCollectorHandler.finalizeCurrentGroup h))).
  { intros h0 Hh. unfold RulesCollectorHandler.finalizeCurrentGroup.
    destruct (currentGroup h0) as [g|]; [|done].
    case_bool_decide as Hlen; [|done]. cbn. apply Forall_app. split; [done|].
    repeat constructor. intros E. rewrite E in Hlen. simpl in Hlen. lia. }
  assert (Hadd : ∀ n v b h, 
            agentGroups (RulesCollectorHandler.addRule n v b h)
            = agentGroups h).
  { intros n v b h0. unfold RulesCollectorHandler.addRule.
    by destruct (currentGroup h0). }
  apply (parseRobotsTxt_preserves
           (λ h, Forall (λ g, rules g ≠ []) (agentGroups h))); simpl;
    try done.
  - intros n v h0 Hh. unfold RulesCollectorHandler.handleUserAgent.
    cbv zeta. cbn [agentGroups].
    destruct (collectorSeenSeparator h0); [|done]. cbn [agentGroups].
    by apply Hfin.
  - intros n v h0 Hh. unfold RulesCollectorHandler.handleAllow.
    case_bool_decide; [done|]. repeat case_match; by rewrite !Hadd.
  - intros n v h0 Hh. unfold RulesCollectorHandler.handleDisallow.
    case_bool_decide; [done|]. by rewrite Hadd.
Qed.

(** The loops of [ParsedRobots.parse] keep the set of explicit agents
    equal to the keys of the map, and every list of the map non-empty. *)
Lemma addGroupAgents_index group acc :
  rules group ≠ [] →
  dom acc.1 = acc.2 ∧ map_Forall (λ _ rs, rs ≠ []) acc.1 →
  dom (ParsedRobots.addGroupAgents group acc).1
  = (ParsedRobots.addGroupAgents group acc).2
  ∧ map_Forall (λ _ rs, rs ≠ []) (ParsedRobots.addGroupAgents group acc).1.
Proof.
  intros Hgroup. unfold ParsedRobots.addGroupAgents.
  generalize (agents group). intros ags. revert acc.
  induction ags as [|agent ags IH]; intros acc [Hdom Hne]; simpl; [done|].
  apply IH. simpl. split.
  - by rewrite dom_insert_L, Hdom.
  - apply map_Forall_insert_2; [|done].
    intros [_ ?]%app_eq_nil. done.
Qed.

Lemma parse_index body :
  let p := ParsedRobots.parse body in
  explicitAgents p = dom (agentRulesMap p)
  ∧ map_Forall (λ _ rs, rs ≠ []) (agentRulesMap p).
Proof.
  unfold ParsedRobots.parse. cbv zeta.
  pose proof (agentGroups_have_rules body RulesCollectorHandler.new)
    as Hgroups.
  revert Hgroups. generalize (agentGroups
    (parseRobotsTxt body RulesCollectorHandler.new)). intros groups Hgroups.
  assert (Hfold : ∀ acc : gmap (list N) (list ParsedRule) * gset (list N),
            dom acc.1 = acc.2 ∧ map_Forall (λ _ rs, rs ≠ []) acc.1 →
            let r := foldl (λ acc group,
                       ParsedRobots.addGroupAgents group acc) acc groups in
            dom r.1 = r.2 ∧ map_Forall (λ _ rs, rs ≠ []) r.1).
  { induction Hgroups as [|g groups Hg _ IH]; intros acc Hacc; simpl;
      [done|].
    by apply IH, addGroupAgents_index. }
  specialize (Hfold (∅, ∅)). cbv zeta in Hfold.
  destruct (foldl _ _ _) as [amap aset]. simpl in *.
  destruct Hfold as [Hdom Hne].
  { split; [by rewrite dom_empty_L|apply map_Forall_empty]. }
  by split.
Qed.

(** X19: [hasSpecificAgent] tells which rules [checkUrls] uses: when it
    returns true the index holds a non-empty list of rules for the agent
    and [checkUrls] checks every URL against that list; when it returns
    false the index holds no list for the agent and [checkUrls] checks
    every URL against the global rules. *)
Theorem hasSpecificAgent_selects_rules (body userAgent : list N)
    (urls : list (list N)) :
  let p := ParsedRobots.parse body in
  let lowerAgent := toLowerCase (extractUserAgent userAgent) in
  if ParsedRobots.hasSpecificAgent userAgent p
  then ∃ rs, agentRulesMap p !! lowerAgent = Some rs ∧ rs ≠ []
             ∧ ParsedRobots.checkUrls userAgent urls p
               = (λ u, ParsedRobots.checkSingleUrl u rs) <$> urls
  else agentRulesMap p !! lowerAgent = None
       ∧ ParsedRobots.checkUrls userAgent urls p
         = (λ u, ParsedRobots.checkSingleUrl u (parsedGlobalRules p))
             <$> urls.
Proof.
  intros p lowerAgent. destruct (parse_index body) as [Hdom Hne].
  fold p in Hdom, Hne.
  unfold ParsedRobots.hasSpecificAgent, ParsedRobots.checkUrls,
    ParsedRobots.rulesFor. cbv zeta. fold lowerAgent. rewrite Hdom.
  case_bool_decide as Hin.
  - apply elem_of_dom in Hin as [rs Hrs]. exists rs. rewrite Hrs.
    split; [done|]. split; [|done]. by apply (Hne lowerAgent).
  - apply not_elem_of_dom in Hin. by rewrite Hin.
Qed.

End AgentIndex.


(** ** matcher.ts: a verdict and the lines of the file *)

Ltac matcher_fields :=
  unfold RobotsMatcher.set_allow, RobotsMatcher.set_disallowMatch,
    RobotsMatcher.set_seenSeparator, Match.set in *;
  cbn [allow disallowMatch seenGlobalAgent seenSpecificAgent
       everSeenSpecificAgentFlag seenSeparator path userAgents
       global specific priority line] in *.

Ltac matcher_inv :=
  unfold matcherInv; matcher_fields; repeat split; intros; matcher_fields;
  try done; try congruence; try tauto.

Section LiveOrigin.
Context `{CM : CaseMapping}.

Lemma fromDisallow_mono p E E' c :
  (∀ e, e ∈ E → e ∈ E') → fromDisallow p E c → fromDisallow p E' c.
Proof.
  intros Hsub [Hc|(v & Hin & Hp & Hm)]; [by left|right].
  exists v. auto.
Qed.

Lemma matcherInv_registerAllow p E n v m :
  matcherInv p E m → matcherInv p E (registerAllow n v m).
Proof.
  intros (Hpath & Hseen & Hever & Hg & Hs). unfold registerAllow.
  destruct (negb (RobotsMatcher.seenAnyAgent m)); [done|]. cbv zeta.
  destruct (0 <=? _)%Z; [|done].
  unfold RobotsMatcher.updateHierarchy. matcher_fields.
  destruct (seenSpecificAgent m) eqn:Hss.
  - specialize (Hseen eq_refl).
    destruct (_ <? _)%Z; matcher_inv.
  - destruct (_ <? _)%Z; matcher_inv.
Qed.

Lemma matcherInv_handleDisallow p E n v m :
  matcherInv p E m →
  matcherInv p (E ++ [Disallow n v]) (RobotsMatcher.handleDisallow n v m).
Proof.
  intros (Hpath & Hseen & Hever & Hg & Hs).
  assert (Hsub : ∀ e, e ∈ E → e ∈ E ++ [Disallow n v])
    by (intros e He; apply elem_of_app; by left).
  assert (Hg' := fromDisallow_mono _ _ _ _ Hsub Hg).
  assert (Hs' := fromDisallow_mono _ _ _ _ Hsub Hs).
  unfold RobotsMatcher.handleDisallow.
  destruct (negb (RobotsMatcher.seenAnyAgent m)); [done|]. cbv zeta.
  unfold LongestMatchRobotsMatchStrategy.matchDisallow. matcher_fields.
  rewrite Hpath. destruct (matches p v) eqn:Hm; [|done].
  rewrite Zleb_0_length.
  assert (Hnew : fromDisallow p (E ++ [Disallow n v])
                   {| priority := Z.of_nat (length v); line := n |}).
  { right. exists v. cbn. split; [|done].
    apply elem_of_app. right. apply list_elem_of_here. }
  unfold RobotsMatcher.updateHierarchy. matcher_fields.
  destruct (seenSpecificAgent m) eqn:Hss.
  - specialize (Hseen eq_refl).
    destruct (_ <? _)%Z; matcher_inv.
  - destruct (_ <? _)%Z; matcher_inv.
Qed.

Lemma matcherInv_deliver p E e m :
  matcherInv p E m → matcherInv p (E ++ [e]) (deliver e m).
Proof.
  intros Hinv.
  assert (Hsub : ∀ x, x ∈ E → x ∈ E ++ [e])
    by (intros x Hx; apply elem_of_app; by left).
  assert (Hmono : ∀ m', matcherInv p E m' → matcherInv p (E ++ [e]) m').
  { intros m' (? & ? & ? & ? & ?).
    split; [done|]. split; [done|]. split; [done|].
    split; by eapply fromDisallow_mono. }
  destruct e as [| |n v|n v|n v|n v|n a v|n md]; cbn [deliver];
    try (by apply Hmono).
  - (* RobotsStart *)
    destruct Hinv as (Hpath & _). repeat split; try done; by left.
  - (* UserAgent *)
    apply Hmono. destruct Hinv as (Hpath & Hseen & Hever & Hg & Hs).
    simpl. unfold RobotsMatcher.handleUserAgent.
    destruct (seenSeparator m), (isGlobalAgent v);
      try destruct (RobotsMatcher.matchesRequestedAgent _ _); matcher_inv.
  - (* Allow *)
    apply Hmono. simpl. rewrite handleAllow_registerAllow.
    destruct (indexDirectory v); by repeat apply matcherInv_registerAllow.
  - (* Disallow *)
    by apply matcherInv_handleDisallow.
Qed.

Lemma matcherInv_replay p es : ∀ E m,
  matcherInv p E m → matcherInv p (E ++ es) (replay es m).
Proof.
  induction es as [|e es IH]; intros E m Hinv.
  { by rewrite app_nil_r. }
  cbn [replay foldl]. rewrite (cons_middle e E es), app_assoc.
  apply IH. by apply matcherInv_deliver.
Qed.

(** The state after a parse satisfies the invariant for the events of the
    text. *)
Lemma matcherInv_parse body m :
  matcherInv (path m) (parseEvents body) (parseRobotsTxt body m).
Proof.
  rewrite parseRobotsTxt_replay_events.
  rewrite parseEvents_logicalLines.
  set (es := truncatedLineEvents 0 _ ++ [RobotsEnd]).
  change (replay ([RobotsStart] ++ es) m)
    with (replay es (RobotsMatcher.handleRobotsStart m)).
  apply matcherInv_replay. repeat split; try done; by left.
Qed.

Lemma matcherInv_disallow p E m :
  matcherInv p E m → RobotsMatcher.disallow m = true →
  ∃ v, Disallow (RobotsMatcher.matchingLine m) v ∈ E ∧ v ≠ []
       ∧ matches p v = true.
Proof.
  intros (Hpath & Hseen & Hever & Hg & Hs).
  unfold RobotsMatcher.disallow, RobotsMatcher.matchingLine,
    Match.higherPriorityMatch, Match.getPriority, Match.getLine.
  assert (Hfrom : ∀ c, fromDisallow p E c → (0 < priority c)%Z →
            ∃ v, Disallow (line c) v ∈ E ∧ v ≠ [] ∧ matches p v = true).
  { intros c [Hc|(v & Hin & Hp & Hm)] Hpos; [lia|].
    exists v. repeat split; try done. intros ->. simpl in Hp. lia. }
  destruct (_ || _) eqn:Hspec.
  - intros Hlt%Z.ltb_lt.
    apply orb_true_iff in Hspec as [Hpos%Z.ltb_lt|Hpos%Z.ltb_lt].
    + destruct (everSeenSpecificAgentFlag m); [|destruct Hever; [done|lia]].
      rewrite (proj2 (Z.ltb_lt _ _) Hlt). apply Hfrom; [done|lia].
    + destruct (everSeenSpecificAgentFlag m); [|destruct Hever; [done|lia]].
      rewrite (proj2 (Z.ltb_lt _ _) Hlt). apply Hfrom; [done|lia].
  - destruct (everSeenSpecificAgentFlag m); [done|].
    destruct ((0 <? priority (global (disallowMatch m)))%Z || _) eqn:Hglob;
      [|done].
    intros Hlt%Z.ltb_lt.
    rewrite (proj2 (Z.ltb_lt _ _) Hlt). apply Hfrom; [done|].
    apply orb_true_iff in Hglob as [Hpos%Z.ltb_lt|Hpos%Z.ltb_lt]; lia.
Qed.

(** X21: the live resolver denies a URL only on account of a Disallow
    line: when [allowedByRobots] returns false, the file has a Disallow
    line with a non-empty value that matches the path of the URL, and
    [matchingLine] afterwards is the number of that line. *)
Theorem disallowed_by_a_matching_line (robotsBody : list N)
    (userAgents : list (list N)) (u : list N) (m m' : RobotsMatcher) :
  RobotsMatcher.allowedByRobots robotsBody userAgents u m = Ok (false, m') →
  ∃ v, Disallow (RobotsMatcher.matchingLine m') v ∈ parseEvents robotsBody
       ∧ v ≠ []
       ∧ matches (UrlUtils.getPathParamsQuery u) v = true.
Proof.
  unfold RobotsMatcher.allowedByRobots. cbv zeta.
  destruct (RobotsMatcher.initUserAgentsAndPath _ _ m) as [m1|] eqn:Hinit;
    [|done].
  intros [= Hverdict <-].
  assert (Hpath : path m1 = UrlUtils.getPathParamsQuery u).
  { unfold RobotsMatcher.initUserAgentsAndPath in Hinit.
    destruct (negb _); [done|]. by injection Hinit as <-. }
  rewrite <- Hpath. apply matcherInv_disallow; [apply matcherInv_parse|].
  by apply negb_false_iff.
Qed.

End LiveOrigin.

Lemma disallowed_by_a_matching_line_witness :
  let body := robotsLines ["User-agent: *"; "Disallow: /private"] in
  let u := str "http://example.com/private/x" in
  ∃ m',
    RobotsMatcher.allowedByRobots (CM := asciiCaseMapping) body
      [str "FooBot"] u RobotsMatcher.new = Ok (false, m')
    ∧ ∃ v, Disallow (RobotsMatcher.matchingLine m') v
             ∈ parseEvents (CM := asciiCaseMapping) body
           ∧ v ≠ []
           ∧ matches (UrlUtils.getPathParamsQuery u) v = true.
Proof.
  intros body u. eexists. split; [by vm_compute|].
  apply (disallowed_by_a_matching_line (CM := asciiCaseMapping) body
           [str "FooBot"] u RobotsMatcher.new).
  by vm_compute.
Defined.

(** X22: after a query, [disallowIgnoreGlobal] is the verdict of the
    specific rules alone: it is true exactly when a group of the file
    named a requested agent and the URL was disallowed. *)
Theorem disallowIgnoreGlobal_after_query `{CM : CaseMapping}
    (robotsBody : list N) (userAgents : list (list N)) (u : list N)
    (m m' : RobotsMatcher) (verdict : bool) :
  RobotsMatcher.allowedByRobots robotsBody userAgents u m
  = Ok (verdict, m') →
  RobotsMatcher.disallowIgnoreGlobal m'
  = RobotsMatcher.everSeenSpecificAgent m' && negb verdict.
Proof.
  unfold RobotsMatcher.allowedByRobots. cbv zeta.
  destruct (RobotsMatcher.initUserAgentsAndPath _ _ m) as [m1|]; [|done].
  intros [= <- <-]. rewrite negb_involutive.
  destruct (matcherInv_parse robotsBody m1) as (_ & _ & Hever & _).
  unfold RobotsMatcher.disallowIgnoreGlobal, RobotsMatcher.disallow,
    RobotsMatcher.everSeenSpecificAgent, Match.getPriority.
  destruct (everSeenSpecificAgentFlag _).
  - by destruct (_ || _).
  - destruct (Hever eq_refl) as [-> ->]. done.
Qed.

Lemma disallowIgnoreGlobal_after_query_witness :
  let body := robotsLines ["User-agent: FooBot"; "Disallow: /private"] in
  let u := str "http://example.com/private/x" in
  ∃ m',
    RobotsMatcher.allowedByRobots (CM := asciiCaseMapping) body
      [str "FooBot"] u RobotsMatcher.new = Ok (false, m')
    ∧ RobotsMatcher.disallowIgnoreGlobal m'
      = RobotsMatcher.everSeenSpecificAgent m' && negb false.
Proof.
  intros body u. eexists. split; [by vm_compute|].
  apply (disallowIgnoreGlobal_after_query (CM := asciiCaseMapping) body
           [str "FooBot"] u RobotsMatcher.new).
  by vm_compute.
Defined.

(** ** parsed-robots.ts: the rules of the index and the lines of the file *)

Section BulkOrigin.
Context `{CM : CaseMapping}.

Lemma ruleOrigin_mono E E' r :
  (∀ e, e ∈ E → e ∈ E') → ruleOrigin E r → ruleOrigin E' r.
Proof.
  intros Hsub [Hne Hr]. split; [done|]. destruct (isAllow r); [|by auto].
  destruct Hr as (v & Hin & Hv). exists v. auto.
Qed.

Lemma collectorOrigin_mono E E' h :
  (∀ e, e ∈ E → e ∈ E') → collectorOrigin E h → collectorOrigin E' h.
Proof.
  intros Hsub (Hg & Hgs & Hc).
  assert (Hrules : ∀ rs, Forall (ruleOrigin E) rs → Forall (ruleOrigin E') rs).
  { intros rs Hrs. eapply Forall_impl; [done|].
    intros r. by apply ruleOrigin_mono. }
  split; [by apply Hrules|]. split.
  - eapply Forall_impl; [done|]. intros g. apply Hrules.
  - intros g Hgc. by apply Hrules, Hc.
Qed.

Lemma collectorOrigin_finalize E h :
  collectorOrigin E h →
  collectorOrigin E (RulesCollectorHandler.finalizeCurrentGroup h).
Proof.
  intros Hinv. pose proof Hinv as (Hg & Hgs & Hc).
  unfold RulesCollectorHandler.finalizeCurrentGroup.
  destruct (currentGroup h) as [g|] eqn:Hcur; [|done].
  case_bool_decide; [|done].
  split; [done|]. split; [|done]. cbn.
  apply Forall_app. split; [done|]. constructor; [|done]. by apply Hc.
Qed.

Lemma collectorOrigin_addRule E n pat b h :
  ruleOrigin E {| pattern := pat; lineNumber := n; isAllow := b |} →
  collectorOrigin E h →
  collectorOrigin E (RulesCollectorHandler.addRule n pat b h).
Proof.
  intros Hr Hinv. pose proof Hinv as (Hg & Hgs & Hc).
  unfold RulesCollectorHandler.addRule.
  destruct (currentGroup h) as [g|] eqn:Hcur; [|done].
  split; [|split]; cbn.
  - destruct (isGlobal g); [|done]. apply Forall_app. split; [done|].
    by constructor.
  - done.
  - intros g' [= <-]. cbn. apply Forall_app. split; [by apply Hc|].
    by constructor.
Qed.

Lemma collectorOrigin_deliver E e h :
  collectorOrigin E h → collectorOrigin (E ++ [e]) (deliver e h).
Proof.
  intros Hinv.
  assert (Hsub : ∀ x, x ∈ E → x ∈ E ++ [e])
    by (intros x Hx; apply elem_of_app; by left).
  assert (Hlast : e ∈ E ++ [e])
    by (apply elem_of_app; right; apply list_elem_of_here).
  apply (collectorOrigin_mono _ _ _ Hsub) in Hinv.
  destruct e as [| |n v|n v|n v|n v|n a v|n md]; cbn [deliver];
    [| | | | |exact Hinv|exact Hinv|exact Hinv].
  - (* RobotsStart *)
    split; [constructor|]. split; [constructor|done].
  - (* RobotsEnd *)
    by apply collectorOrigin_finalize.
  - (* UserAgent *)
    simpl. unfold RulesCollectorHandler.handleUserAgent.
    set (h1 := if collectorSeenSeparator h then _ else h).
    assert (Hinv1 : collectorOrigin (E ++ [UserAgent n v]) h1).
    { subst h1. destruct (collectorSeenSeparator h); [|done].
      apply collectorOrigin_finalize in Hinv as (Hg & Hgs & _).
      split; [done|]. by split. }
    destruct Hinv1 as (Hg & Hgs & Hc). cbv zeta.
    split; [done|]. split; [done|]. cbn. intros g [= <-].
    assert (Hcur : Forall (ruleOrigin (E ++ [UserAgent n v]))
              (rules match currentGroup h1 with
                     | Some g => g
                     | None =>
                         {| agents := []; rules := []; isGlobal := false |}
                     end)).
    { destruct (currentGroup h1) as [g|]; [by apply Hc|]. constructor. }
    destruct (isGlobalAgent v); [done|]. by case_bool_decide.
  - (* Allow *)
    simpl. unfold RulesCollectorHandler.handleAllow.
    case_bool_decide as Hlen; [done|].
    assert (Hv : v ≠ []) by (by intros ->).
    assert (Hrule : ruleOrigin (E ++ [Allow n v])
              {| pattern := v; lineNumber := n; isAllow := true |}).
    { split; [done|]. exists v. split; [done|by left]. }
    pose proof (collectorOrigin_addRule _ n v true h Hrule Hinv) as Hinv1.
    destruct (lastIndexOf (ch "/") v) as [slashPos|] eqn:Hslash; [|done].
    destruct (startsWith _ _) eqn:Hindex; [|done].
    apply collectorOrigin_addRule; [|done]. split.
    + apply directoryPattern_nonempty.
    + exists v. split; [done|]. right. unfold indexDirectory.
      by rewrite Hslash, Hindex.
  - (* Disallow *)
    simpl. unfold RulesCollectorHandler.handleDisallow.
    case_bool_decide as Hlen; [done|].
    apply collectorOrigin_addRule; [|done].
    split; cbn; [by intros ->|done].
Qed.

Lemma collectorOrigin_replay es : ∀ E h,
  collectorOrigin E h → collectorOrigin (E ++ es) (replay es h).
Proof.
  induction es as [|e es IH]; intros E h Hinv.
  { by rewrite app_nil_r. }
  cbn [replay foldl]. rewrite (cons_middle e E es), app_assoc.
  apply IH. by apply collectorOrigin_deliver.
Qed.

Lemma collectorOrigin_parse body h :
  collectorOrigin (parseEvents body)
    (parseRobotsTxt (H := RulesCollectorHandler) body h).
Proof.
  rewrite parseRobotsTxt_replay_events.
  rewrite parseEvents_logicalLines.
  set (es := truncatedLineEvents 0 _ ++ [RobotsEnd]).
  change (replay ([RobotsStart] ++ es) h)
    with (replay es (RulesCollectorHandler.handleRobotsStart h)).
  apply collectorOrigin_replay.
  split; [constructor|]. split; [constructor|done].
Qed.

Lemma addGroupAgents_origin E group acc :
  Forall (ruleOrigin E) (rules group) →
  map_Forall (λ _ rs, Forall (ruleOrigin E) rs) acc.1 →
  map_Forall (λ _ rs, Forall (ruleOrigin E) rs)
    (ParsedRobots.addGroupAgents group acc).1.
Proof.
  intros Hgroup. unfold ParsedRobots.addGroupAgents.
  generalize (agents group). intros ags. revert acc.
  induction ags as [|agent ags IH]; intros acc Hacc; simpl; [done|].
  apply IH. simpl. apply map_Forall_insert_2; [|done].
  apply Forall_app. split; [|done].
  destruct (acc.1 !! agent) as [rs|] eqn:Hrs; simpl; [|constructor].
  by apply (Hacc agent).
Qed.

(** Every rule [checkUrls] uses stems from a line of the file. *)
Lemma rulesFor_origin body userAgent :
  Forall (ruleOrigin (parseEvents body))
    (ParsedRobots.rulesFor userAgent (ParsedRobots.parse body)).
Proof.
  unfold ParsedRobots.rulesFor, ParsedRobots.parse. cbv zeta.
  pose proof (collectorOrigin_parse body RulesCollectorHandler.new)
    as (Hglobal & Hgroups & _).
  revert Hgroups. generalize (agentGroups
    (parseRobotsTxt body RulesCollectorHandler.new)). intros groups Hgroups.
  assert (Hfold : ∀ acc : gmap (list N) (list ParsedRule) * gset (list N),
            map_Forall (λ _ rs, Forall (ruleOrigin (parseEvents body)) rs)
              acc.1 →
            map_Forall (λ _ rs, Forall (ruleOrigin (parseEvents body)) rs)
              (foldl (λ acc group, ParsedRobots.addGroupAgents group acc)
                 acc groups).1).
  { induction Hgroups as [|g groups Hg _ IH]; intros acc Hacc; simpl; [done|].
    by apply IH, addGroupAgents_origin. }
  specialize (Hfold (∅, ∅) (map_Forall_empty _)).
  destruct (foldl _ _ _) as [amap aset]. simpl in *.
  destruct (amap !! _) as [rs|] eqn:Hrs; [|done].
  by apply (Hfold _ _ Hrs).
Qed.

(** X23: the bulk index answers from the lines of the file: the result
    of [checkUrl] is "none" with line 0, or "disallow", not allowed, with
    the line and the non-empty value of a Disallow line that matches the
    path, or "allow", allowed, with the line of an Allow line and a
    matching pattern that is the value of that line or its directory
    pattern. *)
Theorem checkUrl_answers_from_a_line (body userAgent u : list N)
    (r : UrlCheckResult) :
  ParsedRobots.checkUrl userAgent u (ParsedRobots.parse body) = Some r →
  let path := UrlUtils.getPathParamsQuery u in
  (matchedRuleType r = "none"%string ∧ allowed r = true
   ∧ matchingLine r = 0)
  ∨ (matchedRuleType r = "disallow"%string ∧ allowed r = false
     ∧ Disallow (matchingLine r) (matchedPattern r) ∈ parseEvents body
     ∧ matchedPattern r ≠ [] ∧ matches path (matchedPattern r) = true)
  ∨ (matchedRuleType r = "allow"%string ∧ allowed r = true
     ∧ matches path (matchedPattern r) = true
     ∧ ∃ v, Allow (matchingLine r) v ∈ parseEvents body
            ∧ (matchedPattern r = v
               ∨ indexDirectory v = Some (matchedPattern r))).
Proof.
  intros Hr path. unfold ParsedRobots.checkUrl, ParsedRobots.checkUrls in Hr.
  cbn [fmap list_fmap lookup list_lookup] in Hr. injection Hr as <-.
  pose proof (rulesFor_origin body userAgent) as Horigin.
  destruct (checkSingleUrl_winner u
              (ParsedRobots.rulesFor userAgent (ParsedRobots.parse body)))
    as [_ [(Hnone & Hallowed & Hline & _)
          |(w & Hin & Hm & Htype & Hallowed & Hline & Hpat & _)]];
    cbv zeta in *; [by left|right].
  rewrite Forall_forall in Horigin. destruct (Horigin w Hin) as [Hne Hw].
  rewrite Htype, Hallowed, Hline, Hpat. fold path in Hm.
  destruct (isAllow w); [right|left]; repeat split; try done.
Qed.

End BulkOrigin.

Lemma checkUrl_answers_from_a_line_witness :
  let body := robotsLines ["User-agent: *"; "Disallow: /private"] in
  let u := str "http://example.com/private/x" in
  let path := UrlUtils.getPathParamsQuery u in
  ∃ r,
    ParsedRobots.checkUrl (CM := asciiCaseMapping) (str "FooBot") u
      (ParsedRobots.parse (CM := asciiCaseMapping) body) = Some r
    ∧ ((matchedRuleType r = "none"%string ∧ allowed r = true
        ∧ matchingLine r = 0)
       ∨ (matchedRuleType r = "disallow"%string ∧ allowed r = false
          ∧ Disallow (matchingLine r) (matchedPattern r)
            ∈ parseEvents (CM := asciiCaseMapping) body
          ∧ matchedPattern r ≠ [] ∧ matches path (matchedPattern r) = true)
       ∨ (matchedRuleType r = "allow"%string ∧ allowed r = true
          ∧ matches path (matchedPattern r) = true
          ∧ ∃ v, Allow (matchingLine r) v
                   ∈ parseEvents (CM := asciiCaseMapping) body
                 ∧ (matchedPattern r = v
                    ∨ indexDirectory v = Some (matchedPattern r)))).
Proof.
  intros body u path. eexists. split; [by vm_compute|].
  apply (checkUrl_answers_from_a_line (CM := asciiCaseMapping) body
           (str "FooBot") u).
  by vm_compute.
Defined.


(** ** reporter.ts: the report of a parse *)

Section Reporter.
Context `{CM : CaseMapping}.

Lemma existsb_unsupported lowerAction :
  existsb (λ tag, bool_decide (tag = lowerAction)) K_UNSUPPORTED_TAGS
  = bool_decide (lowerAction ∈ K_UNSUPPORTED_TAGS).
Proof.
  induction K_UNSUPPORTED_TAGS as [|tag tags IH]; simpl.
  { done. }
  rewrite IH. apply bool_eq_iff.
  rewrite orb_true_iff, !bool_decide_eq_true, elem_of_cons.
  split; intros [?|?]; auto.
Qed.

Lemma filter_snoc_length {A} (P : A → Prop) `{∀ x, Decision (P x)} l x :
  length (filter P (l ++ [x]))
  = length (filter P l) + (if decide (P x) then 1 else 0).
Proof.
  rewrite filter_app, length_app. f_equal.
  rewrite filter_cons, filter_nil. by destruct (decide (P x)).
Qed.

(** The callbacks of one line bring the reporter from the lines [groups]
    to the lines [groups ++ [g]]. *)
Lemma reporterInv_line groups g r :
  reporterInv groups r → lineCallbacks (S (length groups)) g →
  reporterInv (groups ++ [g]) (replay g r).
Proof.
  intros (Hlast & Hlines & Hzero & Hvalid & Hunused) Hg.
  assert (Hnew : robotsParseResults r !! S (length groups) = None).
  { rewrite Hlines, lookup_ge_None_2; [done|lia]. }
  unfold reporterInv. rewrite length_app, concat_app, !filter_app, !length_app.
  cbn [length concat]. rewrite app_nil_r.
  destruct Hg as [(md & -> & Hd)|(e & md & -> & He & Hline & Hd)].
  - cbn [replay foldl deliver]. simpl.
    unfold RobotsParsingReporter.reportLineMetadata,
      RobotsParsingReporter.lineFor. cbv zeta. cbn.
    rewrite Hnew. cbn. rewrite Hlast.
    rewrite bool_decide_eq_true_2 by lia.
    repeat split; try lia.
    + intros i. destruct (decide (i = length groups)) as [->|Hi].
      * rewrite lookup_insert_eq, lookup_app_r, Nat.sub_diag by lia. done.
      * rewrite lookup_insert_ne by lia. rewrite Hlines.
        destruct (decide (i < length groups)).
        -- by rewrite lookup_app_l by lia.
        -- rewrite !lookup_ge_None_2; [done|rewrite length_app; simpl; lia|lia].
    + by rewrite lookup_insert_ne by lia.
  - assert (Hdigest : ∀ tag (r0 : RobotsParsingReporter),
      robotsParseResults r0 = robotsParseResults r →
      lastLineSeenValue r0 = lastLineSeenValue r →
      let r1 := RobotsParsingReporter.reportLineMetadata
                  (S (length groups)) md
                  (RobotsParsingReporter.digest (S (length groups)) tag r0) in
      lastLineSeenValue r1 = S (length groups)
      ∧ robotsParseResults r1
        = <[S (length groups) :=
              {| lineNum := S (length groups); tagName := tag;
                 isTypo := isAcceptableTypo md; metadata := md |}]>
            (robotsParseResults r)
      ∧ validDirectivesValue r1
        = validDirectivesValue r0
          + match tag with
            | RobotsTagName.Unknown | RobotsTagName.Unused => 0
            | _ => 1
            end
      ∧ unusedDirectivesValue r1 = unusedDirectivesValue r0).
    { intros tag r0 Hres Hl. cbv zeta.
      unfold RobotsParsingReporter.reportLineMetadata,
        RobotsParsingReporter.digest, RobotsParsingReporter.lineFor.
      cbv zeta. cbn. rewrite Hres, Hl, Hlast, Hnew.
      rewrite lookup_insert_eq, insert_insert_eq. cbn.
      rewrite (bool_decide_eq_true_2 (length groups < S (length groups)))
        by lia.
      rewrite (bool_decide_eq_false_2 (S (length groups) < S (length groups)))
        by lia.
      repeat split. destruct tag; lia. }
    assert (Hstate : ∃ r0,
      robotsParseResults r0 = robotsParseResults r
      ∧ lastLineSeenValue r0 = lastLineSeenValue r
      ∧ replay [e; ReportLineMetadata (S (length groups)) md] r
        = RobotsParsingReporter.reportLineMetadata (S (length groups)) md
            (RobotsParsingReporter.digest (S (length groups))
               (tagOfEvent e) r0)
      ∧ validDirectivesValue r0
        + match tagOfEvent e with
          | RobotsTagName.Unknown | RobotsTagName.Unused => 0
          | _ => 1
          end
        = validDirectivesValue r
          + (if decide (isValidDirectiveEvent e = true) then 1 else 0)
      ∧ unusedDirectivesValue r0
        = unusedDirectivesValue r
          + (if decide (isUnknownActionEvent e = true) then 1 else 0)).
    { destruct e as [| |n v|n v|n v|n v|n a v|n md']; try done;
        injection Hline as ->;
        try (exists r; repeat split; try done; cbn; lia).
      eexists {| robotsParseResults := robotsParseResults r;
                 lastLineSeenValue := lastLineSeenValue r;
                 validDirectivesValue := validDirectivesValue r;
                 unusedDirectivesValue := unusedDirectivesValue r + 1 |}.
      split; [done|]. split; [done|]. split.
      - cbn [replay foldl deliver]. simpl.
        unfold RobotsParsingReporter.handleUnknownAction. cbv zeta.
        by rewrite existsb_unsupported.
      - cbn. split; [|done]. by destruct (bool_decide _). }
    destruct Hstate as (r0 & Hres & Hl & -> & Hv & Hu).
    destruct (Hdigest (tagOfEvent e) r0 Hres Hl) as (Hl1 & Hres1 & Hv1 & Hu1).
    cbv zeta in *. rewrite Hl1, Hres1, Hv1, Hu1.
    rewrite !filter_cons, !filter_nil.
    assert (Hmd1 : isValidDirectiveEvent
                     (ReportLineMetadata (S (length groups)) md) = false)
      by done.
    assert (Hmd2 : isUnknownActionEvent
                     (ReportLineMetadata (S (length groups)) md) = false)
      by done.
    repeat split.
    + lia.
    + intros i. destruct (decide (i = length groups)) as [->|Hi].
      * rewrite lookup_insert_eq, lookup_app_r, Nat.sub_diag by lia. done.
      * rewrite lookup_insert_ne by lia. rewrite Hlines.
        destruct (decide (i < length groups)).
        -- by rewrite lookup_app_l by lia.
        -- rewrite !lookup_ge_None_2; [done|rewrite length_app; simpl; lia|lia].
    + by rewrite lookup_insert_ne by lia.
    + rewrite Hv, Hvalid.
      destruct (decide (isValidDirectiveEvent e = true)),
        (decide (isValidDirectiveEvent (ReportLineMetadata _ md) = true));
        simpl; try lia; congruence.
    + rewrite Hu, Hunused.
      destruct (decide (isUnknownActionEvent e = true)),
        (decide (isUnknownActionEvent (ReportLineMetadata _ md) = true));
        simpl; try lia; congruence.
Qed.


Lemma reporterInv_lines gs : ∀ groups r,
  reporterInv groups r →
  (∀ i g, gs !! i = Some g → lineCallbacks (S (length groups + i)) g) →
  reporterInv (groups ++ gs) (replay (concat gs) r).
Proof.
  induction gs as [|g gs IH]; intros groups r Hinv Hgs.
  { by rewrite app_nil_r. }
  cbn [concat]. rewrite replay_app, (cons_middle g groups gs), app_assoc.
  apply IH.
  - apply reporterInv_line; [done|]. specialize (Hgs 0 g eq_refl).
    by rewrite Nat.add_0_r in Hgs.
  - intros i g' Hg'. rewrite length_app. cbn [length].
    replace (S (length groups + 1 + i)) with (S (length groups + S i)) by lia.
    by apply Hgs.
Qed.

(** The reporter after a parse holds the lines of the text, whatever it
    held before. *)
Lemma reporterInv_parse text (r0 : RobotsParsingReporter) :
  ∃ groups,
    parseEvents text = [RobotsStart] ++ concat groups ++ [RobotsEnd]
    ∧ length groups = length (logicalLines (stripBOM text))
    ∧ (∀ i g, groups !! i = Some g → lineCallbacks (S i) g)
    ∧ reporterInv groups (parseRobotsTxt text r0).
Proof.
  destruct (parseEvents_groups text) as (groups & Hev & Hlen & _ & Hgroups).
  exists groups. split; [done|]. split; [done|]. split; [done|].
  rewrite parseRobotsTxt_replay_events, Hev, !replay_app.
  change (replay [RobotsEnd] ?r) with r.
  change (replay [RobotsStart] r0) with RobotsParsingReporter.new.
  apply (reporterInv_lines groups []); [by repeat split|done].
Qed.

Lemma omap_lookup_seq {A B} (f : nat → A → B) (l l' : list A) :
  omap (λ i, f i <$> (l ++ l') !! i) (seq 0 (length l)) = imap f l.
Proof.
  revert l'. induction l as [|x l IH] using rev_ind; intros l'; [done|].
  rewrite length_app, Nat.add_comm. cbn [length].
  rewrite seq_S, omap_app, imap_app, <- app_assoc, IH. cbn.
  by rewrite lookup_app_r, Nat.sub_diag, Nat.add_0_r by lia.
Qed.

Lemma omap_fmap_compose {A B C} (g : B → option C) (h : A → B)
    (l : list A) :
  omap g (h <$> l) = omap (g ∘ h) l.
Proof. induction l as [|x l IH]; [done|]. cbn. by rewrite IH. Qed.

Lemma omap_pointwise {A B} (f g : A → option B) (l : list A) :
  (∀ x, f x = g x) → omap f l = omap g l.
Proof.
  intros Hfg. induction l as [|x l IH]; [done|]. cbn. by rewrite Hfg, IH.
Qed.

Lemma Sorted_le_seq a n : Sorted Nat.le (seq a n).
Proof.
  revert a. induction n as [|n IH]; intros a; [constructor|].
  cbn. constructor; [apply IH|]. destruct n; constructor. lia.
Qed.

(** [parseResults] of a reporter that holds the lines [groups]. *)
Lemma reporterInv_parseResults groups r :
  reporterInv groups r →
  RobotsParsingReporter.parseResults r
  = imap (λ i g, parsedLineOf (S i) g) groups.
Proof.
  intros (_ & Hlines & Hzero & _). unfold RobotsParsingReporter.parseResults.
  cbv zeta.
  assert (Hkeys : merge_sort Nat.le (elements (dom (robotsParseResults r)))
                  = seq 1 (length groups)).
  { apply (Sorted_unique Nat.le).
    - apply Sorted_merge_sort. apply _.
    - apply Sorted_le_seq.
    - rewrite merge_sort_Permutation. apply NoDup_Permutation.
      + apply NoDup_elements.
      + apply NoDup_seq.
      + intros key. rewrite elem_of_elements, elem_of_dom, elem_of_seq.
        destruct key as [|i]; [rewrite Hzero; split; [by intros []|lia]|].
        rewrite Hlines, fmap_is_Some, lookup_lt_is_Some. lia. }
  rewrite Hkeys, <- fmap_S_seq, omap_fmap_compose.
  rewrite <- (omap_lookup_seq (λ i g, parsedLineOf (S i) g) groups []).
  rewrite app_nil_r. apply omap_pointwise. intros i. simpl. apply Hlines.
Qed.

Lemma lineCallbacks_lineNum n g :
  lineCallbacks n g → lineNum (parsedLineOf n g) = n.
Proof. by intros [(md & -> & _)|(e & md & -> & _)]. Qed.

(** X24: the reporter counts the lines: after a parse, whatever the
    reporter held before, [lastLineSeen] is the number of logical lines of
    the text and [parseResults] has one entry per line, in order, with the
    line numbers 1, 2, ... up to [lastLineSeen]. *)
Theorem reporter_line_numbers (text : list N)
    (r0 : RobotsParsingReporter) :
  let r := parseRobotsTxt text r0 in
  RobotsParsingReporter.lastLineSeen r
  = length (logicalLines (stripBOM text))
  ∧ lineNum <$> RobotsParsingReporter.parseResults r
    = seq 1 (RobotsParsingReporter.lastLineSeen r).
Proof.
  intros r. subst r.
  destruct (reporterInv_parse text r0) as (groups & _ & Hlen & Hgroups & Hinv).
  rewrite (reporterInv_parseResults groups) by done.
  destruct Hinv as (Hlast & _). unfold RobotsParsingReporter.lastLineSeen.
  rewrite Hlast. split; [done|].
  clear Hlast Hlen. revert Hgroups.
  generalize (parseRobotsTxt text r0). intros _.
  induction groups as [|g groups IH] using rev_ind; intros Hgroups; [done|].
  rewrite imap_app, fmap_app, length_app, Nat.add_comm. cbn [length].
  rewrite seq_S, IH.
  - cbn. rewrite Nat.add_0_r. f_equal. f_equal.
    apply lineCallbacks_lineNum, Hgroups.
    by rewrite lookup_app_r, Nat.sub_diag by lia.
  - intros i g' Hg'. apply Hgroups. by apply lookup_app_l_Some.
Qed.

Lemma filter_directive_events (P : ParseEvent → Prop)
    `{∀ e, Decision (P e)} groups :
  ¬ P RobotsStart → ¬ P RobotsEnd →
  filter P ([RobotsStart] ++ concat groups ++ [RobotsEnd])
  = filter P (concat groups).
Proof.
  intros Hstart Hend. rewrite !filter_app, filter_cons_False by done.
  rewrite (filter_cons_False _ RobotsEnd) by done.
  by rewrite !filter_nil, app_nil_r.
Qed.

(** X25: the reporter counts the directives: after a parse,
    [validDirectives] is the number of user-agent, allow, disallow and
    sitemap callbacks of the parse, and [unusedDirectives] the number of
    its unknown-action callbacks, whether or not the key is one of
    K_UNSUPPORTED_TAGS. *)
Theorem reporter_directive_counts (text : list N)
    (r0 : RobotsParsingReporter) :
  let r := parseRobotsTxt text r0 in
  RobotsParsingReporter.validDirectives r
  = length (filter (λ e, isValidDirectiveEvent e = true) (parseEvents text))
  ∧ RobotsParsingReporter.unusedDirectives r
    = length (filter (λ e, isUnknownActionEvent e = true)
                (parseEvents text)).
Proof.
  intros r. subst r.
  destruct (reporterInv_parse text r0)
    as (groups & -> & _ & _ & (_ & _ & _ & Hvalid & Hunused)).
  by rewrite !filter_directive_events.
Qed.

(** X26: the report line by line: after a parse, whatever the reporter
    held before, entry i of [parseResults] is made of the callbacks of
    line i: its number, the tag of its directive (Unknown when it has
    none or an unknown key, Unused when the key is one of
    K_UNSUPPORTED_TAGS in any case), and the metadata reported for the
    line, whose typo flag is [isTypo]. *)
Theorem reporter_results_by_line (text : list N)
    (r0 : RobotsParsingReporter) :
  ∃ groups,
    parseEvents text = [RobotsStart] ++ concat groups ++ [RobotsEnd]
    ∧ (∀ i g, groups !! i = Some g → lineCallbacks (S i) g)
    ∧ RobotsParsingReporter.parseResults (parseRobotsTxt text r0)
      = imap (λ i g, parsedLineOf (S i) g) groups.
Proof.
  destruct (reporterInv_parse text r0) as (groups & Hev & _ & Hgroups & Hinv).
  exists groups. split; [done|]. split; [done|].
  by apply reporterInv_parseResults.
Qed.

End Reporter.


(** ** parsed-key.ts: the classification of keys *)

Section Keys.
Context `{CM : CaseMapping}.
Hypothesis lawful : asciiLawful CM.
Import ParsedRobotsKey.

Lemma keyPrefixes_ascii prefix :
  prefix ∈ keyPrefixes →
  toLowerCase (str prefix) = str prefix.
Proof.
  intros Hin. rewrite lawful.
  - revert prefix Hin. apply Forall_forall.
    apply (bool_decide_unpack _). by vm_compute.
  - revert prefix Hin. apply Forall_forall.
    apply (bool_decide_unpack _). by vm_compute.
Qed.

Lemma startsWithIgnoreCase_ascii key prefix :
  Forall (λ c, (c < 128)%N) key → prefix ∈ keyPrefixes →
  startsWithIgnoreCase key prefix
  = startsWith (asciiToLower <$> key) (str prefix).
Proof.
  intros Hkey Hin. unfold startsWithIgnoreCase.
  by rewrite keyPrefixes_ascii, lawful.
Qed.

(** The result of [parse] is a function of the tests for the prefixes. *)
Lemma parse_by_prefixes key key' :
  (∀ prefix, prefix ∈ keyPrefixes →
     startsWithIgnoreCase key prefix = startsWithIgnoreCase key' prefix) →
  type (parse key) = type (parse key')
  ∧ keyIsAcceptableTypo (parse key) = keyIsAcceptableTypo (parse key').
Proof.
  intros Hsame. unfold parse, keyIsUserAgent, isUserAgentTypo, keyIsAllow,
    keyIsDisallow, isDisallowTypo, disallowTypo, keyIsSitemap, isSitemapTypo.
  assert (HF : Forall (λ prefix, startsWithIgnoreCase key prefix
                               = startsWithIgnoreCase key' prefix)
                 keyPrefixes) by (by apply Forall_forall).
  unfold keyPrefixes in HF.
  repeat (apply Forall_cons in HF as [-> HF]). by repeat case_match.
Qed.

(** X27: the keys are recognised without regard to case: two keys of
    code units below 128 that differ only in the case of their letters
    get the same type and the same typo flag. *)
Theorem parse_key_ignores_case (key key' : list N) :
  Forall (λ c, (c < 128)%N) key → Forall (λ c, (c < 128)%N) key' →
  asciiToLower <$> key = asciiToLower <$> key' →
  type (parse key) = type (parse key')
  ∧ keyIsAcceptableTypo (parse key) = keyIsAcceptableTypo (parse key').
Proof.
  intros Hkey Hkey' Hlower. apply parse_by_prefixes. intros prefix Hin.
  by rewrite !startsWithIgnoreCase_ascii, Hlower.
Qed.


(** No prefix of the table begins another one. *)
Lemma keyPrefixes_incomparable prefix prefix' :
  prefix ∈ keyPrefixes → prefix' ∈ keyPrefixes →
  startsWith (str prefix) (str prefix') = true → prefix = prefix'.
Proof.
  intros Hin Hin'.
  assert (Htable : Forall (λ p, Forall (λ q,
            startsWith (str p) (str q) = true → p = q) keyPrefixes)
            keyPrefixes)
    by (apply (bool_decide_unpack _); by vm_compute).
  rewrite Forall_forall in Htable. specialize (Htable prefix Hin).
  rewrite Forall_forall in Htable. exact (Htable prefix' Hin').
Qed.

Lemma startsWith_extend s t p :
  startsWith s p = true → startsWith (s ++ t) p = true.
Proof.
  rewrite !startsWith_app. intros [r ->]. exists (r ++ t).
  by rewrite app_assoc.
Qed.

(** Two prefixes of one string: one begins the other. *)
Lemma startsWith_comparable s p q :
  startsWith s p = true → startsWith s q = true →
  startsWith p q = true ∨ startsWith q p = true.
Proof.
  revert s q. induction p as [|a p IH]; intros s q; [by right; destruct q|].
  destruct q as [|b q]; [by left|]. destruct s as [|c s]; [done|]. simpl.
  intros [->%N.eqb_eq Hp]%andb_true_iff [->%N.eqb_eq Hq]%andb_true_iff.
  rewrite !N.eqb_refl. simpl. by apply (IH s).
Qed.

(** A key with one of the prefixes passes the same tests, whatever
    follows it. *)
Lemma startsWithIgnoreCase_extend key suffix prefix0 prefix :
  Forall (λ c, (c < 128)%N) key → Forall (λ c, (c < 128)%N) suffix →
  prefix0 ∈ keyPrefixes → startsWithIgnoreCase key prefix0 = true →
  prefix ∈ keyPrefixes →
  startsWithIgnoreCase (key ++ suffix) prefix
  = startsWithIgnoreCase key prefix.
Proof.
  intros Hkey Hsuffix Hin0 Hkey0 Hin.
  rewrite startsWithIgnoreCase_ascii in Hkey0 by done.
  rewrite !startsWithIgnoreCase_ascii by (try apply Forall_app; done).
  rewrite fmap_app.
  destruct (startsWith (asciiToLower <$> key) (str prefix)) eqn:Hp.
  { by apply startsWith_extend. }
  destruct (startsWith ((asciiToLower <$> key) ++ _) (str prefix)) eqn:Hext;
    [|done].
  pose proof (startsWith_extend _ (asciiToLower <$> suffix) _ Hkey0) as Hext0.
  assert (prefix0 = prefix) as <-.
  { destruct (startsWith_comparable _ _ _ Hext0 Hext) as [Hc|Hc].
    - by apply keyPrefixes_incomparable.
    - symmetry. by apply keyPrefixes_incomparable. }
  congruence.
Qed.

(** A key of a known type has one of the prefixes. *)
Lemma known_key_prefix key :
  type (parse key) ≠ UNKNOWN →
  ∃ prefix, prefix ∈ keyPrefixes ∧ startsWithIgnoreCase key prefix = true.
Proof.
  intros Hknown.
  destruct (decide (Exists (λ prefix, startsWithIgnoreCase key prefix = true)
                      keyPrefixes)) as [Hex|Hno].
  { apply Exists_exists in Hex as (prefix & Hin & Hp). by exists prefix. }
  exfalso. apply Hknown. apply not_Exists_Forall in Hno; [|apply _].
  unfold parse, keyIsUserAgent, keyIsAllow, keyIsDisallow, disallowTypo,
    keyIsSitemap.
  unfold keyPrefixes in Hno.
  repeat (apply Forall_cons in Hno as [->%not_true_is_false Hno]).
  done.
Qed.

(** X28: the keys are recognised by their beginning: a key of code units
    below 128 that is recognised keeps its type and its typo flag,
    whatever code units below 128 are appended to it. *)
Theorem parse_key_by_prefix (key suffix : list N) :
  Forall (λ c, (c < 128)%N) key → Forall (λ c, (c < 128)%N) suffix →
  type (parse key) ≠ UNKNOWN →
  type (parse (key ++ suffix)) = type (parse key)
  ∧ keyIsAcceptableTypo (parse (key ++ suffix))
    = keyIsAcceptableTypo (parse key).
Proof.
  intros Hkey Hsuffix (prefix0 & Hin0 & Hkey0)%known_key_prefix.
  apply parse_by_prefixes. intros prefix Hin.
  by apply (startsWithIgnoreCase_extend _ _ prefix0).
Qed.

End Keys.

Lemma asciiCaseMapping_lawful : asciiLawful asciiCaseMapping.
Proof. by intros s _. Qed.

Lemma parse_key_ignores_case_witness :
  asciiLawful asciiCaseMapping
  ∧ Forall (λ c, (c < 128)%N) (str "Disallow")
  ∧ Forall (λ c, (c < 128)%N) (str "DISALLOW")
  ∧ asciiToLower <$> str "Disallow" = asciiToLower <$> str "DISALLOW"
  ∧ ParsedRobotsKey.type
      (ParsedRobotsKey.parse (CM := asciiCaseMapping) (str "Disallow"))
    = ParsedRobotsKey.type
        (ParsedRobotsKey.parse (CM := asciiCaseMapping) (str "DISALLOW"))
  ∧ ParsedRobotsKey.keyIsAcceptableTypo
      (ParsedRobotsKey.parse (CM := asciiCaseMapping) (str "Disallow"))
    = ParsedRobotsKey.keyIsAcceptableTypo
        (ParsedRobotsKey.parse (CM := asciiCaseMapping) (str "DISALLOW")).
Proof.
  assert (H0 : asciiLawful asciiCaseMapping) by (intros s _; reflexivity).
  assert (H1 : Forall (λ c, (c < 128)%N) (str "Disallow"))
    by (apply (bool_decide_unpack _); by vm_compute).
  assert (H2 : Forall (λ c, (c < 128)%N) (str "DISALLOW"))
    by (apply (bool_decide_unpack _); by vm_compute).
  assert (H3 : asciiToLower <$> str "Disallow"
               = asciiToLower <$> str "DISALLOW") by (by vm_compute).
  repeat (split; [assumption|]).
  exact (parse_key_ignores_case (CM := asciiCaseMapping) H0 _ _ H1 H2 H3).
Defined.

Lemma parse_key_by_prefix_witness :
  asciiLawful asciiCaseMapping
  ∧ Forall (λ c, (c < 128)%N) (str "disallow")
  ∧ Forall (λ c, (c < 128)%N) (str "ed")
  ∧ ParsedRobotsKey.type
      (ParsedRobotsKey.parse (CM := asciiCaseMapping) (str "disallow"))
    ≠ UNKNOWN
  ∧ ParsedRobotsKey.type
      (ParsedRobotsKey.parse (CM := asciiCaseMapping)
         (str "disallow" ++ str "ed"))
    = ParsedRobotsKey.type
        (ParsedRobotsKey.parse (CM := asciiCaseMapping) (str "disallow"))
  ∧ ParsedRobotsKey.keyIsAcceptableTypo
      (ParsedRobotsKey.parse (CM := asciiCaseMapping)
         (str "disallow" ++ str "ed"))
    = ParsedRobotsKey.keyIsAcceptableTypo
        (ParsedRobotsKey.parse (CM := asciiCaseMapping) (str "disallow")).
Proof.
  assert (H0 : asciiLawful asciiCaseMapping) by (intros s _; reflexivity).
  assert (H1 : Forall (λ c, (c < 128)%N) (str "disallow"))
    by (apply (bool_decide_unpack _); by vm_compute).
  assert (H2 : Forall (λ c, (c < 128)%N) (str "ed"))
    by (apply (bool_decide_unpack _); by vm_compute).
  assert (H3 : ParsedRobotsKey.type
                 (ParsedRobotsKey.parse (CM := asciiCaseMapping)
                    (str "disallow")) ≠ UNKNOWN)
    by (vm_compute; discriminate).
  repeat (split; [assumption|]).
  exact (parse_key_by_prefix (CM := asciiCaseMapping) H0 _ _ H1 H2 H3).
Defined.


(** ** Files without a user-agent line *)

Section NoUserAgent.
Context `{CM : CaseMapping}.

(** Without user-agent event the live resolver stays as
    [handleRobotsStart] left it. *)
Lemma replay_no_userAgent_live es : ∀ m,
  (∀ n v, UserAgent n v ∉ es) → RobotsStart ∉ es →
  RobotsMatcher.seenAnyAgent m = false →
  replay es m = m.
Proof.
  induction es as [|e es IH]; intros m Hua Hstart Hseen; [done|].
  cbn [replay foldl].
  assert (He : deliver e m = m).
  { destruct e as [| |n v|n v|n v|n v|n a v|n md]; try done.
    - destruct Hstart. apply list_elem_of_here.
    - destruct (Hua n v). apply list_elem_of_here.
    - simpl. rewrite handleAllow_registerAllow. unfold registerAllow.
      rewrite Hseen. simpl. destruct (indexDirectory v); [|done].
      by rewrite Hseen.
    - simpl. unfold RobotsMatcher.handleDisallow. by rewrite Hseen. }
  rewrite He. apply IH; [| |done].
  - intros n v Hin. apply (Hua n v). by apply list_elem_of_further.
  - intros Hin. apply Hstart. by apply list_elem_of_further.
Qed.

(** Without user-agent event the collector stays empty. *)
Lemma replay_no_userAgent_bulk es : ∀ h,
  (∀ n v, UserAgent n v ∉ es) → RobotsStart ∉ es →
  currentGroup h = None →
  replay es h = h.
Proof.
  induction es as [|e es IH]; intros h Hua Hstart Hcur; [done|].
  cbn [replay foldl].
  assert (Hadd : ∀ n v b, RulesCollectorHandler.addRule n v b h = h).
  { intros n v b. unfold RulesCollectorHandler.addRule. by rewrite Hcur. }
  assert (He : deliver e h = h).
  { destruct e as [| |n v|n v|n v|n v|n a v|n md]; try done.
    - destruct Hstart. apply list_elem_of_here.
    - simpl. unfold RulesCollectorHandler.handleRobotsEnd,
        RulesCollectorHandler.finalizeCurrentGroup. by rewrite Hcur.
    - destruct (Hua n v). apply list_elem_of_here.
    - simpl. unfold RulesCollectorHandler.handleAllow.
      case_bool_decide; [done|]. rewrite !Hadd.
      by repeat case_match; rewrite ?Hadd.
    - simpl. unfold RulesCollectorHandler.handleDisallow.
      case_bool_decide; [done|]. by rewrite Hadd. }
  rewrite He. apply IH; [| |done].
  - intros n v Hin. apply (Hua n v). by apply list_elem_of_further.
  - intros Hin. apply Hstart. by apply list_elem_of_further.
Qed.

Lemma elem_of_concat {A} (x : A) (ls : list (list A)) :
  x ∈ concat ls ↔ ∃ l, x ∈ l ∧ l ∈ ls.
Proof.
  induction ls as [|l ls IH]; cbn.
  { split; [by intros ?%elem_of_nil|by intros (? & _ & ?%elem_of_nil)]. }
  rewrite elem_of_app, IH. split.
  - intros [Hx|(l' & Hx & Hl')].
    + exists l. split; [done|apply list_elem_of_here].
    + exists l'. split; [done|by apply list_elem_of_further].
  - intros (l' & Hx & [->|Hl']%elem_of_cons); [by left|right].
    by exists l'.
Qed.

Lemma parseEvents_tail text :
  ∃ es, parseEvents text = RobotsStart :: es ∧ RobotsStart ∉ es.
Proof.
  destruct (parseEvents_groups text) as (groups & -> & _ & _ & Hgroups).
  eexists. split; [reflexivity|].
  rewrite elem_of_app, list_elem_of_singleton.
  intros [Hin|?]; [|done].
  apply elem_of_concat in Hin as (g & Hin & Hg).
  apply list_elem_of_lookup in Hg as [i Hg].
  destruct (Hgroups i g Hg) as [(md & -> & _)|(e & md & -> & He & _)].
  - by apply list_elem_of_singleton in Hin.
  - apply elem_of_cons in Hin as [<-|Hin]; [done|].
    by apply list_elem_of_singleton in Hin.
Qed.

(** X29: a file without user-agent line restricts nothing: if no line of
    the text is a user-agent line, [allowedByRobots] returns true for every
    agent list and URL and [checkUrl] reports "none", allowed, whatever
    rules the text holds. *)
Theorem no_user_agent_line_allows_all (body userAgent u : list N)
    (userAgents : list (list N)) (m : RobotsMatcher) :
  (∀ n v, UserAgent n v ∉ parseEvents body) →
  (∃ m', RobotsMatcher.allowedByRobots body userAgents u m = Ok (true, m'))
  ∧ ∃ r, ParsedRobots.checkUrl userAgent u (ParsedRobots.parse body)
         = Some r
         ∧ allowed r = true ∧ matchedRuleType r = "none"%string.
Proof.
  intros Hua. destruct (parseEvents_tail body) as (es & Hev & Hstart).
  assert (Hua' : ∀ n v, UserAgent n v ∉ es).
  { intros n v Hin. apply (Hua n v). rewrite Hev.
    by apply list_elem_of_further. }
  split.
  - unfold RobotsMatcher.allowedByRobots,
      RobotsMatcher.initUserAgentsAndPath.
    rewrite getPathParamsQuery_startsWith_slash. cbn [negb]. cbv zeta.
    eexists. f_equal. f_equal.
    rewrite parseRobotsTxt_replay_events, Hev.
    change (replay (RobotsStart :: es) ?m0)
      with (replay es (handleRobotsStart m0)).
    by rewrite replay_no_userAgent_live.
  - eexists. split; [reflexivity|].
    unfold ParsedRobots.checkUrls, ParsedRobots.rulesFor, ParsedRobots.parse.
    cbv zeta.
    rewrite parseRobotsTxt_replay_events, Hev.
    change (replay (RobotsStart :: es) ?h0)
      with (replay es (handleRobotsStart h0)).
    rewrite replay_no_userAgent_bulk by done. cbn.
    rewrite lookup_empty. by cbn.
Qed.

End NoUserAgent.

Lemma no_user_agent_line_allows_all_witness :
  let body := robotsLines ["Disallow: /"; "Allow: /public"] in
  let u := str "http://example.com/secret" in
  (∀ n v, UserAgent n v ∉ parseEvents (CM := asciiCaseMapping) body)
  ∧ (∃ m', RobotsMatcher.allowedByRobots (CM := asciiCaseMapping) body
             [str "FooBot"] u RobotsMatcher.new = Ok (true, m'))
  ∧ ∃ r, ParsedRobots.checkUrl (CM := asciiCaseMapping) (str "FooBot") u
           (ParsedRobots.parse (CM := asciiCaseMapping) body) = Some r
         ∧ allowed r = true ∧ matchedRuleType r = "none"%string.
Proof.
  intros body u.
  assert (Hua : ∀ n v,
            UserAgent n v ∉ parseEvents (CM := asciiCaseMapping) body).
  { intros n v Hin. vm_compute in Hin.
    repeat (apply elem_of_cons in Hin as [Hin|Hin]; [discriminate|]).
    by apply elem_of_nil in Hin. }
  split; [exact Hua|].
  exact (no_user_agent_line_allows_all (CM := asciiCaseMapping) body
           (str "FooBot") u [str "FooBot"] RobotsMatcher.new Hua).
Defined.


(** ** matcher.ts and parsed-robots.ts: where the two resolvers agree *)

Section Agreement.
Context `{CM : CaseMapping}.
Variables p agent key : list N.

Lemma bestCandidates_snoc rs r :
  ParsedRobots.bestCandidates p (rs ++ [r])
  = ParsedRobots.checkRule p (ParsedRobots.bestCandidates p rs) r.
Proof. unfold ParsedRobots.bestCandidates. by rewrite foldl_app. Qed.

(** The fields of the live resolver after one rule was registered, when
    no specific agent is in sight. *)
Lemma live_register_fields n pat (b : bool) m :
  seenSpecificAgent m = false → path m = p →
  let m' := if b then registerAllow n pat m
            else RobotsMatcher.handleDisallow n pat m in
  let better old :=
    if matches p pat && (old <? Z.of_nat (length pat))%Z
    then Z.of_nat (length pat) else old in
  path m' = p ∧ userAgents m' = userAgents m
  ∧ seenSpecificAgent m' = false
  ∧ everSeenSpecificAgentFlag m' = everSeenSpecificAgentFlag m
  ∧ seenGlobalAgent m' = seenGlobalAgent m
  ∧ specific (allow m') = specific (allow m)
  ∧ specific (disallowMatch m') = specific (disallowMatch m)
  ∧ seenSeparator m'
    = (if seenGlobalAgent m then true else seenSeparator m)
  ∧ priority (global (allow m'))
    = (if b && seenGlobalAgent m then better (priority (global (allow m)))
       else priority (global (allow m)))
  ∧ priority (global (disallowMatch m'))
    = (if negb b && seenGlobalAgent m
       then better (priority (global (disallowMatch m)))
       else priority (global (disallowMatch m))).
Proof.
  intros Hss Hpath. cbv zeta.
  unfold registerAllow, RobotsMatcher.handleDisallow,
    RobotsMatcher.seenAnyAgent,
    LongestMatchRobotsMatchStrategy.matchAllow,
    LongestMatchRobotsMatchStrategy.matchDisallow,
    RobotsMatcher.updateHierarchy, Match.getPriority. cbv zeta.
  matcher_fields. rewrite Hss, Hpath, orb_false_r.
  destruct (seenGlobalAgent m) eqn:Hsg; destruct b, (matches p pat);
    cbn [negb andb]; rewrite ?Zleb_0_length;
    try change (0 <=? -1)%Z with false; cbv iota; matcher_fields;
    try (destruct (_ <? _)%Z); matcher_fields; by repeat split.
Qed.

(** The fields of the collector after one rule was added. *)
Lemma addRule_fields n pat b h :
  let h' := RulesCollectorHandler.addRule n pat b h in
  let rule := {| pattern := pat; lineNumber := n; isAllow := b |} in
  globalRules h'
  = (match currentGroup h with
     | Some g => if isGlobal g then globalRules h ++ [rule] else globalRules h
     | None => globalRules h
     end)
  ∧ agentGroups h' = agentGroups h
  ∧ collectorSeenSeparator h'
    = (match currentGroup h with
       | Some _ => true
       | None => collectorSeenSeparator h
       end)
  ∧ match currentGroup h, currentGroup h' with
    | Some g, Some g' => isGlobal g' = isGlobal g ∧ agents g' = agents g
    | None, None => True
    | _, _ => False
    end.
Proof.
  cbv zeta. unfold RulesCollectorHandler.addRule.
  destruct (currentGroup h) eqn:Hcur; cbn; rewrite ?Hcur; by repeat split.
Qed.

(** One rule registered in both resolvers. *)
Lemma agreeInv_rule n pat (b : bool) m h :
  agreeInv p agent key m h →
  agreeInv p agent key
    (if b then registerAllow n pat m
     else RobotsMatcher.handleDisallow n pat m)
    (RulesCollectorHandler.addRule n pat b h).
Proof.
  intros (Hpath & Hagents & Hss & Hever & Hsa & Hsd & Hglobal & Hsep & Hnosep
          & Hga & Hgd & Hgroups & Hcur).
  destruct (live_register_fields n pat b m Hss Hpath)
    as (Lpath & Lagents & Lss & Lever & Lglobal & Lsa & Lsd & Lsep & Lga
        & Lgd).
  destruct (addRule_fields n pat b h) as (Brules & Bgroups & Bsep & Bcur).
  cbv zeta in *.
  unfold agreeInv.
  rewrite Lpath, Lagents, Lss, Lever, Lglobal, Lsa, Lsd, Lsep, Lga, Lgd,
    Brules, Bgroups, Bsep.
  clear Lpath Lagents Lss Lever Lglobal Lsa Lsd Lsep Lga Lgd Brules Bgroups
    Bsep.
  split; [done|]. split; [done|]. split; [done|]. split; [done|].
  split; [done|]. split; [done|].
  destruct (currentGroup h) as [g|] eqn:Hg,
    (currentGroup (RulesCollectorHandler.addRule n pat b h)) as [g'|];
    try done.
  - destruct Bcur as [Bglobal Bagents]. rewrite Bglobal.
    split; [done|]. rewrite Hglobal.
    destruct (isGlobal g) eqn:Hisg.
    + rewrite bestCandidates_snoc, checkRule_cases.
      cbn [fst snd isAllow pattern]. rewrite !andb_true_r, Hga, Hgd.
      repeat split; try done.
      * destruct b; rewrite ?(bool_decide_eq_true_2 (_ = _)) by done;
          rewrite ?(bool_decide_eq_false_2 (_ = _)) by done;
          cbn [andb negb]; rewrite ?andb_true_r, ?andb_false_r; [|done].
        by destruct (_ && _).
      * destruct b; rewrite ?(bool_decide_eq_true_2 (_ = _)) by done;
          rewrite ?(bool_decide_eq_false_2 (_ = _)) by done;
          cbn [andb negb]; rewrite ?andb_true_r, ?andb_false_r; [done|].
        by destruct (_ && _).
      * intros g0 [= <-]. rewrite Bagents. by apply Hcur.
    + rewrite !andb_false_r. repeat split; try done.
      * intros _. apply Hnosep. by rewrite Hglobal.
      * intros g0 [= <-]. rewrite Bagents. by apply Hcur.
  - rewrite Hglobal, !andb_false_r. repeat split; try done.
    intros _. apply Hnosep. by rewrite Hglobal.
Qed.

Lemma agreeInv_finalize_groups h :
  Forall (λ g, key ∉ agents g) (agentGroups h) →
  (∀ g, currentGroup h = Some g → key ∉ agents g) →
  Forall (λ g, key ∉ agents g)
    (agentGroups (RulesCollectorHandler.finalizeCurrentGroup h)).
Proof.
  intros Hgroups Hcur. unfold RulesCollectorHandler.finalizeCurrentGroup.
  destruct (currentGroup h) as [g|]; [|done].
  case_bool_decide; [|done]. cbn. apply Forall_app. split; [done|].
  repeat constructor. by apply Hcur.
Qed.

Lemma setAdd_not_elem x set :
  key ≠ x → key ∉ set → key ∉ setAdd x set.
Proof.
  intros Hx Hset. unfold setAdd. case_bool_decide; [done|].
  rewrite elem_of_app, list_elem_of_singleton. tauto.
Qed.

(** A user-agent line that does not name the agent. *)
Lemma agreeInv_userAgent n v m h :
  agreeInv p agent key m h → agreeEvent agent key (UserAgent n v) →
  agreeInv p agent key (RobotsMatcher.handleUserAgent n v m)
    (RulesCollectorHandler.handleUserAgent n v h).
Proof.
  intros (Hpath & Hagents & Hss & Hever & Hsa & Hsd & Hglobal & Hsep & Hnosep
          & Hga & Hgd & Hgroups & Hcur) Hev.
  cbn [agreeEvent] in Hev.
  assert (Hfin := agreeInv_finalize_groups h Hgroups Hcur).
  assert (Hfinrules : globalRules (RulesCollectorHandler.finalizeCurrentGroup h)
                      = globalRules h).
  { unfold RulesCollectorHandler.finalizeCurrentGroup.
    destruct (currentGroup h); [|done]. by case_bool_decide. }
  assert (Hreq : isGlobalAgent v = false →
            RobotsMatcher.matchesRequestedAgent (extractUserAgent v)
              (userAgents m) = false).
  { intros Hg. rewrite Hagents. unfold RobotsMatcher.matchesRequestedAgent.
    cbn. rewrite orb_false_r. apply bool_decide_eq_false. by apply Hev. }
  unfold RobotsMatcher.handleUserAgent, RulesCollectorHandler.handleUserAgent.
  cbv zeta.
  destruct (isGlobalAgent v) eqn:Hisg.
  - (* the global agent *)
    destruct (seenSeparator m) eqn:Hlsep,
      (collectorSeenSeparator h) eqn:Hbsep;
      unfold agreeInv; matcher_fields;
      cbn [globalRules agentGroups currentGroup collectorSeenSeparator
           isGlobal agents rules]; rewrite ?Hfinrules.
    + repeat split; try done. intros g [= <-]. cbn. apply not_elem_of_nil.
    + destruct (seenGlobalAgent m) eqn:Hsg; [by specialize (Hsep eq_refl)|].
      by specialize (Hnosep eq_refl).
    + repeat split; try done. intros g [= <-]. cbn. apply not_elem_of_nil.
    + repeat split; try done. intros g [= <-].
      destruct (currentGroup h) as [g0|]; cbn; [by apply Hcur|].
      apply not_elem_of_nil.
  - (* a named agent, not the requested one *)
    rewrite (Hreq eq_refl). destruct (Hev eq_refl) as [_ Hkey].
    assert (Hnil : key ∉ ([] : list (list N))) by apply not_elem_of_nil.
    assert (Hcur0 : key ∉ agents match currentGroup h with
                                | Some g => g
                                | None => {| agents := []; rules := [];
                                             isGlobal := false |}
                                end).
    { destruct (currentGroup h) as [g0|]; [by apply Hcur|done]. }
    assert (Hglobal0 : seenGlobalAgent m
                       = isGlobal match currentGroup h with
                                  | Some g => g
                                  | None => {| agents := []; rules := [];
                                               isGlobal := false |}
                                  end).
    { rewrite Hglobal. by destruct (currentGroup h). }
    destruct (bool_decide (0 < length (extractUserAgent v)));
      destruct (seenSeparator m) eqn:Hlsep,
        (collectorSeenSeparator h) eqn:Hbsep;
      unfold agreeInv; matcher_fields;
      cbn [globalRules agentGroups currentGroup collectorSeenSeparator
           isGlobal agents rules]; rewrite ?Hfinrules;
      try (destruct (seenGlobalAgent m) eqn:Hsg;
           [by specialize (Hsep eq_refl)|by specialize (Hnosep eq_refl)]);
      try (assert (Hsg : seenGlobalAgent m = false)
             by (destruct (seenGlobalAgent m);
                 [by specialize (Hsep eq_refl)|done]);
           rewrite Hsg);
      repeat split; try done;
      try (intros g [= <-]; cbn [agents]; try apply setAdd_not_elem; done).
Qed.

Lemma collector_handleAllow_addRule n v h :
  v ≠ [] →
  RulesCollectorHandler.handleAllow n v h
  = match indexDirectory v with
    | Some d =>
        RulesCollectorHandler.addRule n d true
          (RulesCollectorHandler.addRule n v true h)
    | None => RulesCollectorHandler.addRule n v true h
    end.
Proof.
  intros Hv. unfold RulesCollectorHandler.handleAllow, indexDirectory,
    directoryPattern.
  rewrite bool_decide_eq_false_2 by (by destruct v).
  destruct (lastIndexOf (ch "/") v); [|done]. by destruct (startsWith _ _).
Qed.

Lemma agreeInv_deliver e m h :
  agreeInv p agent key m h → agreeEvent agent key e →
  agreeInv p agent key (deliver e m) (deliver e h).
Proof.
  intros Hinv Hev.
  destruct e as [| |n v|n v|n v|n v|n a v|n md]; cbn [deliver]; try done.
  - (* RobotsStart *)
    destruct Hinv as (Hpath & Hagents & _).
    unfold agreeInv. cbn. by repeat split.
  - (* RobotsEnd *)
    destruct Hinv as (Hpath & Hagents & Hss & Hever & Hsa & Hsd & Hglobal
                      & Hsep & Hnosep & Hga & Hgd & Hgroups & Hcur).
    pose proof (agreeInv_finalize_groups h Hgroups Hcur) as Hfin.
    simpl. unfold RulesCollectorHandler.handleRobotsEnd,
      RobotsMatcher.handleRobotsEnd.
    revert Hfin. unfold RulesCollectorHandler.finalizeCurrentGroup.
    destruct (currentGroup h) as [g|] eqn:Hg;
      [|by intros; repeat split; rewrite ?Hg].
    case_bool_decide; [|by intros; repeat split; rewrite ?Hg].
    intros Hfin. unfold agreeInv. cbn. by repeat split.
  - (* UserAgent *)
    by apply agreeInv_userAgent.
  - (* Allow *)
    simpl. rewrite handleAllow_registerAllow, collector_handleAllow_addRule
      by done.
    destruct (indexDirectory v) as [d|].
    + apply (agreeInv_rule n d true). by apply (agreeInv_rule n v true).
    + by apply (agreeInv_rule n v true).
  - (* Disallow *)
    simpl. unfold RulesCollectorHandler.handleDisallow.
    rewrite bool_decide_eq_false_2 by (by destruct v).
    by apply (agreeInv_rule n v false).
Qed.

Lemma agreeInv_replay es : ∀ m h,
  agreeInv p agent key m h → Forall (agreeEvent agent key) es →
  agreeInv p agent key (replay es m) (replay es h).
Proof.
  induction es as [|e es IH]; intros m h Hinv Hes; [done|].
  apply Forall_cons in Hes as [He Hes]. cbn [replay foldl].
  apply IH; [|done]. by apply agreeInv_deliver.
Qed.

(** No list is filed under a key that no group holds. *)
Lemma addGroupAgents_absent groups :
  ∀ acc : gmap (list N) (list ParsedRule) * gset (list N),
  Forall (λ g, key ∉ agents g) groups → acc.1 !! key = None →
  (foldl (λ acc group, ParsedRobots.addGroupAgents group acc) acc groups).1
    !! key = None.
Proof.
  induction groups as [|g groups IH]; intros acc Hgroups Hacc; [done|].
  apply Forall_cons in Hgroups as [Hg Hgroups]. cbn [foldl].
  apply IH; [done|]. unfold ParsedRobots.addGroupAgents.
  revert acc Hacc. induction (agents g) as [|a ags IHa]; intros acc Hacc;
    [done|].
  apply not_elem_of_cons in Hg as [Hne Hg]. cbn [foldl].
  apply IHa; [done|]. cbn. by rewrite lookup_insert_ne.
Qed.

End Agreement.

(** X30: the two resolvers agree on agents the file does not name: when
    no Allow or Disallow line of the text has an empty value and no
    user-agent line other than the global one names the agent,
    [oneAgentAllowedByRobots] of a fresh matcher and [checkUrl] of the
    parsed text return the same verdict for every URL. *)
Theorem resolvers_agree_on_unnamed_agent `{CM : CaseMapping}
    (body agent u : list N) :
  (∀ n v, Allow n v ∈ parseEvents body → v ≠ []) →
  (∀ n v, Disallow n v ∈ parseEvents body → v ≠ []) →
  (∀ n v, UserAgent n v ∈ parseEvents body → isGlobalAgent v = false →
          toLowerCase (extractUserAgent v) ≠ toLowerCase agent
          ∧ toLowerCase (extractUserAgent v)
            ≠ toLowerCase (extractUserAgent agent)) →
  liveAllowed body agent u = bulkAllowed body agent u.
Proof.
  intros Hallow Hdisallow Hagents.
  set (p := UrlUtils.getPathParamsQuery u).
  set (key := toLowerCase (extractUserAgent agent)).
  assert (Hevents : Forall (agreeEvent agent key) (parseEvents body)).
  { apply Forall_forall. intros [| |n v|n v|n v|n v|n a v|n md] Hin; cbn;
      try done; eauto. }
  unfold liveAllowed, bulkAllowed, RobotsMatcher.oneAgentAllowedByRobots,
    RobotsMatcher.allowedByRobots, RobotsMatcher.initUserAgentsAndPath,
    ParsedRobots.checkUrl, ParsedRobots.checkUrls.
  rewrite getPathParamsQuery_startsWith_slash. cbn [negb]. cbv zeta.
  cbn [resultValue fmap option_fmap option_map fst list_fmap lookup
       list_lookup].
  f_equal. rewrite checkSingleUrl_allowed. cbv zeta. fold p.
  set (m1 := {| allow := _ |}).
  pose proof (collectorInv_parse body RulesCollectorHandler.new)
    as (Hnonempty & _ & _).
  assert (Hinv : agreeInv p agent key (parseRobotsTxt body m1)
                   (parseRobotsTxt body RulesCollectorHandler.new)).
  { rewrite !parseRobotsTxt_replay_events.
    destruct (parseEvents_tail body) as (es & Hev & _). rewrite Hev in *.
    apply Forall_cons in Hevents as [_ Hes].
    change (replay (RobotsStart :: es) ?x)
      with (replay es (handleRobotsStart x)).
    apply agreeInv_replay; [|done]. unfold agreeInv. cbn. by repeat split. }
  destruct Hinv as (_ & _ & _ & Hever & Hsa & Hsd & _ & _ & _ & Hga & Hgd
                    & Hgroups & _).
  assert (Hrules : ParsedRobots.rulesFor agent (ParsedRobots.parse body)
                   = globalRules
                       (parseRobotsTxt body RulesCollectorHandler.new)).
  { unfold ParsedRobots.rulesFor, ParsedRobots.parse. cbv zeta. fold key.
    pose proof (addGroupAgents_absent key _ (∅, ∅) Hgroups) as Habsent.
    destruct (foldl _ _ _) as [amap aset]; cbn in *.
    by rewrite Habsent by apply lookup_empty. }
  rewrite Hrules.
  pose proof (bestCandidates_nonEmpty p _ Hnonempty) as [Hba Hbd].
  cbv zeta in Hba, Hbd. rewrite <- Hga, <- Hgd in *.
  unfold RobotsMatcher.disallow, Match.getPriority.
  rewrite Hever, Hsa, Hsd. cbn [Z.ltb Z.compare orb].
  destruct (Z.leb_spec (priority (global (disallowMatch
              (parseRobotsTxt body m1))))
              (priority (global (allow (parseRobotsTxt body m1)))))
    as [Hle|Hgt].
  - destruct (_ || _); [|done].
    by rewrite (proj2 (Z.ltb_ge _ _)) by lia.
  - rewrite (proj2 (Z.ltb_lt 0 _)) by lia. cbn [orb].
    by rewrite (proj2 (Z.ltb_lt _ _)) by lia.
Qed.

Lemma resolvers_agree_on_unnamed_agent_witness :
  let body := robotsLines ["User-agent: *"; "Disallow: /private";
                           "Allow: /private/open"; "User-agent: BarBot";
                           "Disallow: /"] in
  let agent := str "FooBot/1.0" in
  let u := str "http://example.com/private/x" in
  (∀ n v, Allow n v ∈ parseEvents (CM := asciiCaseMapping) body → v ≠ [])
  ∧ (∀ n v, Disallow n v ∈ parseEvents (CM := asciiCaseMapping) body
            → v ≠ [])
  ∧ (∀ n v, UserAgent n v ∈ parseEvents (CM := asciiCaseMapping) body →
            isGlobalAgent v = false →
            toLowerCase (CaseMapping := asciiCaseMapping)
              (extractUserAgent v)
            ≠ toLowerCase (CaseMapping := asciiCaseMapping) agent
            ∧ toLowerCase (CaseMapping := asciiCaseMapping)
                (extractUserAgent v)
              ≠ toLowerCase (CaseMapping := asciiCaseMapping)
                  (extractUserAgent agent))
  ∧ liveAllowed (CM := asciiCaseMapping) body agent u = Some false
  ∧ liveAllowed (CM := asciiCaseMapping) body agent u
    = bulkAllowed (CM := asciiCaseMapping) body agent u.
Proof.
  intros body agent u.
  assert (Hallow : ∀ n v,
            Allow n v ∈ parseEvents (CM := asciiCaseMapping) body → v ≠ []).
  { intros n v Hin. vm_compute in Hin.
    repeat (apply elem_of_cons in Hin as [Hin|Hin];
            [try discriminate; by injection Hin as -> ->|]).
    by apply elem_of_nil in Hin. }
  assert (Hdisallow : ∀ n v,
            Disallow n v ∈ parseEvents (CM := asciiCaseMapping) body
            → v ≠ []).
  { intros n v Hin. vm_compute in Hin.
    repeat (apply elem_of_cons in Hin as [Hin|Hin];
            [try discriminate; by injection Hin as -> ->|]).
    by apply elem_of_nil in Hin. }
  assert (Hagents : ∀ n v,
            UserAgent n v ∈ parseEvents (CM := asciiCaseMapping) body →
            isGlobalAgent v = false →
            toLowerCase (CaseMapping := asciiCaseMapping)
              (extractUserAgent v)
            ≠ toLowerCase (CaseMapping := asciiCaseMapping) agent
            ∧ toLowerCase (CaseMapping := asciiCaseMapping)
                (extractUserAgent v)
              ≠ toLowerCase (CaseMapping := asciiCaseMapping)
                  (extractUserAgent agent)).
  { intros n v Hin. vm_compute in Hin.
    repeat (apply elem_of_cons in Hin as [Hin|Hin];
            [try discriminate; injection Hin as -> ->; intros Hglobal;
             first [by vm_compute in Hglobal|by split; vm_compute]|]).
    by apply elem_of_nil in Hin. }
  split; [exact Hallow|]. split; [exact Hdisallow|].
  split; [exact Hagents|]. split; [by vm_compute|].
  exact (resolvers_agree_on_unnamed_agent (CM := asciiCaseMapping)
           body agent u Hallow Hdisallow Hagents).
Defined.


(** ** parsed-robots.ts: the groups of an agent are merged *)

Section MergedGroups.
Context `{CM : CaseMapping}.

Lemma setAdd_NoDup x set : NoDup set → NoDup (setAdd x set).
Proof.
  intros Hset. unfold setAdd. case_bool_decide as Hin; [done|].
  apply NoDup_app. split; [done|]. split; [|apply NoDup_singleton].
  by intros y Hy ->%list_elem_of_singleton.
Qed.

Lemma agentsNoDup_finalize h :
  agentsNoDup h → agentsNoDup (RulesCollectorHandler.finalizeCurrentGroup h).
Proof.
  intros [Hgroups Hcur]. unfold RulesCollectorHandler.finalizeCurrentGroup.
  destruct (currentGroup h) as [g|] eqn:Hg; [|by split; [|rewrite Hg]].
  case_bool_decide; [|by split; [|rewrite Hg]].
  split; cbn; [|done]. apply Forall_app. split; [done|].
  repeat constructor. by apply Hcur.
Qed.

Lemma agentsNoDup_addRule n v b h :
  agentsNoDup h → agentsNoDup (RulesCollectorHandler.addRule n v b h).
Proof.
  intros [Hgroups Hcur]. unfold RulesCollectorHandler.addRule.
  destruct (currentGroup h) as [g|] eqn:Hg; [|by split; [|rewrite Hg]].
  split; cbn; [done|]. intros g' [= <-]. cbn. by apply Hcur.
Qed.

Lemma agentsNoDup_parse body h :
  agentsNoDup (parseRobotsTxt (H := RulesCollectorHandler) body h).
Proof.
  apply (parseRobotsTxt_preserves agentsNoDup); simpl; try done.
  - by apply agentsNoDup_finalize.
  - intros n v h0 Hh. unfold RulesCollectorHandler.handleUserAgent.
    cbv zeta.
    assert (Hh' : agentsNoDup
              (if collectorSeenSeparator h0
               then let h1 := RulesCollectorHandler.finalizeCurrentGroup h0 in
                    {| globalRules := globalRules h1;
                       agentGroups := agentGroups h1;
                       currentGroup := None;
                       collectorSeenSeparator := false |}
               else h0)).
    { destruct (collectorSeenSeparator h0); [|done].
      apply agentsNoDup_finalize in Hh as [Hgroups _]. by split. }
    cbv zeta in Hh'. destruct Hh' as [Hgroups Hcur].
    split; cbn [agentGroups currentGroup]; [done|].
    intros g [= <-].
    assert (Hg : NoDup (agents
              match currentGroup
                      (if collectorSeenSeparator h0
                       then {| globalRules := globalRules
                                 (RulesCollectorHandler.finalizeCurrentGroup
                                    h0);
                               agentGroups := agentGroups
                                 (RulesCollectorHandler.finalizeCurrentGroup
                                    h0);
                               currentGroup := None;
                               collectorSeenSeparator := false |}
                       else h0) with
              | Some g => g
              | None => {| agents := []; rules := []; isGlobal := false |}
              end)).
    { destruct (currentGroup _) as [g|]; [by apply Hcur|apply NoDup_nil_2]. }
    destruct (isGlobalAgent v); [done|].
    case_bool_decide; [|done]. cbn [agents]. by apply setAdd_NoDup.
  - intros n v h0 Hh. unfold RulesCollectorHandler.handleAllow.
    case_bool_decide; [done|].
    repeat case_match; by repeat apply agentsNoDup_addRule.
  - intros n v h0 Hh. unfold RulesCollectorHandler.handleDisallow.
    case_bool_decide; [done|]. by apply agentsNoDup_addRule.
Qed.

(** The inner loop of [ParsedRobots.parse] on the list filed under [key]. *)
Lemma addGroupAgents_lookup (key : list N) (group : AgentGroup)
    (acc : gmap (list N) (list ParsedRule) * gset (list N)) :
  NoDup (agents group) →
  (ParsedRobots.addGroupAgents group acc).1 !! key
  = if bool_decide (key ∈ agents group)
    then Some (default [] (acc.1 !! key) ++ rules group)
    else acc.1 !! key.
Proof.
  unfold ParsedRobots.addGroupAgents.
  generalize (rules group) as rs. intros rs.
  induction (agents group) as [|a ags IH] in acc |- *; intros Hnd; [done|].
  apply NoDup_cons in Hnd as [Ha Hnd]. cbn [foldl].
  rewrite IH by done. cbn [fst].
  destruct (decide (key = a)) as [->|Hne].
  - rewrite (bool_decide_eq_false_2 (a ∈ ags)) by done.
    rewrite (bool_decide_eq_true_2 (a ∈ a :: ags)) by apply list_elem_of_here.
    by rewrite lookup_insert_eq.
  - rewrite lookup_insert_ne by done.
    assert (Hiff : bool_decide (key ∈ a :: ags) = bool_decide (key ∈ ags)).
    { apply bool_decide_ext. rewrite elem_of_cons. tauto. }
    by rewrite Hiff.
Qed.

(** The outer loop of [ParsedRobots.parse] on the list filed under [key]. *)
Lemma addGroups_lookup (key : list N) (groups : list AgentGroup) :
  ∀ acc : gmap (list N) (list ParsedRule) * gset (list N),
  Forall (λ g, NoDup (agents g)) groups →
  (foldl (λ acc group, ParsedRobots.addGroupAgents group acc) acc groups).1
    !! key
  = if decide (groupsNaming key groups = [])
    then acc.1 !! key
    else Some (default [] (acc.1 !! key)
               ++ concat (rules <$> groupsNaming key groups)).
Proof.
  unfold groupsNaming.
  induction groups as [|g groups IH]; intros acc Hgroups; [done|].
  apply Forall_cons in Hgroups as [Hg Hgroups]. cbn [foldl].
  rewrite IH, addGroupAgents_lookup by done.
  rewrite filter_cons. destruct (decide (key ∈ agents g)) as [Hin|Hin].
  - rewrite bool_decide_eq_true_2 by done. cbn [default].
    rewrite (decide_False (P := g :: _ = [])) by done.
    rewrite fmap_cons, concat_cons, app_assoc. unfold id.
    destruct (decide _) as [->|]; [|done]. by rewrite app_nil_r.
  - by rewrite bool_decide_eq_false_2 by done.
Qed.

(** X20: the groups of an agent are merged: the list the index files under
    a name is the concatenation, in the order of the file, of the rules of
    the groups the collector has kept that hold this name; the index has
    no list for a name that no kept group holds. *)
Theorem parse_merges_groups (body key : list N) :
  let groups :=
    agentGroups (parseRobotsTxt body RulesCollectorHandler.new) in
  agentRulesMap (ParsedRobots.parse body) !! key
  = if decide (groupsNaming key groups = []) then None
    else Some (concat (rules <$> groupsNaming key groups)).
Proof.
  intros groups. unfold ParsedRobots.parse. cbv zeta. fold groups.
  pose proof (agentsNoDup_parse body RulesCollectorHandler.new) as [Hnd _].
  fold groups in Hnd.
  pose proof (addGroups_lookup key groups (∅, ∅) Hnd) as Hlookup.
  destruct (foldl _ _ _) as [amap aset]. cbn [agentRulesMap fst] in *.
  rewrite Hlookup. by rewrite lookup_empty.
Qed.

End MergedGroups.
